(** * A limit order book: the matching engine of [main.cpp] and its variant

    The development embeds the [OrderBook] class of [src/main.cpp] (module
    [Main]) and the near-duplicate class of the second engine file (module
    [Part001]) as executable Rocq functions, and states the properties of
    the design document as theorems about them.  The aggregated
    [LimitOrderBook] of the third source file is module [Part000].  The
    last part proves further properties of the code: the invariants of the
    reachable books, the accounting of quantities, and the price and time
    priority of the trades.

    Modelling conventions.

    - [Quantity], [Price] and [OrderId] are [std::int32_t]; they are integers
      of [Z].  The only arithmetic of the engine is the subtraction of
      [Order::Fill] (and the sum of [GetLevelInfos]); a signed overflow is
      undefined in C++, and the model reduces the result to the 32-bit
      two's-complement range with [wrap32].
    - [std::map<Price, OrderPointers, Compare>] is an association list kept
      in the iteration order of the map, so that [begin()] is its first
      entry; [subscript], [update] and [erase] are [operator[]], a write
      through the reference it returns, and [erase(key)].
    - A [std::list] node is a pair of its address (what an
      [OrderPointers::iterator] denotes) and the [Order] that its
      [shared_ptr] points to.  Addresses are drawn from the counter
      [fresh_] and never used twice.  Every call of [AddOrder] receives an
      [Order] object that nothing else points to, so an order lives in one
      node, and the state of the object is kept in that node.
    - An entry of the index holds, for its [shared_ptr], the order as it was
      inserted: the engine reads through it the identifier, side, price and
      type only, which [Fill] never writes.
    - [Order::Fill] throws; the functions that may throw return an
      [outcome].  The two loops of [MatchOrders] take fuel, and running out
      of fuel is the third [outcome]: the inner loop gets the number of
      nodes of the two lists it works on, the outer loop one more than the
      number of price levels, and lemmas [match_level_returns],
      [MatchOrders_loop_returns] and [MatchOrders_loop_fuel_mono] show that
      this is enough on the books the engine builds and that more fuel
      returns the same.
    - In [MatchOrders] the references [bid], [ask], [bids], [asks] are read
      after the node or map entry they refer to has been destroyed, and in
      [ModifyOrder] so is [existingOrder].  A reference to a destroyed order
      reads the order as it was when it was destroyed, and a reference to
      the list of an erased price level reads an empty list.
    - In the second file [quantity] is moreover a reference to a temporary
      that is destroyed before its first read.  What such a read yields is
      not determined by the program; module [Part001] takes it from a
      parameter, [dangling], and nothing is assumed of it.  The loops of
      that module take their fuel as a parameter too.
    - [trades.reserve] has no effect on the result and is left out. *)

From Stdlib Require Import ZArith List Lia Bool.
From stdpp Require Import base option list sorting gmap.
Import ListNotations.

Local Open Scope Z_scope.

(** ** Scalar types *)

Inductive Side := Buy | Sell.
Inductive OrderType := FillAndKill | GoodTillCancel.

Abbreviation Quantity := Z (only parsing).
Abbreviation Price := Z (only parsing).
Abbreviation OrderId := Z (only parsing).
Abbreviation Loc := nat (only parsing).

Definition OrderType_eqb (a b : OrderType) : bool :=
  match a, b with
  | FillAndKill, FillAndKill | GoodTillCancel, GoodTillCancel => true
  | _, _ => false
  end.

(** Reduction of an integer to the range of [std::int32_t]. *)
Definition wrap32 (z : Z) : Z := (z + 2 ^ 31) mod 2 ^ 32 - 2 ^ 31.

Definition int32 (z : Z) : Prop := - 2 ^ 31 <= z < 2 ^ 31.

(** ** Outcomes of a call *)

Inductive outcome (A : Type) : Type :=
| Returned (a : A)
| Thrown (orderId : OrderId)   (* std::logic_error raised by Order::Fill *)
| OutOfFuel.

Arguments Returned {A} a.
Arguments Thrown {A} orderId.
Arguments OutOfFuel {A}.

#[global] Instance outcome_bind : MBind outcome := fun A B k c =>
  match c with
  | Returned a => k a
  | Thrown i => Thrown i
  | OutOfFuel => OutOfFuel
  end.

(** ** class Order *)

Record Order := mkOrder {
  orderId_ : OrderId;
  orderType_ : OrderType;
  initialQuantity_ : Quantity;
  remainingQuantity_ : Quantity;
  price_ : Price;
  side_ : Side
}.

(** The constructor [Order(orderId, orderType, quantity, price, side)]. *)
Definition newOrder (orderId : OrderId) (orderType : OrderType)
    (quantity : Quantity) (price : Price) (side : Side) : Order :=
  {| orderId_ := orderId; orderType_ := orderType;
     initialQuantity_ := quantity; remainingQuantity_ := quantity;
     price_ := price; side_ := side |}.

Definition isFilled (o : Order) : bool := remainingQuantity_ o =? 0.

Definition Fill (quantity : Quantity) (o : Order) : outcome Order :=
  if quantity >? remainingQuantity_ o then Thrown (orderId_ o)
  else Returned
         {| orderId_ := orderId_ o; orderType_ := orderType_ o;
            initialQuantity_ := initialQuantity_ o;
            remainingQuantity_ := wrap32 (remainingQuantity_ o - quantity);
            price_ := price_ o; side_ := side_ o |}.

(** ** class OrderModify *)

Record OrderModify := mkOrderModify {
  m_orderId_ : OrderId;
  m_side_ : Side;
  m_quantity_ : Quantity;
  m_price_ : Price
}.

Definition ToOrderPointer (m : OrderModify) (orderType : OrderType) : Order :=
  newOrder (m_orderId_ m) orderType (m_quantity_ m) (m_price_ m) (m_side_ m).

(** ** Trades *)

Record TradeInfos := mkTradeInfos {
  orderId : OrderId;
  price : Price;
  quantity : Quantity
}.

Record Trade := mkTrade {
  bidTrade_ : TradeInfos;
  askTrade_ : TradeInfos
}.

Abbreviation Trades := (list Trade) (only parsing).

(** ** Price-level queues *)

(** A node of [std::list<OrderPointer>]. *)
Record Node := mkNode {
  self : Loc;      (* the address of the node: the value of an iterator to it *)
  held : Order     (* the order that the node's shared_ptr points to *)
}.

Abbreviation OrderPointers := (list Node) (only parsing).
Abbreviation Levels := (list (Price * list Node)) (only parsing).

(** [std::greater<Price>] and [std::less<Price>]: whether key [a] is visited
    before key [b]. *)
Definition greater (a b : Price) : bool := a >? b.
Definition less (a b : Price) : bool := a <? b.

(** The list that a reference to the mapped value of key [k] reads; the list
    of a key that is not (or no longer) in the map reads as empty. *)
Fixpoint level (m : Levels) (k : Price) : list Node :=
  match m with
  | [] => []
  | (k', l) :: m' => if k' =? k then l else level m' k
  end.

Fixpoint contains_level (m : Levels) (k : Price) : bool :=
  match m with
  | [] => false
  | (k', _) :: m' => (k' =? k) || contains_level m' k
  end.

(** [m[k]]: the entry of [k] is created with an empty list when absent. *)
Fixpoint subscript (before : Price -> Price -> bool) (k : Price) (m : Levels)
  : Levels :=
  match m with
  | [] => [(k, [])]
  | (k', l) :: m' =>
      if k' =? k then m
      else if before k k' then (k, []) :: m
      else (k', l) :: subscript before k m'
  end.

(** A write through a reference to the mapped value of key [k]. *)
Fixpoint update (k : Price) (f : list Node -> list Node) (m : Levels) : Levels :=
  match m with
  | [] => []
  | (k', l) :: m' =>
      if k' =? k then (k', f l) :: m' else (k', l) :: update k f m'
  end.

(** [m.erase(k)]. *)
Fixpoint erase (k : Price) (m : Levels) : Levels :=
  match m with
  | [] => []
  | (k', l) :: m' =>
      if k' =? k then erase k m' else (k', l) :: erase k m'
  end.

Definition push_back (n : Node) (l : list Node) : list Node := l ++ [n].

Definition pop_front (l : list Node) : list Node := tl l.

(** [l.erase(it)]: the node at address [it] leaves the list. *)
Fixpoint list_erase (it : Loc) (l : list Node) : list Node :=
  match l with
  | [] => []
  | n :: l' => if Nat.eqb (self n) it then l' else n :: list_erase it l'
  end.

(** A write to the object that the first node points to. *)
Definition set_front (o : Order) (l : list Node) : list Node :=
  match l with
  | [] => []
  | n :: l' => mkNode (self n) o :: l'
  end.

(** ** class OrderBook: the data members *)

Record OrderEntry := mkOrderEntry {
  order : Order;     (* read only through the getters of the constant members *)
  location : Loc
}.

Record OrderBook := mkOrderBook {
  bids_ : Levels;                     (* ordered by std::greater *)
  asks_ : Levels;                     (* ordered by std::less *)
  orders_ : gmap Z OrderEntry;
  fresh_ : Loc                        (* the next list-node address *)
}.

Definition empty_book : OrderBook :=
  {| bids_ := []; asks_ := []; orders_ := ∅; fresh_ := O |}.

Definition with_bids (s : OrderBook) (b : Levels) : OrderBook :=
  {| bids_ := b; asks_ := asks_ s; orders_ := orders_ s; fresh_ := fresh_ s |}.

Definition with_asks (s : OrderBook) (a : Levels) : OrderBook :=
  {| bids_ := bids_ s; asks_ := a; orders_ := orders_ s; fresh_ := fresh_ s |}.

Definition with_orders (s : OrderBook) (o : gmap Z OrderEntry) : OrderBook :=
  {| bids_ := bids_ s; asks_ := asks_ s; orders_ := o; fresh_ := fresh_ s |}.

Definition with_fresh (s : OrderBook) (n : Loc) : OrderBook :=
  {| bids_ := bids_ s; asks_ := asks_ s; orders_ := orders_ s; fresh_ := n |}.

Definition contains (s : OrderBook) (id : OrderId) : bool :=
  bool_decide (is_Some (orders_ s !! id)).

(** [orders_.insert({id, entry})]: an existing entry is kept. *)
Definition insert_entry (id : OrderId) (e : OrderEntry)
    (m : gmap Z OrderEntry) : gmap Z OrderEntry :=
  match m !! id with
  | Some _ => m
  | None => <[id := e]> m
  end.

Definition is_nil {A : Type} (l : list A) : bool :=
  match l with
  | [] => true
  | _ :: _ => false
  end.

(** ** Level snapshot *)

Record LevelInfo := mkLevelInfo {
  li_price : Price;
  li_quantity : Quantity
}.

Abbreviation LevelInfos := (list LevelInfo) (only parsing).

Record OrderBookLevelInfos := mkOrderBookLevelInfos {
  GetBidsLevelInfos : LevelInfos;
  GetAsksLevelInfos : LevelInfos
}.

Definition CreateLevelInfos (price : Price) (orders : list Node) : LevelInfo :=
  mkLevelInfo price
    (fold_left (fun runningSum n => wrap32 (runningSum + remainingQuantity_ (held n)))
               orders 0).

Definition GetLevelInfos (s : OrderBook) : OrderBookLevelInfos :=
  mkOrderBookLevelInfos
    (map (fun '(price, orders) => CreateLevelInfos price orders) (bids_ s))
    (map (fun '(price, orders) => CreateLevelInfos price orders) (asks_ s)).

(** ** The engine of [src/main.cpp] *)

Module Main.

Definition CanMatch (s : OrderBook) (side : Side) (price : Price) : bool :=
  match side with
  | Buy =>
      match asks_ s with
      | [] => false
      | (bestAsks, _) :: _ => price >=? bestAsks
      end
  | Sell =>
      match bids_ s with
      | [] => false
      | (bestBids, _) :: _ => price <=? bestBids
      end
  end.

Definition CancelOrder (s : OrderBook) (orderId : OrderId) : OrderBook :=
  match orders_ s !! orderId with
  | None => s
  | Some entry =>
      let order := order entry in
      let location := location entry in
      let s :=
        match side_ order with
        | Buy =>
            let s := with_bids s (subscript greater (price_ order) (bids_ s)) in
            let s := with_bids s (update (price_ order) (list_erase location) (bids_ s)) in
            if is_nil (level (bids_ s) (price_ order))
            then with_bids s (erase (price_ order) (bids_ s)) else s
        | Sell =>
            let s := with_asks s (subscript less (price_ order) (asks_ s)) in
            let s := with_asks s (update (price_ order) (list_erase location) (asks_ s)) in
            if is_nil (level (asks_ s) (price_ order))
            then with_asks s (erase (price_ order) (asks_ s)) else s
        end in
      with_orders s (delete (orderId_ order) (orders_ s))
  end.

(** The body of [while(bids.size() && asks.size())], for the first nodes
    [bid] and [ask] of the levels at [bidPrice] and [askPrice]. *)
Definition match_front (bidPrice askPrice : Price) (bid ask : Node)
    (s : OrderBook) : outcome (OrderBook * Trade) :=
  let quantity :=
    Z.min (remainingQuantity_ (held bid)) (remainingQuantity_ (held ask)) in
  bid' ← Fill quantity (held bid);
  let s := with_bids s (update bidPrice (set_front bid') (bids_ s)) in
  ask' ← Fill quantity (held ask);
  let s := with_asks s (update askPrice (set_front ask') (asks_ s)) in
  let s :=
    if isFilled bid'
    then let s := with_bids s (update bidPrice pop_front (bids_ s)) in
         with_orders s (delete (orderId_ bid') (orders_ s))
    else s in
  let s :=
    if isFilled ask'
    then let s := with_asks s (update askPrice pop_front (asks_ s)) in
         with_orders s (delete (orderId_ ask') (orders_ s))
    else s in
  let s :=
    if is_nil (level (bids_ s) bidPrice)
    then with_bids s (erase bidPrice (bids_ s)) else s in
  let s :=
    if is_nil (level (asks_ s) askPrice)
    then with_asks s (erase askPrice (asks_ s)) else s in
  Returned
    (s, mkTrade (mkTradeInfos (orderId_ bid') (price_ bid') quantity)
                (mkTradeInfos (orderId_ ask') (price_ ask') quantity)).

(** [while(bids.size() && asks.size()) { ... }], where [bids] and [asks] are
    the lists at the keys [bidPrice] and [askPrice]. *)
Fixpoint match_level (fuel : nat) (bidPrice askPrice : Price) (s : OrderBook)
    (trades : Trades) : outcome (OrderBook * Trades) :=
  match level (bids_ s) bidPrice, level (asks_ s) askPrice with
  | bid :: _, ask :: _ =>
      match fuel with
      | O => OutOfFuel
      | S fuel' =>
          '(s', trade) ← match_front bidPrice askPrice bid ask s;
          match_level fuel' bidPrice askPrice s' (trades ++ [trade])
      end
  | _, _ => Returned (s, trades)
  end.

(** [if(!bids.empty()) { ... }] after the inner loop. *)
Definition dispose_bid (bidPrice : Price) (s : OrderBook) : OrderBook :=
  if is_nil (level (bids_ s) bidPrice) then s
  else
    match bids_ s with
    | (_, order :: _) :: _ =>
        let s := with_orders s (delete (orderId_ (held order)) (orders_ s)) in
        if OrderType_eqb (orderType_ (held order)) FillAndKill
        then CancelOrder s (orderId_ (held order))
        else s
    | _ => s
    end.

(** [if(!asks.empty()) { ... }] after the inner loop. *)
Definition dispose_ask (askPrice : Price) (s : OrderBook) : OrderBook :=
  if is_nil (level (asks_ s) askPrice) then s
  else
    match asks_ s with
    | (_, order :: _) :: _ =>
        let s := with_orders s (delete (orderId_ (held order)) (orders_ s)) in
        CancelOrder s (orderId_ (held order))
    | _ => s
    end.

(** One pass of the body of [while(true)]: [None] when the loop breaks. *)
Definition match_pass (s : OrderBook) (trades : Trades)
  : outcome (option (OrderBook * Trades)) :=
  match asks_ s, bids_ s with
  | (askPrice, asks) :: _, (bidPrice, bids) :: _ =>
      if bidPrice <? askPrice then Returned None
      else
        '(s, trades) ←
          match_level (length bids + length asks) bidPrice askPrice s trades;
        let s := dispose_bid bidPrice s in
        let s := dispose_ask askPrice s in
        Returned (Some (s, trades))
  | _, _ => Returned None
  end.

Fixpoint MatchOrders_loop (fuel : nat) (s : OrderBook) (trades : Trades)
  : outcome (OrderBook * Trades) :=
  match fuel with
  | O => OutOfFuel
  | S fuel' =>
      next ← match_pass s trades;
      match next with
      | None => Returned (s, trades)
      | Some (s', trades') => MatchOrders_loop fuel' s' trades'
      end
  end.

Definition MatchOrders (s : OrderBook) : outcome (OrderBook * Trades) :=
  MatchOrders_loop (S (length (bids_ s) + length (asks_ s))) s [].

Definition AddOrder (s : OrderBook) (order : Order)
  : outcome (OrderBook * Trades) :=
  if contains s (orderId_ order) then Returned (s, [])
  else if negb (CanMatch s (side_ order) (price_ order))
          && OrderType_eqb (orderType_ order) FillAndKill
  then Returned (s, [])
  else
    let iterator := fresh_ s in
    let s := with_fresh s (S iterator) in
    let s :=
      match side_ order with
      | Buy =>
          let s := with_bids s (subscript greater (price_ order) (bids_ s)) in
          with_bids s
            (update (price_ order) (push_back (mkNode iterator order)) (bids_ s))
      | Sell =>
          let s := with_asks s (subscript less (price_ order) (asks_ s)) in
          with_asks s
            (update (price_ order) (push_back (mkNode iterator order)) (asks_ s))
      end in
    let s :=
      with_orders s
        (insert_entry (orderId_ order) (mkOrderEntry order iterator) (orders_ s)) in
    MatchOrders s.

Definition ModifyOrder (s : OrderBook) (modify : OrderModify)
  : outcome (OrderBook * Trades) :=
  match orders_ s !! m_orderId_ modify with
  | None => Returned (s, [])
  | Some existing =>
      let existingOrder := order existing in
      let s := CancelOrder s (m_orderId_ modify) in
      '(s, _) ← AddOrder s (ToOrderPointer modify (orderType_ existingOrder));
      MatchOrders s
  end.

End Main.

(** ** The engine of the second source file

    The class is the one of [main.cpp] without [ModifyOrder] and
    [GetLevelInfos], with two differences in [MatchOrders].

    - Where [main.cpp] declares [Quantity quantity = std::min(...)], this
      file declares [auto& quantity = std::min(...)]: a reference to the
      smaller of the two temporaries that the calls of
      [GetRemainingQuantity] return, which are destroyed at the end of the
      declaration.  The two calls of [Fill] and the two [TradeInfos] then
      read [quantity] through a dangling reference.  [dangling q k] is what
      the read number [k] (0 and 1 in the calls of [Fill], 2 and 3 in the
      legs of the trade) yields when the temporary held [q].
    - The two blocks that follow the inner loop end at the comment
      [TODO add the GoodTillCancel check]. *)

Module Part001.

Definition CanMatch (s : OrderBook) (side : Side) (price : Price) : bool :=
  match side with
  | Buy =>
      match asks_ s with
      | [] => false
      | (bestAsks, _) :: _ => price >=? bestAsks
      end
  | Sell =>
      match bids_ s with
      | [] => false
      | (bestBids, _) :: _ => price <=? bestBids
      end
  end.

Definition CancelOrder (s : OrderBook) (orderId : OrderId) : OrderBook :=
  match orders_ s !! orderId with
  | None => s
  | Some entry =>
      let order := order entry in
      let location := location entry in
      let s :=
        match side_ order with
        | Buy =>
            let s := with_bids s (subscript greater (price_ order) (bids_ s)) in
            let s := with_bids s (update (price_ order) (list_erase location) (bids_ s)) in
            if is_nil (level (bids_ s) (price_ order))
            then with_bids s (erase (price_ order) (bids_ s)) else s
        | Sell =>
            let s := with_asks s (subscript less (price_ order) (asks_ s)) in
            let s := with_asks s (update (price_ order) (list_erase location) (asks_ s)) in
            if is_nil (level (asks_ s) (price_ order))
            then with_asks s (erase (price_ order) (asks_ s)) else s
        end in
      with_orders s (delete (orderId_ order) (orders_ s))
  end.

Section Engine.

Variable dangling : Quantity -> nat -> Quantity.

(** With such reads an iteration of the inner loop need not take an order
    out of its list, and the loops have no bound that the book gives: the
    number of iterations that each loop may run is a parameter. *)
Variable fuel : nat.

Definition match_front (bidPrice askPrice : Price) (bid ask : Node)
    (s : OrderBook) : outcome (OrderBook * Trade) :=
  let quantity :=
    dangling
      (Z.min (remainingQuantity_ (held bid)) (remainingQuantity_ (held ask))) in
  bid' ← Fill (quantity 0%nat) (held bid);
  let s := with_bids s (update bidPrice (set_front bid') (bids_ s)) in
  ask' ← Fill (quantity 1%nat) (held ask);
  let s := with_asks s (update askPrice (set_front ask') (asks_ s)) in
  let s :=
    if isFilled bid'
    then let s := with_bids s (update bidPrice pop_front (bids_ s)) in
         with_orders s (delete (orderId_ bid') (orders_ s))
    else s in
  let s :=
    if isFilled ask'
    then let s := with_asks s (update askPrice pop_front (asks_ s)) in
         with_orders s (delete (orderId_ ask') (orders_ s))
    else s in
  let s :=
    if is_nil (level (bids_ s) bidPrice)
    then with_bids s (erase bidPrice (bids_ s)) else s in
  let s :=
    if is_nil (level (asks_ s) askPrice)
    then with_asks s (erase askPrice (asks_ s)) else s in
  Returned
    (s, mkTrade (mkTradeInfos (orderId_ bid') (price_ bid') (quantity 2%nat))
                (mkTradeInfos (orderId_ ask') (price_ ask') (quantity 3%nat))).

Fixpoint match_level (n : nat) (bidPrice askPrice : Price) (s : OrderBook)
    (trades : Trades) : outcome (OrderBook * Trades) :=
  match level (bids_ s) bidPrice, level (asks_ s) askPrice with
  | bid :: _, ask :: _ =>
      match n with
      | O => OutOfFuel
      | S n' =>
          '(s', trade) ← match_front bidPrice askPrice bid ask s;
          match_level n' bidPrice askPrice s' (trades ++ [trade])
      end
  | _, _ => Returned (s, trades)
  end.

Definition dispose_bid (bidPrice : Price) (s : OrderBook) : OrderBook :=
  if is_nil (level (bids_ s) bidPrice) then s
  else
    match bids_ s with
    | (_, order :: _) :: _ =>
        with_orders s (delete (orderId_ (held order)) (orders_ s))
    | _ => s
    end.

Definition dispose_ask (askPrice : Price) (s : OrderBook) : OrderBook :=
  if is_nil (level (asks_ s) askPrice) then s
  else
    match asks_ s with
    | (_, order :: _) :: _ =>
        with_orders s (delete (orderId_ (held order)) (orders_ s))
    | _ => s
    end.

Definition match_pass (s : OrderBook) (trades : Trades)
  : outcome (option (OrderBook * Trades)) :=
  match asks_ s, bids_ s with
  | (askPrice, asks) :: _, (bidPrice, bids) :: _ =>
      if bidPrice <? askPrice then Returned None
      else
        '(s, trades) ← match_level fuel bidPrice askPrice s trades;
        let s := dispose_bid bidPrice s in
        let s := dispose_ask askPrice s in
        Returned (Some (s, trades))
  | _, _ => Returned None
  end.

Fixpoint MatchOrders_loop (n : nat) (s : OrderBook) (trades : Trades)
  : outcome (OrderBook * Trades) :=
  match n with
  | O => OutOfFuel
  | S n' =>
      next ← match_pass s trades;
      match next with
      | None => Returned (s, trades)
      | Some (s', trades') => MatchOrders_loop n' s' trades'
      end
  end.

Definition MatchOrders (s : OrderBook) : outcome (OrderBook * Trades) :=
  MatchOrders_loop fuel s [].

Definition AddOrder (s : OrderBook) (order : Order)
  : outcome (OrderBook * Trades) :=
  if contains s (orderId_ order) then Returned (s, [])
  else if negb (CanMatch s (side_ order) (price_ order))
          && OrderType_eqb (orderType_ order) FillAndKill
  then Returned (s, [])
  else
    let iterator := fresh_ s in
    let s := with_fresh s (S iterator) in
    let s :=
      match side_ order with
      | Buy =>
          let s := with_bids s (subscript greater (price_ order) (bids_ s)) in
          with_bids s
            (update (price_ order) (push_back (mkNode iterator order)) (bids_ s))
      | Sell =>
          let s := with_asks s (subscript less (price_ order) (asks_ s)) in
          with_asks s
            (update (price_ order) (push_back (mkNode iterator order)) (asks_ s))
      end in
    let s :=
      with_orders s
        (insert_entry (orderId_ order) (mkOrderEntry order iterator) (orders_ s)) in
    MatchOrders s.

End Engine.

End Part001.

(** ** The aggregated book of the third source file

    [LimitOrderBook] keeps for each side the volume of every price level in
    a [std::map<Price, Volume>].  [Price] and [Volume] are [std::uint64_t],
    and the sum of [mAddOrder] is reduced modulo [2^64], as the unsigned
    addition of C++ is.  The functions look a level up by its price and
    never iterate, so the two maps are finite maps, and the iterator that
    [mAddOrder] returns is the price of the level it denotes.
    [mDeleteOrder] reads a member [volume] that an iterator of a map does
    not have; the template cannot be instantiated, and is left out. *)

Module Part000.

Definition wrap64 (z : Z) : Z := z mod 2 ^ 64.

Record LimitOrderBook := mkLimitOrderBook {
  bids : gmap Z Z;
  asks : gmap Z Z
}.

Definition empty_book : LimitOrderBook := mkLimitOrderBook ∅ ∅.

Definition mAddOrder (levels : gmap Z Z) (price volume : Z) : gmap Z Z * Z :=
  match levels !! price with
  | None => (<[price := volume]> levels, price)
  | Some present => (<[price := wrap64 (present + volume)]> levels, price)
  end.

Definition AddOrder (b : LimitOrderBook) (side : Side) (price volume : Z)
  : LimitOrderBook :=
  match side with
  | Buy => mkLimitOrderBook (fst (mAddOrder (bids b) price volume)) (asks b)
  | Sell => mkLimitOrderBook (bids b) (fst (mAddOrder (asks b) price volume))
  end.

End Part000.

(** ** Calls and reachable states *)

(** A call of the public interface of [main.cpp].  The caller of [AddOrder]
    passes an order that it has just constructed. *)
Inductive Call :=
| CallAdd (orderId : OrderId) (orderType : OrderType) (quantity : Quantity)
    (price : Price) (side : Side)
| CallCancel (orderId : OrderId)
| CallModify (modify : OrderModify).

Definition call (s : OrderBook) (c : Call) : outcome (OrderBook * Trades) :=
  match c with
  | CallAdd orderId orderType quantity price side =>
      Main.AddOrder s (newOrder orderId orderType quantity price side)
  | CallCancel orderId => Returned (Main.CancelOrder s orderId, [])
  | CallModify modify => Main.ModifyOrder s modify
  end.

(** The quantity that a call submits, if any. *)
Definition call_quantity (c : Call) : option Quantity :=
  match c with
  | CallAdd _ _ quantity _ _ => Some quantity
  | CallCancel _ => None
  | CallModify modify => Some (m_quantity_ modify)
  end.

(** The states that calls satisfying [P] reach from the empty book. *)
Inductive reachable_by (P : Call -> Prop) : OrderBook -> Prop :=
| reachable_empty : reachable_by P empty_book
| reachable_call s c s' trades :
    reachable_by P s -> P c -> call s c = Returned (s', trades) ->
    reachable_by P s'.

Definition reachable : OrderBook -> Prop := reachable_by (fun _ => True).

(** The calls that both engines offer. *)
Inductive BasicCall :=
| BasicAdd (orderId : OrderId) (orderType : OrderType) (quantity : Quantity)
    (price : Price) (side : Side)
| BasicCancel (orderId : OrderId).

Definition main_call (s : OrderBook) (c : BasicCall)
  : outcome (OrderBook * Trades) :=
  match c with
  | BasicAdd orderId orderType quantity price side =>
      Main.AddOrder s (newOrder orderId orderType quantity price side)
  | BasicCancel orderId => Returned (Main.CancelOrder s orderId, [])
  end.

Definition part001_call (dangling : Quantity -> nat -> Quantity) (fuel : nat)
    (s : OrderBook) (c : BasicCall) : outcome (OrderBook * Trades) :=
  match c with
  | BasicAdd orderId orderType quantity price side =>
      Part001.AddOrder dangling fuel s
        (newOrder orderId orderType quantity price side)
  | BasicCancel orderId => Returned (Part001.CancelOrder s orderId, [])
  end.

(** The reads of a reference that yield the value it was bound to. *)
Definition reads_value : Quantity -> nat -> Quantity := fun q _ => q.

(** Scenario A of the design document: the two calls, the book after the
    first, the book in which [AddOrder] has placed the order of the second,
    and the book after the second call in [main.cpp]. *)
Definition scenario_A : list BasicCall :=
  [BasicAdd 1 GoodTillCancel 10 100 Sell; BasicAdd 2 GoodTillCancel 10 100 Buy].

Definition resting_ask_100 : OrderBook :=
  {| bids_ := [];
     asks_ := [(100, [mkNode 0 (newOrder 1 GoodTillCancel 10 100 Sell)])];
     orders_ :=
       {[ 1 := mkOrderEntry (newOrder 1 GoodTillCancel 10 100 Sell) 0%nat ]};
     fresh_ := 1 |}.

Definition scenario_A_crossed : OrderBook :=
  {| bids_ := [(100, [mkNode 1 (newOrder 2 GoodTillCancel 10 100 Buy)])];
     asks_ := [(100, [mkNode 0 (newOrder 1 GoodTillCancel 10 100 Sell)])];
     orders_ :=
       {[ 1 := mkOrderEntry (newOrder 1 GoodTillCancel 10 100 Sell) 0%nat;
          2 := mkOrderEntry (newOrder 2 GoodTillCancel 10 100 Buy) 1%nat ]};
     fresh_ := 2 |}.

Definition scenario_A_end : OrderBook :=
  {| bids_ := []; asks_ := []; orders_ := ∅; fresh_ := 2 |}.

(** A sequence of calls: the final book and the trades that each call
    returned. *)
Fixpoint run {C : Type} (step : OrderBook -> C -> outcome (OrderBook * Trades))
    (s : OrderBook) (calls : list C)
  : outcome (OrderBook * list Trades) :=
  match calls with
  | [] => Returned (s, [])
  | c :: calls' =>
      '(s', trades) ← step s c;
      '(s'', rest) ← run step s' calls';
      Returned (s'', trades :: rest)
  end.

(** ** Measures and invariants of a book *)

Definition nodes (m : Levels) : list Node := concat (map snd m).
Arguments nodes : simpl never.

Definition all_nodes (s : OrderBook) : list Node :=
  nodes (bids_ s) ++ nodes (asks_ s).

Definition level_count (s : OrderBook) : nat :=
  (length (bids_ s) + length (asks_ s))%nat.

Definition total_resting (s : OrderBook) : Z :=
  fold_right (fun n acc => remainingQuantity_ (held n) + acc) 0 (all_nodes s).

(** Every price level of the map has a non-empty list. *)
Definition levels_wf (m : Levels) : Prop :=
  Forall (fun kl => snd kl <> []) m.

Definition book_wf (s : OrderBook) : Prop :=
  levels_wf (bids_ s) /\ levels_wf (asks_ s).

(** The number of nodes of the book that hold an order of identifier [id]. *)
Definition queued (s : OrderBook) (id : OrderId) : nat :=
  length (filter (fun n => orderId_ (held n) = id) (all_nodes s)).

Definition in_index (s : OrderBook) (id : OrderId) : Prop :=
  is_Some (orders_ s !! id).

(** * Vocabulary of the statements *)

(** The order after a fill that does not throw. *)
Definition filled_by (quantity : Quantity) (o : Order) : Order :=
  {| orderId_ := orderId_ o; orderType_ := orderType_ o;
     initialQuantity_ := initialQuantity_ o;
     remainingQuantity_ := wrap32 (remainingQuantity_ o - quantity);
     price_ := price_ o; side_ := side_ o |}.

(** What the step does to the side whose first order became [o']. *)
Definition front_after (k : Price) (o' : Order) (m : Levels) : Levels :=
  let m := update k (set_front o') m in
  let m := if isFilled o' then update k pop_front m else m in
  if is_nil (level m k) then erase k m else m.

Definition index_after (o' : Order) (idx : gmap Z OrderEntry)
  : gmap Z OrderEntry :=
  if isFilled o' then delete (orderId_ o') idx else idx.

Definition trade_of (quantity : Quantity) (bid ask : Order) : Trade :=
  mkTrade (mkTradeInfos (orderId_ bid) (price_ bid) quantity)
          (mkTradeInfos (orderId_ ask) (price_ ask) quantity).

(** The runs of [while(bids.size() && asks.size())] as a relation between
    the state at the entry of the loop and the state at its exit. *)
Inductive inner_run (bidPrice askPrice : Price)
  : OrderBook -> Trades -> OrderBook -> Trades -> Prop :=
| inner_exit s trades :
    level (bids_ s) bidPrice = [] \/ level (asks_ s) askPrice = [] ->
    inner_run bidPrice askPrice s trades s trades
| inner_iter s trades bid bids ask asks s1 trade s' trades' :
    level (bids_ s) bidPrice = bid :: bids ->
    level (asks_ s) askPrice = ask :: asks ->
    Main.match_front bidPrice askPrice bid ask s = Returned (s1, trade) ->
    inner_run bidPrice askPrice s1 (trades ++ [trade]) s' trades' ->
    inner_run bidPrice askPrice s trades s' trades'.

(** A book with an empty price level is not one the calls produce: on this
    one the blocks after the inner loop change nothing and the outer loop
    does not end. *)
Definition empty_level_book : OrderBook :=
  {| bids_ := [(100, [])];
     asks_ := [(100, [mkNode 0 (newOrder 1 GoodTillCancel 5 100 Sell)])];
     orders_ := ∅;
     fresh_ := 1 |}.

(** The book after [AddOrder] has placed the order, before it matches. *)
Definition place (s : OrderBook) (order : Order) : OrderBook :=
  let iterator := fresh_ s in
  let s := with_fresh s (S iterator) in
  let s :=
    match side_ order with
    | Buy =>
        let s := with_bids s (subscript greater (price_ order) (bids_ s)) in
        with_bids s
          (update (price_ order) (push_back (mkNode iterator order)) (bids_ s))
    | Sell =>
        let s := with_asks s (subscript less (price_ order) (asks_ s)) in
        with_asks s
          (update (price_ order) (push_back (mkNode iterator order)) (asks_ s))
    end in
  with_orders s
    (insert_entry (orderId_ order) (mkOrderEntry order iterator) (orders_ s)).

Definition rejects (s : OrderBook) (order : Order) : bool :=
  contains s (orderId_ order)
  || negb (Main.CanMatch s (side_ order) (price_ order))
     && OrderType_eqb (orderType_ order) FillAndKill.

Definition order_ok (o : Order) : Prop :=
  0 <= remainingQuantity_ o <= initialQuantity_ o /\ initialQuantity_ o < 2 ^ 31.

Definition nodes_ok (s : OrderBook) : Prop :=
  Forall (fun n => order_ok (held n)) (all_nodes s).

(** No two nodes of the book share an address, and [fresh_] is above all. *)
Definition locs_ok (s : OrderBook) : Prop :=
  NoDup (self <$> all_nodes s) /\
  Forall (fun n => (self n < fresh_ s)%nat) (all_nodes s).

(** The nodes of [l'] are nodes of [l], with the initial quantity they had
    and a remaining quantity that is not larger. *)
Definition descends (l l' : list Node) : Prop :=
  forall n', n' ∈ l' ->
  exists n, n ∈ l /\ self n = self n' /\
    initialQuantity_ (held n') = initialQuantity_ (held n) /\
    remainingQuantity_ (held n') <= remainingQuantity_ (held n).

(** The calls whose quantity is a non-negative [std::int32_t]. *)
Definition quantity_ok (c : Call) : Prop :=
  forall q, call_quantity c = Some q -> 0 <= q < 2 ^ 31.

Definition keys (m : Levels) : list Price := map fst m.

(** The keys of the map are in the strict order of its comparison. *)
Definition ordered (before : Price -> Price -> bool) (m : Levels) : Prop :=
  StronglySorted (fun a b => before a b = true) (keys m).

Definition book_ordered (s : OrderBook) : Prop :=
  ordered greater (bids_ s) /\ ordered less (asks_ s).

(** The condition on which the outer loop breaks. *)
Definition uncrossed (s : OrderBook) : Prop :=
  match asks_ s, bids_ s with
  | (askPrice, _) :: _, (bidPrice, _) :: _ => bidPrice < askPrice
  | _, _ => True
  end.

Definition best_bid (s : OrderBook) : option Price :=
  match bids_ s with
  | [] => None
  | (p, _) :: _ => Some p
  end.

Definition best_ask (s : OrderBook) : option Price :=
  match asks_ s with
  | [] => None
  | (p, _) :: _ => Some p
  end.

(** The price of an order crosses the best price of the opposite side: for
    a buy, best ask <= price; for a sell, best bid >= price. *)
Definition crosses (s : OrderBook) (side : Side) (p : Price) : Prop :=
  match side with
  | Buy => exists a, best_ask s = Some a /\ a <= p
  | Sell => exists b, best_bid s = Some b /\ b >= p
  end.

Definition resting_ask_105 : OrderBook :=
  {| bids_ := [];
     asks_ := [(105, [mkNode 0 (newOrder 1 GoodTillCancel 5 105 Sell)])];
     orders_ := {[ 1 := mkOrderEntry (newOrder 1 GoodTillCancel 5 105 Sell) 0%nat ]};
     fresh_ := 1 |}.

(** The book of Scenario B after the buy order has been placed and before
    it is matched. *)
Definition crossed_book : OrderBook :=
  {| bids_ := [(101, [mkNode 1 (newOrder 2 GoodTillCancel 10 101 Buy)])];
     asks_ := [(100, [mkNode 0 (newOrder 1 GoodTillCancel 5 100 Sell)])];
     orders_ :=
       {[ 1 := mkOrderEntry (newOrder 1 GoodTillCancel 5 100 Sell) 0%nat;
          2 := mkOrderEntry (newOrder 2 GoodTillCancel 10 101 Buy) 1%nat ]};
     fresh_ := 2 |}.

(** No node of [s'] holds more than the node of [s] at the same address. *)
Definition never_grows (s s' : OrderBook) : Prop :=
  forall n n',
    n ∈ all_nodes s -> n' ∈ all_nodes s' -> self n' = self n ->
    initialQuantity_ (held n') = initialQuantity_ (held n) /\
    remainingQuantity_ (held n') <= remainingQuantity_ (held n).

(** The book that Scenario B ends in. *)
Definition scenario_B_book : OrderBook :=
  {| bids_ := [(101, [mkNode 1 (mkOrder 2 GoodTillCancel 10 5 101 Buy)])];
     asks_ := [];
     orders_ := ∅;
     fresh_ := 2 |}.

(** What [CancelOrder] does to the map of the order's side. *)
Definition erase_node (before : Price -> Price -> bool) (p : Price) (it : Loc)
    (m : Levels) : Levels :=
  let m := update p (list_erase it) (subscript before p m) in
  if is_nil (level m p) then erase p m else m.

(** The map of a side. *)
Definition side_levels (s : OrderBook) (side : Side) : Levels :=
  match side with
  | Buy => bids_ s
  | Sell => asks_ s
  end.

(** Two states of one order: they agree on the members that [Fill] does
    not write. *)
Definition same_order (a b : Order) : Prop :=
  orderId_ a = orderId_ b /\ orderType_ a = orderType_ b /\
  initialQuantity_ a = initialQuantity_ b /\
  price_ a = price_ b /\ side_ a = side_ b.

(** The entry that the index holds for [id] is the entry of an order of
    that identifier, and its iterator denotes a node of the list of the
    order's side and price that points to this order. *)
Definition entry_sound (s : OrderBook) (id : OrderId) (e : OrderEntry) : Prop :=
  orderId_ (order e) = id /\
  exists n,
    n ∈ level (side_levels s (side_ (order e))) (price_ (order e)) /\
    self n = location e /\ same_order (held n) (order e).

Definition index_sound (s : OrderBook) : Prop :=
  forall id e, orders_ s !! id = Some e -> entry_sound s id e.

(** Every node of the map of a side is listed under the price of its order,
    and its order is of that side. *)
Definition node_keyed (side : Side) (k : Price) (n : Node) : Prop :=
  price_ (held n) = k /\ side_ (held n) = side.

Definition levels_keyed (side : Side) (m : Levels) : Prop :=
  Forall (fun kl => Forall (node_keyed side (fst kl)) (snd kl)) m.

Definition book_keyed (s : OrderBook) : Prop :=
  levels_keyed Buy (bids_ s) /\ levels_keyed Sell (asks_ s).

(** The quantity of a trade, and the quantity that a list of trades
    executes. *)
Definition trade_quantity (t : Trade) : Quantity := quantity (bidTrade_ t).

Definition traded (trades : Trades) : Z :=
  fold_right (fun t acc => trade_quantity t + acc) 0 trades.

Definition sum_remaining (l : list Node) : Z :=
  fold_right (fun n acc => remainingQuantity_ (held n) + acc) 0 l.

(** A trade of the order [o]: both legs carry one quantity, the leg of the
    side of [o] names [o] at its limit price, and the price of the other leg
    is not beyond that limit. *)
Definition trade_for (o : Order) (t : Trade) : Prop :=
  quantity (askTrade_ t) = quantity (bidTrade_ t) /\
  match side_ o with
  | Buy =>
      orderId (bidTrade_ t) = orderId_ o /\ price (bidTrade_ t) = price_ o /\
      price (askTrade_ t) <= price_ o
  | Sell =>
      orderId (askTrade_ t) = orderId_ o /\ price (askTrade_ t) = price_ o /\
      price_ o <= price (bidTrade_ t)
  end.

(** But for the node at the address [a], every bid of the book is priced
    below every ask. *)
Definition apart_from (a : nat) (s : OrderBook) : Prop :=
  forall nb na, nb ∈ nodes (bids_ s) -> na ∈ nodes (asks_ s) ->
    self nb <> a -> self na <> a -> price_ (held nb) < price_ (held na).

(** The node at the address [a], if the book has it, holds the order [o]. *)
Definition tracks (a : nat) (o : Order) (s : OrderBook) : Prop :=
  forall n, n ∈ all_nodes s -> self n = a -> same_order (held n) o.

(** What the matching loop keeps while it matches the order [o] that
    [AddOrder] has put at the address [a]. *)
Definition matching (a : nat) (o : Order) (s : OrderBook) (trades : Trades)
  : Prop :=
  book_ordered s /\ book_keyed s /\ NoDup (self <$> all_nodes s) /\
  apart_from a s /\ tracks a o s /\ Forall (trade_for o) trades.

(** The same with the quantities: the node at [a] holds what the trades
    have left of the quantity [q], and is in the book until they have
    executed [q]. *)
Definition matching_quantity (a : nat) (o : Order) (q : Quantity)
    (s : OrderBook) (trades : Trades) : Prop :=
  matching a o s trades /\ nodes_ok s /\ 0 <= traded trades /\
  (forall n, n ∈ all_nodes s -> self n = a ->
             remainingQuantity_ (held n) = q - traded trades) /\
  ((exists n, n ∈ all_nodes s /\ self n = a) \/ traded trades = q).

Definition trade_pos (t : Trade) : Prop :=
  0 < quantity (bidTrade_ t) /\ 0 < quantity (askTrade_ t).

(** The calls whose quantity is a positive [std::int32_t]. *)
Definition quantity_pos (c : Call) : Prop :=
  forall q, call_quantity c = Some q -> 0 < q < 2 ^ 31.

Definition order_pos (o : Order) : Prop :=
  0 < remainingQuantity_ o <= initialQuantity_ o /\ initialQuantity_ o < 2 ^ 31.

Definition nodes_pos (s : OrderBook) : Prop :=
  Forall (fun n => order_pos (held n)) (all_nodes s).

(** A book in which a sell of 5 rests at 105 and a buy of 3 at 100. *)
Definition two_sided_book : OrderBook :=
  {| bids_ := [(100, [mkNode 1 (newOrder 2 GoodTillCancel 3 100 Buy)])];
     asks_ := [(105, [mkNode 0 (newOrder 1 GoodTillCancel 5 105 Sell)])];
     orders_ :=
       {[ 1 := mkOrderEntry (newOrder 1 GoodTillCancel 5 105 Sell) 0%nat;
          2 := mkOrderEntry (newOrder 2 GoodTillCancel 3 100 Buy) 1%nat ]};
     fresh_ := 2 |}.

Definition two_sided_calls : list Call :=
  [CallAdd 1 GoodTillCancel 5 105 Sell; CallAdd 2 GoodTillCancel 3 100 Buy].

(** A book with two sells at 105, a sell at 106 and a buy at 100. *)
Definition deep_calls : list Call :=
  [CallAdd 1 GoodTillCancel 5 105 Sell; CallAdd 2 GoodTillCancel 4 105 Sell;
   CallAdd 3 GoodTillCancel 6 106 Sell; CallAdd 4 GoodTillCancel 3 100 Buy].

Definition deep_book : OrderBook :=
  {| bids_ := [(100, [mkNode 3 (newOrder 4 GoodTillCancel 3 100 Buy)])];
     asks_ := [(105, [mkNode 0 (newOrder 1 GoodTillCancel 5 105 Sell);
                      mkNode 1 (newOrder 2 GoodTillCancel 4 105 Sell)]);
               (106, [mkNode 2 (newOrder 3 GoodTillCancel 6 106 Sell)])];
     orders_ :=
       {[ 1 := mkOrderEntry (newOrder 1 GoodTillCancel 5 105 Sell) 0%nat;
          2 := mkOrderEntry (newOrder 2 GoodTillCancel 4 105 Sell) 1%nat;
          3 := mkOrderEntry (newOrder 3 GoodTillCancel 6 106 Sell) 2%nat;
          4 := mkOrderEntry (newOrder 4 GoodTillCancel 3 100 Buy) 3%nat ]};
     fresh_ := 4 |}.

(** Every order of the index is GoodTillCancel. *)
Definition indexed_GoodTillCancel (s : OrderBook) : Prop :=
  forall id e, orders_ s !! id = Some e -> orderType_ (order e) = GoodTillCancel.

(** The identifier is not in the index, or it is the identifier of the
    first order of the first level of the side [sd], whose price is [k]. *)
Definition gone_or_first (sd : Side) (k : Price) (id : OrderId)
    (s : OrderBook) : Prop :=
  orders_ s !! id = None \/
  exists n l m, side_levels s sd = (k, n :: l) :: m /\ orderId_ (held n) = id.

(** Addresses are drawn from [fresh_] in the order in which [AddOrder]
    accepts the orders, so a node is older than another when its address is
    smaller.  The nodes of [l] are in the order of their arrival, oldest
    first, and their addresses are below [b]. *)
Definition aged_below (b : nat) (l : list Node) : Prop :=
  StronglySorted lt (self <$> l) /\ Forall (fun n => (self n < b)%nat) l.

Definition levels_aged (b : nat) (m : Levels) : Prop :=
  Forall (fun kl => aged_below b (snd kl)) m.

Definition book_aged (s : OrderBook) : Prop :=
  levels_aged (fresh_ s) (bids_ s) /\ levels_aged (fresh_ s) (asks_ s).

(** The side that an order of the side [sd] trades with, and the leg of a
    trade that names the order of that side. *)
Definition opposite (sd : Side) : Side :=
  match sd with
  | Buy => Sell
  | Sell => Buy
  end.

Definition counter_leg (sd : Side) (t : Trade) : TradeInfos :=
  match sd with
  | Buy => askTrade_ t
  | Sell => bidTrade_ t
  end.

(** The trade [t] of an order of the side [sd] executes a part of what is
    left of the order at the node [n], at the price of that order; and it
    executes all that is left of it. *)
Definition trade_against (sd : Side) (t : Trade) (n : Node) : Prop :=
  orderId (counter_leg sd t) = orderId_ (held n) /\
  price (counter_leg sd t) = price_ (held n) /\
  0 <= quantity (counter_leg sd t) <= remainingQuantity_ (held n).

Definition trade_exhausts (sd : Side) (t : Trade) (n : Node) : Prop :=
  trade_against sd t n /\
  quantity (counter_leg sd t) = remainingQuantity_ (held n).

(** How far the matching loop has come in [queue], the nodes that the other
    side had when [AddOrder] placed its order of the side [sd] at the
    address [a]: either the trades have exhausted a prefix of [queue] and
    the other side holds the rest, or the last trade has filled the order
    at [a], which has left the book, and the trades before it have
    exhausted the nodes before the one that it executed against. *)
Definition priority (a : nat) (sd : Side) (queue : list Node) (s : OrderBook)
    (trades : Trades) : Prop :=
  (exists matched,
      queue = matched ++ nodes (side_levels s (opposite sd)) /\
      Forall2 (trade_exhausts sd) trades matched) \/
  ((forall n, n ∈ all_nodes s -> self n <> a) /\
   exists matched rest trades0 t n,
     trades = trades0 ++ [t] /\ queue = matched ++ n :: rest /\
     Forall2 (trade_exhausts sd) trades0 matched /\ trade_against sd t n).

Definition matching_priority (a : nat) (o : Order) (q : Quantity)
    (queue : list Node) (s : OrderBook) (trades : Trades) : Prop :=
  matching_quantity a o q s trades /\ priority a (side_ o) queue s trades.

(** The book of the third source file after a list of [AddOrder] calls,
    each given by its side, price and volume; the levels of a side; and
    the volumes that the calls add to the level of price [p] of the side
    [sd], in the order of the calls. *)
Definition add_all (calls : list (Side * Z * Z)) (b : Part000.LimitOrderBook)
  : Part000.LimitOrderBook :=
  fold_left (fun b c => Part000.AddOrder b (fst (fst c)) (snd (fst c)) (snd c))
            calls b.

Definition side_volumes (b : Part000.LimitOrderBook) (sd : Side) : gmap Z Z :=
  match sd with
  | Buy => Part000.bids b
  | Sell => Part000.asks b
  end.

Definition Side_eqb (a b : Side) : bool :=
  match a, b with
  | Buy, Buy | Sell, Sell => true
  | _, _ => false
  end.

Definition added (sd : Side) (p : Z) (calls : list (Side * Z * Z)) : list Z :=
  map snd
    (List.filter (fun c => Side_eqb (fst (fst c)) sd && (snd (fst c) =? p))
                 calls).

Definition uint64 (z : Z) : Prop := 0 <= z < 2 ^ 64.

(** * Properties *)

(** ** The 32-bit range *)

Lemma wrap32_int32 z : int32 z -> wrap32 z = z.
Proof.
  unfold int32, wrap32. intros Hz.
  rewrite Z.mod_small; lia.
Qed.

Lemma wrap32_0 : wrap32 0 = 0.
Proof. reflexivity. Qed.

(** ** Price-level maps *)

Section LevelMaps.

Implicit Types (m : list (Z * list Node)) (k : Z).
Implicit Types (f g : list Node -> list Node).

Lemma level_absent m k : contains_level m k = false -> level m k = [].
Proof.
  induction m as [|[k' l] m IH]; simpl; [done|].
  destruct (k' =? k); simpl; [done|exact IH].
Qed.

Lemma level_update m k f :
  f [] = [] -> level (update k f m) k = f (level m k).
Proof.
  intros Hf. induction m as [|[k' l] m IH]; simpl; [done|].
  destruct (k' =? k) eqn:E; simpl; rewrite E; [done|exact IH].
Qed.

Lemma level_erase m k : level (erase k m) k = [].
Proof.
  induction m as [|[k' l] m IH]; simpl; [done|].
  destruct (k' =? k) eqn:E; simpl; [done|]. by rewrite E.
Qed.

Lemma erase_update m k f : erase k (update k f m) = erase k m.
Proof.
  induction m as [|[k' l] m IH]; simpl; [done|].
  destruct (k' =? k) eqn:E; simpl; rewrite E; [done|]. by rewrite IH.
Qed.

Lemma erase_erase m k : erase k (erase k m) = erase k m.
Proof.
  induction m as [|[k' l] m IH]; simpl; [done|].
  destruct (k' =? k) eqn:E; simpl; [done|]. by rewrite E, IH.
Qed.

Lemma erase_absent m k : contains_level m k = false -> erase k m = m.
Proof.
  induction m as [|[k' l] m IH]; simpl; [done|].
  destruct (k' =? k); simpl; [done|]. intros H. by rewrite IH.
Qed.

Lemma length_update m k f : length (update k f m) = length m.
Proof.
  induction m as [|[k' l] m IH]; simpl; [done|].
  destruct (k' =? k); simpl; [done|]. by rewrite IH.
Qed.

Lemma length_erase_le m k : (length (erase k m) <= length m)%nat.
Proof.
  induction m as [|[k' l] m IH]; simpl; [done|].
  destruct (k' =? k); simpl; lia.
Qed.

Lemma length_erase_lt m k :
  contains_level m k = true -> (length (erase k m) < length m)%nat.
Proof.
  induction m as [|[k' l] m IH]; simpl; [done|].
  destruct (k' =? k); simpl.
  - intros _. pose proof (length_erase_le m k). lia.
  - intros H. specialize (IH H). lia.
Qed.

Lemma update_update m k f g :
  update k f (update k g m) = update k (fun l => f (g l)) m.
Proof.
  induction m as [|[k' l] m IH]; simpl; [done|].
  destruct (k' =? k) eqn:E; simpl; rewrite E; [done|]. by rewrite IH.
Qed.

(** Well-formedness is kept by the writes of the engine. *)

Lemma levels_wf_erase_update m k f :
  levels_wf m -> levels_wf (erase k (update k f m)).
Proof.
  rewrite erase_update. unfold levels_wf.
  induction m as [|[k' l] m IH]; simpl; [done|].
  intros H. apply Forall_cons in H as [H1 H2].
  destruct (k' =? k); [by apply IH|]. apply Forall_cons; auto.
Qed.

Lemma levels_wf_update m k f :
  levels_wf m -> level (update k f m) k <> [] -> levels_wf (update k f m).
Proof.
  unfold levels_wf.
  induction m as [|[k' l] m IH]; simpl; [done|].
  intros H. apply Forall_cons in H as [H1 H2].
  destruct (k' =? k) eqn:E; simpl; rewrite E; intros Hne.
  - apply Forall_cons; auto.
  - apply Forall_cons; auto.
Qed.

Lemma levels_wf_erase_subscript before m k f :
  levels_wf m -> levels_wf (erase k (update k f (subscript before k m))).
Proof.
  rewrite erase_update. unfold levels_wf.
  induction m as [|[k' l] m IH]; simpl.
  - by rewrite Z.eqb_refl.
  - intros H. pose proof H as H0. apply Forall_cons in H as [H1 H2].
    destruct (k' =? k) eqn:E; simpl; rewrite ?E.
    + clear IH H0. induction m as [|[k0 l0] m IH]; simpl; [done|].
      apply Forall_cons in H2 as [H3 H4].
      destruct (k0 =? k); [by apply IH|]. apply Forall_cons; auto.
    + destruct (before k k'); simpl; rewrite ?Z.eqb_refl, ?E.
      * apply Forall_cons; split; [done|].
        clear IH H0. induction m as [|[k0 l0] m IH]; simpl; [done|].
        apply Forall_cons in H2 as [H3 H4].
        destruct (k0 =? k); [by apply IH|]. apply Forall_cons; auto.
      * apply Forall_cons; auto.
Qed.

Lemma levels_wf_update_subscript before m k f :
  f [] = [] -> levels_wf m ->
  level (update k f (subscript before k m)) k <> [] ->
  levels_wf (update k f (subscript before k m)).
Proof.
  intros Hf. unfold levels_wf.
  induction m as [|[k' l] m IH]; simpl.
  - rewrite !Z.eqb_refl. simpl. rewrite Z.eqb_refl, Hf. done.
  - intros H. apply Forall_cons in H as [H1 H2].
    destruct (k' =? k) eqn:E; simpl; rewrite ?E.
    + simpl. rewrite E. intros Hne. apply Forall_cons; auto.
    + destruct (before k k'); simpl; rewrite ?Z.eqb_refl, ?E; simpl;
        rewrite ?Z.eqb_refl, ?E, ?Hf; [done|].
      intros Hne. apply Forall_cons; auto.
Qed.

Lemma levels_wf_push_back before m k n :
  levels_wf m -> levels_wf (update k (push_back n) (subscript before k m)).
Proof.
  unfold levels_wf, push_back.
  induction m as [|[k' l] m IH]; simpl.
  - rewrite !Z.eqb_refl. intros _. apply Forall_cons; split; [|done].
    simpl. done.
  - intros H. apply Forall_cons in H as [H1 H2].
    destruct (k' =? k) eqn:E; simpl; rewrite ?E.
    + apply Forall_cons; split; [|done]. simpl. by destruct l.
    + destruct (before k k'); simpl; rewrite ?Z.eqb_refl, ?E.
      * apply Forall_cons; split; [done|]. apply Forall_cons; auto.
      * apply Forall_cons; auto.
Qed.

Lemma levels_wf_level_nil m k :
  levels_wf m -> level m k = [] -> contains_level m k = false.
Proof.
  unfold levels_wf.
  induction m as [|[k' l] m IH]; simpl; [done|].
  intros H. apply Forall_cons in H as [H1 H2].
  destruct (k' =? k); simpl; [done|]. by apply IH.
Qed.

Lemma level_update_ne m k k' f :
  k <> k' -> level (update k f m) k' = level m k'.
Proof.
  intros Hne. induction m as [|[k0 l] m IH]; simpl; [done|].
  destruct (Z.eqb_spec k0 k) as [->|]; simpl.
  - by destruct (Z.eqb_spec k k').
  - by rewrite IH.
Qed.

Lemma level_erase_ne m k k' :
  k <> k' -> level (erase k m) k' = level m k'.
Proof.
  intros Hne. induction m as [|[k0 l] m IH]; simpl; [done|].
  destruct (Z.eqb_spec k0 k) as [->|]; simpl.
  - by destruct (Z.eqb_spec k k').
  - by rewrite IH.
Qed.

Lemma level_subscript_ne before m k k' :
  k <> k' -> level (subscript before k m) k' = level m k'.
Proof.
  intros Hne. induction m as [|[k0 l] m IH]; simpl.
  - by destruct (Z.eqb_spec k k').
  - destruct (k0 =? k); [done|]. destruct (before k k0); simpl.
    + by destruct (Z.eqb_spec k k').
    + by rewrite IH.
Qed.

End LevelMaps.

(** ** One step of the inner loop *)

Lemma Fill_le quantity o :
  quantity <= remainingQuantity_ o -> Fill quantity o = Returned (filled_by quantity o).
Proof.
  intros H. unfold Fill.
  destruct (quantity >? remainingQuantity_ o) eqn:E; [lia|done].
Qed.

Lemma match_front_eq bidPrice askPrice bid ask s :
  let quantity :=
    Z.min (remainingQuantity_ (held bid)) (remainingQuantity_ (held ask)) in
  let bid' := filled_by quantity (held bid) in
  let ask' := filled_by quantity (held ask) in
  Main.match_front bidPrice askPrice bid ask s =
  Returned
    ({| bids_ := front_after bidPrice bid' (bids_ s);
        asks_ := front_after askPrice ask' (asks_ s);
        orders_ := index_after ask' (index_after bid' (orders_ s));
        fresh_ := fresh_ s |},
     trade_of quantity (held bid) (held ask)).
Proof.
  intros quantity bid' ask'. unfold Main.match_front.
  fold quantity.
  rewrite (Fill_le quantity (held bid)) by apply Z.le_min_l.
  rewrite (Fill_le quantity (held ask)) by apply Z.le_min_r.
  fold bid' ask'. unfold front_after, index_after, trade_of.
  simpl.
  destruct (isFilled bid'), (isFilled ask'); simpl;
    destruct (is_nil (level _ bidPrice)), (is_nil (level _ askPrice));
    reflexivity.
Qed.

(** The order that holds the smaller remaining quantity is filled. *)
Lemma one_is_filled (bid ask : Order) :
  let quantity := Z.min (remainingQuantity_ bid) (remainingQuantity_ ask) in
  isFilled (filled_by quantity bid) = true \/
  isFilled (filled_by quantity ask) = true.
Proof.
  intros quantity. unfold isFilled, filled_by; simpl.
  destruct (Z.le_ge_cases (remainingQuantity_ bid) (remainingQuantity_ ask)).
  - left. subst quantity. rewrite Z.min_l by done.
    by rewrite Z.sub_diag, wrap32_0.
  - right. subst quantity. rewrite Z.min_r by done.
    by rewrite Z.sub_diag, wrap32_0.
Qed.

Section FrontAfter.

Implicit Types (m : list (Z * list Node)) (k : Z).

Lemma level_front_after m k (o' : Order) n l :
  level m k = n :: l ->
  level (front_after k o' m) k =
  if isFilled o' then l else mkNode (self n) o' :: l.
Proof.
  intros Hl. unfold front_after. cbv zeta.
  destruct (isFilled o').
  - rewrite update_update.
    rewrite (level_update m k) by done. rewrite Hl. simpl.
    destruct l; simpl; [by rewrite level_erase|].
    rewrite (level_update m k) by done. by rewrite Hl.
  - rewrite (level_update m k) by done. rewrite Hl. simpl.
    rewrite (level_update m k) by done. by rewrite Hl.
Qed.

Lemma levels_wf_front_after m k (o' : Order) :
  levels_wf m -> levels_wf (front_after k o' m).
Proof.
  intros Hwf. unfold front_after. cbv zeta.
  destruct (isFilled o').
  - rewrite update_update.
    destruct (is_nil _) eqn:E.
    + by apply levels_wf_erase_update.
    + apply levels_wf_update; [done|]. intros H. by rewrite H in E.
  - destruct (is_nil _) eqn:E.
    + by apply levels_wf_erase_update.
    + apply levels_wf_update; [done|]. intros H. by rewrite H in E.
Qed.

Lemma erase_front_after m k (o' : Order) :
  erase k (front_after k o' m) = erase k m.
Proof.
  unfold front_after. cbv zeta.
  destruct (isFilled o'); destruct (is_nil _);
    rewrite ?erase_erase, ?erase_update; done.
Qed.

Lemma length_front_after m k (o' : Order) :
  (length (front_after k o' m) <= length m)%nat.
Proof.
  unfold front_after. cbv zeta.
  destruct (isFilled o'); destruct (is_nil _);
    rewrite ?length_update;
    try (etrans; [apply length_erase_le|]); rewrite ?length_update; done.
Qed.

Lemma level_front_after_ne m k k' (o' : Order) :
  k <> k' -> level (front_after k o' m) k' = level m k'.
Proof.
  intros Hne. unfold front_after. cbv zeta.
  destruct (isFilled o'); destruct (is_nil _);
    by rewrite ?level_erase_ne, ?level_update_ne.
Qed.

End FrontAfter.

(** ** The inner loop *)

Lemma match_level_run fuel bidPrice askPrice s trades s' trades' :
  Main.match_level fuel bidPrice askPrice s trades = Returned (s', trades') ->
  inner_run bidPrice askPrice s trades s' trades'.
Proof.
  revert s trades. induction fuel as [|fuel IH]; intros s trades; simpl.
  - destruct (level (bids_ s) bidPrice) as [|bid bids] eqn:Eb.
    { intros [= <- <-]. apply inner_exit; auto. }
    destruct (level (asks_ s) askPrice) as [|ask asks] eqn:Ea.
    { intros [= <- <-]. apply inner_exit; auto. }
    done.
  - destruct (level (bids_ s) bidPrice) as [|bid bids] eqn:Eb.
    { intros [= <- <-]. apply inner_exit; auto. }
    destruct (level (asks_ s) askPrice) as [|ask asks] eqn:Ea.
    { intros [= <- <-]. apply inner_exit; auto. }
    destruct (Main.match_front bidPrice askPrice bid ask s) as [[s1 trade]| |] eqn:Em;
      simpl; [|done|done].
    intros H. eapply inner_iter; eauto.
Qed.

(** Each iteration removes a node from one of the two lists, so the fuel that
    [match_pass] provides is never used up. *)
Lemma match_level_returns fuel bidPrice askPrice s trades :
  (length (level (bids_ s) bidPrice) + length (level (asks_ s) askPrice)
   <= fuel)%nat ->
  exists s' trades',
    Main.match_level fuel bidPrice askPrice s trades = Returned (s', trades').
Proof.
  revert s trades. induction fuel as [|fuel IH]; intros s trades Hlen; simpl.
  - destruct (level (bids_ s) bidPrice) as [|bid bids] eqn:Eb; [eauto|].
    destruct (level (asks_ s) askPrice) as [|ask asks] eqn:Ea; [eauto|].
    simpl in Hlen. lia.
  - destruct (level (bids_ s) bidPrice) as [|bid bids] eqn:Eb; [eauto|].
    destruct (level (asks_ s) askPrice) as [|ask asks] eqn:Ea; [eauto|].
    rewrite match_front_eq. simpl.
    apply IH. simpl.
    rewrite (level_front_after _ _ _ _ _ Eb), (level_front_after _ _ _ _ _ Ea).
    simpl in Hlen.
    destruct (one_is_filled (held bid) (held ask)) as [H|H]; rewrite H.
    + destruct (isFilled (filled_by _ (held ask))); simpl; lia.
    + destruct (isFilled (filled_by _ (held bid))); simpl; lia.
Qed.

(** Fuel beyond what a run needs does not change its result. *)
Lemma match_level_fuel_mono fuel fuel' bidPrice askPrice s trades r :
  Main.match_level fuel bidPrice askPrice s trades = Returned r ->
  (fuel <= fuel')%nat ->
  Main.match_level fuel' bidPrice askPrice s trades = Returned r.
Proof.
  revert fuel' s trades. induction fuel as [|fuel IH]; intros fuel' s trades; simpl.
  - destruct (level (bids_ s) bidPrice) as [|bid bids] eqn:Eb.
    { intros H _. destruct fuel'; simpl; by rewrite Eb. }
    destruct (level (asks_ s) askPrice) as [|ask asks] eqn:Ea; [|done].
    intros H _. destruct fuel'; simpl; by rewrite Eb, Ea.
  - destruct (level (bids_ s) bidPrice) as [|bid bids] eqn:Eb.
    { intros H _. destruct fuel'; simpl; by rewrite Eb. }
    destruct (level (asks_ s) askPrice) as [|ask asks] eqn:Ea.
    { intros H _. destruct fuel'; simpl; by rewrite Eb, Ea. }
    intros H Hle. destruct fuel' as [|fuel']; [lia|]. simpl.
    rewrite Eb, Ea.
    destruct (Main.match_front bidPrice askPrice bid ask s) as [[s1 trade]| |];
      simpl in *; [|done|done].
    apply IH; [done|lia].
Qed.

Section InnerRun.

Variables bidPrice askPrice : Price.

Lemma inner_run_exit s trades s' trades' :
  inner_run bidPrice askPrice s trades s' trades' ->
  level (bids_ s') bidPrice = [] \/ level (asks_ s') askPrice = [].
Proof. induction 1; auto. Qed.

Lemma inner_run_wf s trades s' trades' :
  inner_run bidPrice askPrice s trades s' trades' ->
  book_wf s -> book_wf s'.
Proof.
  induction 1 as [|s trades bid bids ask asks s1 trade s' trades' Hb Ha Hm _ IH];
    [done|].
  intros [Hwb Hwa]. apply IH.
  rewrite match_front_eq in Hm. injection Hm as <- _.
  split; simpl; by apply levels_wf_front_after.
Qed.

Lemma inner_run_levels s trades s' trades' :
  inner_run bidPrice askPrice s trades s' trades' ->
  erase bidPrice (bids_ s') = erase bidPrice (bids_ s) /\
  erase askPrice (asks_ s') = erase askPrice (asks_ s) /\
  (length (bids_ s') <= length (bids_ s))%nat /\
  (length (asks_ s') <= length (asks_ s))%nat /\
  fresh_ s' = fresh_ s.
Proof.
  induction 1 as [|s trades bid bids ask asks s1 trade s' trades' Hb Ha Hm _ IH];
    [done|].
  rewrite match_front_eq in Hm. injection Hm as <- _.
  simpl in IH. destruct IH as (IH1 & IH2 & IH3 & IH4 & IH5).
  rewrite erase_front_after in IH1. rewrite erase_front_after in IH2.
  repeat split; try done.
  - etrans; [exact IH3|apply length_front_after].
  - etrans; [exact IH4|apply length_front_after].
Qed.

End InnerRun.

(** ** End-of-match disposal *)

Lemma CancelOrder_absent s id :
  orders_ s !! id = None -> Main.CancelOrder s id = s.
Proof. intros H. unfold Main.CancelOrder. by rewrite H. Qed.

(** In [main.cpp] the call of [CancelOrder] follows [orders_.erase] of the
    same identifier, so it returns at its first line: the blocks after the
    inner loop do what those of the second file do. *)
Lemma dispose_bid_eq bidPrice s :
  Main.dispose_bid bidPrice s = Part001.dispose_bid bidPrice s.
Proof.
  unfold Main.dispose_bid, Part001.dispose_bid.
  destruct (is_nil _); [done|].
  destruct (bids_ s) as [|[k [|n l]] m]; try done.
  destruct (OrderType_eqb _ _); [|done].
  apply CancelOrder_absent. simpl. apply lookup_delete_eq.
Qed.

Lemma dispose_ask_eq askPrice s :
  Main.dispose_ask askPrice s = Part001.dispose_ask askPrice s.
Proof.
  unfold Main.dispose_ask, Part001.dispose_ask.
  destruct (is_nil _); [done|].
  destruct (asks_ s) as [|[k [|n l]] m]; try done.
  apply CancelOrder_absent. simpl. apply lookup_delete_eq.
Qed.

Lemma dispose_bid_index bidPrice s :
  exists idx, Main.dispose_bid bidPrice s = with_orders s idx.
Proof.
  rewrite dispose_bid_eq. unfold Part001.dispose_bid.
  destruct s as [b a o f]; simpl.
  destruct (is_nil _); [by exists o|].
  destruct b as [|[k [|n l]] m]; by eauto.
Qed.

Lemma dispose_ask_index askPrice s :
  exists idx, Main.dispose_ask askPrice s = with_orders s idx.
Proof.
  rewrite dispose_ask_eq. unfold Part001.dispose_ask.
  destruct s as [b a o f]; simpl.
  destruct (is_nil _); [by exists o|].
  destruct a as [|[k [|n l]] m]; by eauto.
Qed.

Lemma dispose_bid_cases bidPrice s :
  Main.dispose_bid bidPrice s = s \/
  exists id, Main.dispose_bid bidPrice s = with_orders s (delete id (orders_ s)).
Proof.
  rewrite dispose_bid_eq. unfold Part001.dispose_bid.
  destruct (is_nil _); [by left|].
  destruct (bids_ s) as [|[k [|n l]] m]; by eauto.
Qed.

Lemma dispose_ask_cases askPrice s :
  Main.dispose_ask askPrice s = s \/
  exists id, Main.dispose_ask askPrice s = with_orders s (delete id (orders_ s)).
Proof.
  rewrite dispose_ask_eq. unfold Part001.dispose_ask.
  destruct (is_nil _); [by left|].
  destruct (asks_ s) as [|[k [|n l]] m]; by eauto.
Qed.

(** ** The outer loop *)

Lemma level_head k l (m : list (Z * list Node)) : level ((k, l) :: m) k = l.
Proof. simpl. by rewrite Z.eqb_refl. Qed.

(** A property that every step of the inner loop keeps, and that erasing an
    identifier from the index keeps, is kept by the matching loop. *)
Section LoopInvariant.

Variable P : OrderBook -> Prop.

Hypothesis P_front : forall bidPrice askPrice bid bids ask asks s s1 trade,
  P s ->
  level (bids_ s) bidPrice = bid :: bids ->
  level (asks_ s) askPrice = ask :: asks ->
  Main.match_front bidPrice askPrice bid ask s = Returned (s1, trade) ->
  P s1.

Hypothesis P_erase : forall s id,
  P s -> P (with_orders s (delete id (orders_ s))).

Lemma inner_run_inv bidPrice askPrice s trades s' trades' :
  inner_run bidPrice askPrice s trades s' trades' -> P s -> P s'.
Proof.
  induction 1 as [|s trades bid bids ask asks s1 trade s' trades' Hb Ha Hm _ IH];
    [done|].
  intros HP. apply IH. eapply P_front; eauto.
Qed.

Lemma match_pass_inv s trades s' trades' :
  Main.match_pass s trades = Returned (Some (s', trades')) -> P s -> P s'.
Proof.
  unfold Main.match_pass.
  destruct (asks_ s) as [|[askPrice asks] ma] eqn:Ea; [done|].
  destruct (bids_ s) as [|[bidPrice bids] mb] eqn:Eb; [done|].
  destruct (bidPrice <? askPrice); [done|].
  destruct (Main.match_level _ _ _ _ _) as [[s1 trades1]| |] eqn:Em;
    simpl; [|done|done].
  intros [= <- <-] HP.
  apply match_level_run in Em.
  pose proof (inner_run_inv _ _ _ _ _ _ Em HP) as HP1.
  assert (HP2 : P (Main.dispose_bid bidPrice s1)).
  { destruct (dispose_bid_cases bidPrice s1) as [->|[i1 ->]]; auto. }
  destruct (dispose_ask_cases askPrice (Main.dispose_bid bidPrice s1))
    as [->|[i2 ->]]; auto.
Qed.

Lemma MatchOrders_loop_inv fuel s trades s' trades' :
  Main.MatchOrders_loop fuel s trades = Returned (s', trades') -> P s -> P s'.
Proof.
  revert s trades. induction fuel as [|fuel IH]; intros s trades; simpl; [done|].
  destruct (Main.match_pass s trades) as [[[s1 trades1]|]| |] eqn:Ep;
    simpl; [| |done|done].
  - intros H HP. eapply IH; [exact H|]. eapply match_pass_inv; eauto.
  - by intros [= <- <-].
Qed.

Lemma MatchOrders_inv s s' trades' :
  Main.MatchOrders s = Returned (s', trades') -> P s -> P s'.
Proof. apply MatchOrders_loop_inv. Qed.

End LoopInvariant.

(** A pass over a well-formed book either breaks out of the loop or erases
    a price level. *)
Lemma match_pass_wf s trades :
  book_wf s ->
  Main.match_pass s trades = Returned None \/
  exists s' trades',
    Main.match_pass s trades = Returned (Some (s', trades')) /\
    book_wf s' /\ (level_count s' < level_count s)%nat.
Proof.
  intros Hwf. unfold Main.match_pass.
  destruct (asks_ s) as [|[askPrice asks] ma] eqn:Ea; [by left|].
  destruct (bids_ s) as [|[bidPrice bids] mb] eqn:Eb; [by left|].
  destruct (bidPrice <? askPrice); [by left|]. right.
  destruct (match_level_returns (length bids + length asks) bidPrice askPrice
              s trades) as (s1 & trades1 & Hm).
  { rewrite Ea, Eb, !level_head. done. }
  rewrite Hm. simpl. eexists _, _. split; [done|].
  apply match_level_run in Hm.
  pose proof (inner_run_wf _ _ _ _ _ _ Hm Hwf) as [Hwb Hwa].
  pose proof (inner_run_levels _ _ _ _ _ _ Hm) as (E1 & E2 & L1 & L2 & _).
  pose proof (inner_run_exit _ _ _ _ _ _ Hm) as Hexit.
  destruct (dispose_bid_index bidPrice s1) as [i1 ->].
  destruct (dispose_ask_index askPrice (with_orders s1 i1)) as [i2 ->].
  split; [done|]. unfold level_count. simpl.
  destruct Hexit as [Hnil|Hnil].
  - apply levels_wf_level_nil in Hnil; [|done].
    apply erase_absent in Hnil. rewrite <- Hnil, E1.
    assert (length (erase bidPrice (bids_ s)) < length (bids_ s))%nat.
    { apply length_erase_lt. rewrite Eb. simpl. by rewrite Z.eqb_refl. }
    lia.
  - apply levels_wf_level_nil in Hnil; [|done].
    apply erase_absent in Hnil. rewrite <- Hnil, E2.
    assert (length (erase askPrice (asks_ s)) < length (asks_ s))%nat.
    { apply length_erase_lt. rewrite Ea. simpl. by rewrite Z.eqb_refl. }
    lia.
Qed.

Lemma MatchOrders_loop_returns fuel s trades :
  book_wf s -> (level_count s < fuel)%nat ->
  exists s' trades',
    Main.MatchOrders_loop fuel s trades = Returned (s', trades') /\ book_wf s'.
Proof.
  revert s trades. induction fuel as [|fuel IH]; intros s trades Hwf Hlt; [lia|].
  simpl. destruct (match_pass_wf s trades Hwf) as [->|(s1 & t1 & -> & Hwf1 & Hdec)];
    simpl.
  - eauto.
  - apply IH; [done|lia].
Qed.

Lemma MatchOrders_returns s :
  book_wf s ->
  exists s' trades', Main.MatchOrders s = Returned (s', trades') /\ book_wf s'.
Proof.
  intros Hwf. apply MatchOrders_loop_returns; [done|].
  unfold level_count. lia.
Qed.

(** Fuel beyond what the loop needs does not change what it returns. *)
Lemma MatchOrders_loop_fuel_mono fuel fuel' s trades r :
  Main.MatchOrders_loop fuel s trades = Returned r ->
  (fuel <= fuel')%nat ->
  Main.MatchOrders_loop fuel' s trades = Returned r.
Proof.
  revert fuel' s trades. induction fuel as [|fuel IH]; intros fuel' s trades;
    simpl; [done|].
  intros H Hle. destruct fuel' as [|fuel']; [lia|]. simpl.
  destruct (Main.match_pass s trades) as [[[s1 t1]|]| |]; simpl in *;
    [|done|done|done].
  apply IH; [done|lia].
Qed.

Lemma empty_level_book_loops fuel trades :
  Main.MatchOrders_loop fuel empty_level_book trades = OutOfFuel.
Proof.
  induction fuel as [|fuel IH]; [done|].
  simpl. exact IH.
Qed.

(** ** The public calls keep the book well formed and return *)

Lemma AddOrder_unfold s order :
  Main.AddOrder s order =
  if rejects s order then Returned (s, []) else Main.MatchOrders (place s order).
Proof.
  unfold Main.AddOrder, rejects, place.
  destruct (contains s (orderId_ order)); [done|]. simpl.
  destruct (negb _ && _); done.
Qed.

Lemma place_wf s order : book_wf s -> book_wf (place s order).
Proof.
  intros [Hb Ha]. unfold place, book_wf.
  destruct (side_ order); simpl; split; try done;
    by apply levels_wf_push_back.
Qed.

Lemma CancelOrder_wf s id : book_wf s -> book_wf (Main.CancelOrder s id).
Proof.
  intros [Hb Ha]. unfold Main.CancelOrder.
  destruct (orders_ s !! id) as [entry|]; [|done].
  destruct (side_ (order entry)); simpl.
  - destruct (is_nil _) eqn:E; split; simpl; try done.
    + by apply levels_wf_erase_subscript.
    + apply levels_wf_update_subscript; [done|done|].
      intros H. by rewrite H in E.
  - destruct (is_nil _) eqn:E; split; simpl; try done.
    + by apply levels_wf_erase_subscript.
    + apply levels_wf_update_subscript; [done|done|].
      intros H. by rewrite H in E.
Qed.

Lemma AddOrder_returns s order :
  book_wf s ->
  exists s' trades, Main.AddOrder s order = Returned (s', trades) /\ book_wf s'.
Proof.
  intros Hwf. rewrite AddOrder_unfold.
  destruct (rejects s order); [by eauto|].
  apply MatchOrders_returns. by apply place_wf.
Qed.

Lemma ModifyOrder_returns s modify :
  book_wf s ->
  exists s' trades,
    Main.ModifyOrder s modify = Returned (s', trades) /\ book_wf s'.
Proof.
  intros Hwf. unfold Main.ModifyOrder.
  destruct (orders_ s !! m_orderId_ modify) as [existing|]; [|by eauto].
  destruct (AddOrder_returns (Main.CancelOrder s (m_orderId_ modify))
              (ToOrderPointer modify (orderType_ (order existing))))
    as (s1 & t1 & -> & Hwf1).
  { by apply CancelOrder_wf. }
  simpl. by apply MatchOrders_returns.
Qed.

Lemma call_returns s c :
  book_wf s ->
  exists s' trades, call s c = Returned (s', trades) /\ book_wf s'.
Proof.
  intros Hwf. destruct c as [id ty q p sd|id|m]; simpl.
  - by apply AddOrder_returns.
  - eexists _, _. split; [done|]. by apply CancelOrder_wf.
  - by apply ModifyOrder_returns.
Qed.

Lemma empty_book_wf : book_wf empty_book.
Proof. split; constructor. Qed.

Lemma reachable_by_wf P s : reachable_by P s -> book_wf s.
Proof.
  induction 1 as [|s c s' trades _ IH _ Hc]; [apply empty_book_wf|].
  destruct (call_returns s c IH) as (s1 & t1 & E & Hwf).
  rewrite E in Hc. by injection Hc as <- _.
Qed.

(** ** The nodes of a book *)

Lemma Forall_of_sublist {A : Type} (P : A -> Prop) (l1 l2 : list A) :
  l1 `sublist_of` l2 -> Forall P l2 -> Forall P l1.
Proof.
  intros Hsub H. apply Forall_forall. intros x Hx.
  rewrite Forall_forall in H. apply H. eapply elem_of_sublist; eauto.
Qed.

Section Nodes.

Implicit Types (m : list (Z * list Node)) (k : Z).
Implicit Types (f : list Node -> list Node).

Lemma nodes_cons k (l : list Node) m : nodes ((k, l) :: m) = l ++ nodes m.
Proof. reflexivity. Qed.

Lemma nodes_subscript before k m : nodes (subscript before k m) = nodes m.
Proof.
  induction m as [|[k' l] m IH]; simpl; [done|].
  destruct (k' =? k); [done|]. destruct (before k k'); [done|].
  by rewrite !nodes_cons, IH.
Qed.

Lemma nodes_erase k m : nodes (erase k m) `sublist_of` nodes m.
Proof.
  induction m as [|[k' l] m IH]; simpl; [done|].
  rewrite nodes_cons. destruct (k' =? k).
  - by apply sublist_inserts_l.
  - rewrite nodes_cons. by apply sublist_app.
Qed.

Lemma level_present m k n (l : list Node) :
  level m k = n :: l -> contains_level m k = true.
Proof.
  intros H. destruct (contains_level m k) eqn:E; [done|].
  apply level_absent in E. congruence.
Qed.

Lemma nodes_update_present m k :
  contains_level m k = true ->
  exists pre post,
    nodes m = pre ++ level m k ++ post /\
    forall f, nodes (update k f m) = pre ++ f (level m k) ++ post.
Proof.
  induction m as [|[k' l] m IH]; simpl; [done|].
  destruct (k' =? k); simpl.
  - intros _. exists [], (nodes m). by rewrite !nodes_cons.
  - intros H. destruct (IH H) as (pre & post & E1 & E2).
    exists (l ++ pre), post. rewrite !nodes_cons, E1. split.
    + by rewrite <- !app_assoc.
    + intros f. by rewrite nodes_cons, E2, <- !app_assoc.
Qed.

Lemma nodes_update_sublist m k f :
  (forall l, f l `sublist_of` l) ->
  nodes (update k f m) `sublist_of` nodes m.
Proof.
  intros Hf. induction m as [|[k' l] m IH]; simpl; [done|].
  destruct (k' =? k); rewrite !nodes_cons; by apply sublist_app.
Qed.

Lemma nodes_push_back before k n m :
  nodes (update k (push_back n) (subscript before k m)) ≡ₚ n :: nodes m.
Proof.
  unfold push_back.
  induction m as [|[k' l] m IH]; simpl.
  - by rewrite Z.eqb_refl.
  - destruct (k' =? k) eqn:E; simpl; rewrite ?E.
    + rewrite !nodes_cons. rewrite <- app_assoc. simpl.
      by rewrite <- Permutation_middle.
    + destruct (before k k'); simpl; rewrite ?Z.eqb_refl, ?E.
      * by rewrite !nodes_cons.
      * rewrite !nodes_cons, IH. by rewrite <- Permutation_middle.
Qed.

Lemma list_erase_sublist it (l : list Node) : list_erase it l `sublist_of` l.
Proof.
  induction l as [|n l IH]; simpl; [done|].
  destruct (Nat.eqb (self n) it); [by apply sublist_cons|by apply sublist_skip].
Qed.

Lemma nodes_front_after m k (o' : Order) n (l : list Node) :
  level m k = n :: l ->
  exists pre post,
    nodes m = pre ++ n :: post /\
    nodes (front_after k o' m) `sublist_of` pre ++ mkNode (self n) o' :: post.
Proof.
  intros Hl. pose proof (level_present _ _ _ _ Hl) as Hin.
  destruct (nodes_update_present m k Hin) as (pre & post & E1 & E2).
  rewrite Hl in E1, E2. simpl in E1.
  exists pre, (l ++ post). split; [done|].
  unfold front_after. cbv zeta.
  destruct (isFilled o').
  - rewrite update_update.
    assert (Hsub : nodes (update k (fun l => pop_front (set_front o' l)) m)
                     `sublist_of` pre ++ mkNode (self n) o' :: l ++ post).
    { rewrite E2. simpl. apply sublist_app; [done|]. by apply sublist_cons. }
    destruct (is_nil _); [|done].
    etrans; [apply nodes_erase|done].
  - destruct (is_nil _).
    + etrans; [apply nodes_erase|]. by rewrite E2.
    + by rewrite E2.
Qed.

End Nodes.

(** ** Quantities and node addresses *)

Lemma descends_refl l : descends l l.
Proof. intros n Hn. exists n. repeat split; [done|lia]. Qed.

Lemma descends_trans l1 l2 l3 :
  descends l1 l2 -> descends l2 l3 -> descends l1 l3.
Proof.
  intros H12 H23 n3 Hn3.
  destruct (H23 n3 Hn3) as (n2 & Hn2 & E1 & E2 & E3).
  destruct (H12 n2 Hn2) as (n1 & Hn1 & F1 & F2 & F3).
  exists n1. repeat split; [done|congruence|congruence|lia].
Qed.

Lemma descends_sublist l l' : l' `sublist_of` l -> descends l l'.
Proof.
  intros Hsub n Hn. exists n. repeat split; [|lia].
  eapply elem_of_sublist; eauto.
Qed.

Lemma filled_by_ok (o other : Order) :
  order_ok o -> order_ok other ->
  let quantity := Z.min (remainingQuantity_ o) (remainingQuantity_ other) in
  order_ok (filled_by quantity o) /\
  remainingQuantity_ (filled_by quantity o) = remainingQuantity_ o - quantity /\
  0 <= quantity.
Proof.
  intros [Ho1 Ho2] [Ha1 Ha2] quantity.
  assert (Hq : 0 <= quantity <= remainingQuantity_ o) by (subst quantity; lia).
  unfold order_ok, filled_by; simpl.
  rewrite wrap32_int32 by (unfold int32; lia). lia.
Qed.

(** What a step of the inner loop does to the nodes of the book. *)
Lemma all_nodes_front bidPrice askPrice bid (bids : list Node) ask
    (asks : list Node) s s1 trade :
  level (bids_ s) bidPrice = bid :: bids ->
  level (asks_ s) askPrice = ask :: asks ->
  Main.match_front bidPrice askPrice bid ask s = Returned (s1, trade) ->
  let quantity :=
    Z.min (remainingQuantity_ (held bid)) (remainingQuantity_ (held ask)) in
  exists pb qb pa qa,
    all_nodes s = (pb ++ bid :: qb) ++ (pa ++ ask :: qa) /\
    all_nodes s1 `sublist_of`
      (pb ++ mkNode (self bid) (filled_by quantity (held bid)) :: qb) ++
      (pa ++ mkNode (self ask) (filled_by quantity (held ask)) :: qa) /\
    fresh_ s1 = fresh_ s.
Proof.
  intros Hb Ha. rewrite match_front_eq. intros [= <- _] quantity.
  destruct (nodes_front_after _ _ (filled_by quantity (held bid)) _ _ Hb)
    as (pb & qb & Eb & Sb).
  destruct (nodes_front_after _ _ (filled_by quantity (held ask)) _ _ Ha)
    as (pa & qa & Ea & Sa).
  exists pb, qb, pa, qa. unfold all_nodes; simpl.
  rewrite Eb, Ea. split; [done|]. split; [|done].
  by apply sublist_app.
Qed.

Lemma nodes_ok_front bidPrice askPrice bid (bids : list Node) ask
    (asks : list Node) s s1 trade :
  nodes_ok s ->
  level (bids_ s) bidPrice = bid :: bids ->
  level (asks_ s) askPrice = ask :: asks ->
  Main.match_front bidPrice askPrice bid ask s = Returned (s1, trade) ->
  nodes_ok s1 /\ descends (all_nodes s) (all_nodes s1).
Proof.
  intros Hok Hb Ha Hm.
  destruct (all_nodes_front _ _ _ _ _ _ _ _ _ Hb Ha Hm)
    as (pb & qb & pa & qa & E & Hsub & _).
  unfold nodes_ok in *. rewrite E in *.
  rewrite !Forall_app, !Forall_cons in Hok.
  destruct Hok as ((Hpb & Hbid & Hqb) & (Hpa & Hask & Hqa)).
  destruct (filled_by_ok _ _ Hbid Hask) as (Hb1 & Hb2 & Hq).
  destruct (filled_by_ok _ _ Hask Hbid) as (Ha1 & Ha2 & _).
  rewrite (Z.min_comm (remainingQuantity_ (held ask))) in Ha1, Ha2.
  split.
  - eapply Forall_of_sublist; [exact Hsub|].
    rewrite !Forall_app, !Forall_cons. simpl. tauto.
  - eapply descends_trans; [|by apply descends_sublist].
    intros n Hn.
    rewrite !elem_of_app, !elem_of_cons in Hn.
    destruct Hn as [[Hn|[->|Hn]]|[Hn|[->|Hn]]].
    + exists n. rewrite !elem_of_app. repeat split; [by auto|lia].
    + exists bid. rewrite !elem_of_app, !elem_of_cons.
      repeat split; [by auto|]. cbn [held self]. rewrite Hb2. lia.
    + exists n. rewrite !elem_of_app, !elem_of_cons.
      repeat split; [by auto|lia].
    + exists n. rewrite !elem_of_app. repeat split; [by auto|lia].
    + exists ask. rewrite !elem_of_app, !elem_of_cons.
      repeat split; [by auto 6|]. cbn [held self]. rewrite Ha2. lia.
    + exists n. rewrite !elem_of_app, !elem_of_cons.
      repeat split; [by auto 6|lia].
Qed.

Lemma locs_ok_front bidPrice askPrice bid (bids : list Node) ask
    (asks : list Node) s s1 trade :
  locs_ok s ->
  level (bids_ s) bidPrice = bid :: bids ->
  level (asks_ s) askPrice = ask :: asks ->
  Main.match_front bidPrice askPrice bid ask s = Returned (s1, trade) ->
  locs_ok s1.
Proof.
  intros [Hnd Hlt] Hb Ha Hm.
  destruct (all_nodes_front _ _ _ _ _ _ _ _ _ Hb Ha Hm)
    as (pb & qb & pa & qa & E & Hsub & Hf).
  unfold locs_ok. rewrite Hf. rewrite E in *. split.
  - eapply sublist_NoDup; [|apply fmap_sublist, Hsub].
    revert Hnd. by rewrite !fmap_app, !fmap_cons.
  - eapply Forall_of_sublist; [exact Hsub|].
    revert Hlt. by rewrite !Forall_app, !Forall_cons.
Qed.

Lemma descends_subseteq (l1 l2 l' : list Node) :
  (forall n, n ∈ l1 -> n ∈ l2) -> descends l1 l' -> descends l2 l'.
Proof.
  intros Hsub H n' Hn'. destruct (H n' Hn') as (n & Hn & E).
  exists n. split; [by apply Hsub|done].
Qed.

(** The effect of the matching loop on the nodes of a book whose orders
    satisfy [0 <= remaining <= initial]. *)
Lemma MatchOrders_effect s s' trades :
  Main.MatchOrders s = Returned (s', trades) ->
  nodes_ok s -> locs_ok s ->
  nodes_ok s' /\ locs_ok s' /\
  descends (all_nodes s) (all_nodes s') /\ fresh_ s' = fresh_ s.
Proof.
  intros Hm Hok Hlocs.
  apply (MatchOrders_inv
           (fun x => nodes_ok x /\ locs_ok x /\
                     descends (all_nodes s) (all_nodes x) /\
                     fresh_ x = fresh_ s)) with (s := s) (trades' := trades);
    [| |done|].
  - intros bidPrice askPrice bid bids ask asks x x1 trade
      (H1 & H2 & H3 & H4) Hb Ha Hf.
    destruct (nodes_ok_front _ _ _ _ _ _ _ _ _ H1 Hb Ha Hf) as [H1' Hd].
    repeat split.
    + done.
    + eapply locs_ok_front; eauto.
    + eapply locs_ok_front; eauto.
    + eapply descends_trans; eauto.
    + destruct (all_nodes_front _ _ _ _ _ _ _ _ _ Hb Ha Hf)
        as (_ & _ & _ & _ & _ & _ & ->). done.
  - intros x id H. exact H.
  - repeat split; try done; [apply Hlocs|apply Hlocs|apply descends_refl].
Qed.

Lemma CancelOrder_nodes s id :
  all_nodes (Main.CancelOrder s id) `sublist_of` all_nodes s /\
  fresh_ (Main.CancelOrder s id) = fresh_ s.
Proof.
  unfold Main.CancelOrder.
  destruct (orders_ s !! id) as [entry|]; [|done].
  destruct (side_ (order entry)); simpl.
  - destruct (is_nil _); unfold all_nodes; simpl; split; try done.
    + apply sublist_app; [|done].
      etrans; [apply nodes_erase|].
      etrans; [apply nodes_update_sublist, list_erase_sublist|].
      by rewrite nodes_subscript.
    + apply sublist_app; [|done].
      etrans; [apply nodes_update_sublist, list_erase_sublist|].
      by rewrite nodes_subscript.
  - destruct (is_nil _); unfold all_nodes; simpl; split; try done.
    + apply sublist_app; [done|].
      etrans; [apply nodes_erase|].
      etrans; [apply nodes_update_sublist, list_erase_sublist|].
      by rewrite nodes_subscript.
    + apply sublist_app; [done|].
      etrans; [apply nodes_update_sublist, list_erase_sublist|].
      by rewrite nodes_subscript.
Qed.

Lemma CancelOrder_locs_ok s id : locs_ok s -> locs_ok (Main.CancelOrder s id).
Proof.
  intros [Hnd Hlt]. destruct (CancelOrder_nodes s id) as [Hsub Hf]. split.
  - eapply sublist_NoDup; [exact Hnd|]. by apply fmap_sublist.
  - rewrite Hf. by eapply Forall_of_sublist.
Qed.

Lemma CancelOrder_effect s id :
  nodes_ok s -> locs_ok s ->
  nodes_ok (Main.CancelOrder s id) /\ locs_ok (Main.CancelOrder s id).
Proof.
  intros Hok Hlocs. split; [|by apply CancelOrder_locs_ok].
  destruct (CancelOrder_nodes s id) as [Hsub _]. by eapply Forall_of_sublist.
Qed.

Lemma place_nodes s o :
  all_nodes (place s o) ≡ₚ mkNode (fresh_ s) o :: all_nodes s /\
  fresh_ (place s o) = S (fresh_ s).
Proof.
  unfold place, all_nodes. destruct (side_ o); simpl; split; try done.
  - by rewrite nodes_push_back.
  - rewrite nodes_push_back. by rewrite <- Permutation_middle.
Qed.

Lemma place_locs_ok s o : locs_ok s -> locs_ok (place s o).
Proof.
  intros [Hnd Hlt]. destruct (place_nodes s o) as [Hp Hf].
  unfold locs_ok. rewrite Hf. split.
  - eapply NoDup_Permutation_proper; [apply fmap_Permutation, Hp|].
    rewrite fmap_cons. apply NoDup_cons. split; [|done]. simpl.
    intros (n & E & Hn)%list_elem_of_fmap.
    rewrite Forall_forall in Hlt. specialize (Hlt n Hn). lia.
  - eapply Permutation_Forall; [symmetry; exact Hp|].
    apply Forall_cons. split; [simpl; lia|].
    eapply Forall_impl; [exact Hlt|]. simpl. intros; lia.
Qed.

Lemma place_effect s o :
  order_ok o -> nodes_ok s -> locs_ok s ->
  nodes_ok (place s o) /\ locs_ok (place s o).
Proof.
  intros Ho Hok Hlocs. split; [|by apply place_locs_ok].
  destruct (place_nodes s o) as [Hp _]. unfold nodes_ok.
  eapply Permutation_Forall; [symmetry; exact Hp|]. by apply Forall_cons.
Qed.

Lemma AddOrder_effect s o s' trades :
  order_ok o -> nodes_ok s -> locs_ok s ->
  Main.AddOrder s o = Returned (s', trades) ->
  nodes_ok s' /\ locs_ok s' /\
  descends (mkNode (fresh_ s) o :: all_nodes s) (all_nodes s') /\
  (fresh_ s <= fresh_ s')%nat.
Proof.
  intros Ho Hok Hlocs. rewrite AddOrder_unfold.
  destruct (rejects s o).
  - intros [= <- _]. repeat split; try done; try apply Hlocs.
    apply descends_sublist. by apply sublist_cons.
  - intros Hm.
    destruct (place_effect s o Ho Hok Hlocs) as [Hok1 Hlocs1].
    destruct (MatchOrders_effect _ _ _ Hm Hok1 Hlocs1) as (H1 & H2 & H3 & H4).
    destruct (place_nodes s o) as [Hp Hf].
    repeat split; try done; try apply H2.
    + eapply descends_subseteq; [|exact H3].
      intros n Hn. by rewrite <- Hp.
    + lia.
Qed.

Lemma ModifyOrder_effect s m s' trades :
  0 <= m_quantity_ m < 2 ^ 31 -> nodes_ok s -> locs_ok s ->
  Main.ModifyOrder s m = Returned (s', trades) ->
  nodes_ok s' /\ locs_ok s' /\
  exists ty,
    descends (mkNode (fresh_ s) (ToOrderPointer m ty) :: all_nodes s)
             (all_nodes s').
Proof.
  intros Hq Hok Hlocs. unfold Main.ModifyOrder.
  destruct (orders_ s !! m_orderId_ m) as [existing|].
  - destruct (CancelOrder_effect s (m_orderId_ m) Hok Hlocs) as [Hok1 Hlocs1].
    destruct (CancelOrder_nodes s (m_orderId_ m)) as [Hsub Hf].
    destruct (Main.AddOrder _ _) as [[s2 t2]| |] eqn:Ea; simpl; [|done|done].
    intros Hm.
    apply AddOrder_effect in Ea as (Hok2 & Hlocs2 & Hd2 & _); [|..|done|done].
    2:{ unfold order_ok, ToOrderPointer, newOrder; simpl. lia. }
    destruct (MatchOrders_effect _ _ _ Hm Hok2 Hlocs2) as (H1 & H2 & H3 & _).
    split; [done|]. split; [done|].
    exists (orderType_ (order existing)).
    eapply descends_trans; [|exact H3].
    eapply descends_subseteq; [|exact Hd2].
    intros n. rewrite Hf, !elem_of_cons. intros [->|Hn]; [by left|right].
    eapply elem_of_sublist; eauto.
  - intros [= <- _]. split; [done|]. split; [done|].
    exists FillAndKill. apply descends_sublist. by apply sublist_cons.
Qed.

(** ** Reachable states *)

Lemma run_reachable P calls s s' results :
  reachable_by P s -> Forall P calls ->
  run call s calls = Returned (s', results) ->
  reachable_by P s'.
Proof.
  revert s results. induction calls as [|c calls IH]; intros s results Hs Hall; simpl.
  - by intros [= <- _].
  - apply Forall_cons in Hall as [Hc Hall].
    destruct (call s c) as [[s1 t1]| |] eqn:Ec; simpl; [|done|done].
    destruct (run call s1 calls) as [[s2 rest]| |] eqn:Er; simpl; [|done|done].
    intros [= <- _]. eapply IH; [|done|exact Er].
    eapply reachable_call; eauto.
Qed.

Lemma call_effect s c s' trades :
  quantity_ok c -> nodes_ok s -> locs_ok s ->
  call s c = Returned (s', trades) ->
  nodes_ok s' /\ locs_ok s' /\
  exists o, descends (mkNode (fresh_ s) o :: all_nodes s) (all_nodes s').
Proof.
  intros Hq Hok Hlocs. destruct c as [id ty q p sd|id|m]; simpl.
  - intros Ha. apply AddOrder_effect in Ha as (H1 & H2 & H3 & _); try done.
    + eauto.
    + specialize (Hq q eq_refl). unfold order_ok, newOrder; simpl. lia.
  - intros [= <- _].
    destruct (CancelOrder_effect s id Hok Hlocs) as [H1 H2].
    split; [done|]. split; [done|].
    exists (newOrder 0 FillAndKill 0 0 Buy).
    apply descends_sublist, sublist_cons, CancelOrder_nodes.
  - intros Hm. apply ModifyOrder_effect in Hm as (H1 & H2 & ty & H3); try done.
    + eauto.
    + by apply (Hq (m_quantity_ m)).
Qed.

Lemma reachable_ok s :
  reachable_by quantity_ok s -> nodes_ok s /\ locs_ok s.
Proof.
  induction 1 as [|s c s' trades _ [IH1 IH2] Hq Hc].
  - repeat split; constructor.
  - destruct (call_effect _ _ _ _ Hq IH1 IH2 Hc) as (H1 & H2 & _). done.
Qed.

Lemma NoDup_fmap_eq {A B : Type} (f : A -> B) (l : list A) x y :
  NoDup (f <$> l) -> x ∈ l -> y ∈ l -> f x = f y -> x = y.
Proof.
  induction l as [|a l IH]; [by intros _ ?%elem_of_nil|].
  rewrite fmap_cons, NoDup_cons, !elem_of_cons.
  intros [Hnot Hnd] [->|Hx] [->|Hy] E; try done.
  - destruct Hnot. rewrite E. by apply list_elem_of_fmap_2.
  - destruct Hnot. rewrite <- E. by apply list_elem_of_fmap_2.
  - by apply IH.
Qed.

(** ** No throw from the matching loop *)

Lemma match_level_no_throw fuel bidPrice askPrice s trades id :
  Main.match_level fuel bidPrice askPrice s trades <> Thrown id.
Proof.
  revert s trades. induction fuel as [|fuel IH]; intros s trades; simpl.
  - by destruct (level (bids_ s) bidPrice), (level (asks_ s) askPrice).
  - destruct (level (bids_ s) bidPrice) as [|bid bids]; [done|].
    destruct (level (asks_ s) askPrice) as [|ask asks]; [done|].
    rewrite match_front_eq. simpl. apply IH.
Qed.

Lemma match_pass_no_throw s trades id :
  Main.match_pass s trades <> Thrown id.
Proof.
  unfold Main.match_pass.
  destruct (asks_ s) as [|[askPrice asks] ma]; [done|].
  destruct (bids_ s) as [|[bidPrice bids] mb]; [done|].
  destruct (bidPrice <? askPrice); [done|].
  destruct (Main.match_level _ _ _ _ _) as [[s1 t1]|i|] eqn:E; simpl;
    [done| |done].
  by apply match_level_no_throw in E.
Qed.

Lemma MatchOrders_loop_no_throw fuel s trades id :
  Main.MatchOrders_loop fuel s trades <> Thrown id.
Proof.
  revert s trades. induction fuel as [|fuel IH]; intros s trades; simpl; [done|].
  destruct (Main.match_pass s trades) as [[[s1 t1]|]|i|] eqn:E; simpl;
    [apply IH|done| |done].
  by apply match_pass_no_throw in E.
Qed.

Lemma AddOrder_no_throw s o id : Main.AddOrder s o <> Thrown id.
Proof.
  rewrite AddOrder_unfold. destruct (rejects s o); [done|].
  apply MatchOrders_loop_no_throw.
Qed.

Lemma ModifyOrder_no_throw s m id : Main.ModifyOrder s m <> Thrown id.
Proof.
  unfold Main.ModifyOrder.
  destruct (orders_ s !! m_orderId_ m); [|done].
  destruct (Main.AddOrder _ _) as [[s1 t1]|i|] eqn:E; simpl;
    [apply MatchOrders_loop_no_throw| |done].
  by apply AddOrder_no_throw in E.
Qed.

(** ** The two engines *)

(** When every read of [quantity] yields the value that [std::min]
    returned, the second engine does what the first does, on every call
    that the first engine returns from and with enough fuel. *)
Lemma part001_match_level_eq n bidPrice askPrice s trades :
  Part001.match_level reads_value n bidPrice askPrice s trades =
  Main.match_level n bidPrice askPrice s trades.
Proof. reflexivity. Qed.

Lemma part001_match_pass_eq fuel s trades r :
  Main.match_pass s trades = Returned r ->
  (length (all_nodes s) <= fuel)%nat ->
  Part001.match_pass reads_value fuel s trades = Returned r.
Proof.
  unfold Part001.match_pass, Main.match_pass, all_nodes.
  destruct (asks_ s) as [|[askPrice asks] ma]; [done|].
  destruct (bids_ s) as [|[bidPrice bids] mb]; [done|].
  destruct (bidPrice <? askPrice); [done|].
  rewrite !nodes_cons, !length_app. intros H Hle.
  rewrite part001_match_level_eq.
  destruct (Main.match_level (length bids + length asks) _ _ _ _)
    as [[s1 t1]| |] eqn:E; simpl in H; [|done|done].
  rewrite (match_level_fuel_mono _ fuel _ _ _ _ _ E) by lia. simpl.
  by rewrite <- dispose_bid_eq, <- dispose_ask_eq.
Qed.

Lemma part001_MatchOrders_loop_eq n s trades r :
  Main.MatchOrders_loop n s trades = Returned r ->
  exists bound,
    forall fuel n', (bound <= fuel)%nat -> (n <= n')%nat ->
      Part001.MatchOrders_loop reads_value fuel n' s trades = Returned r.
Proof.
  revert s trades. induction n as [|n IH]; intros s trades; simpl; [done|].
  destruct (Main.match_pass s trades) as [[[s1 t1]|]| |] eqn:Ep;
    simpl; [| |done|done].
  - intros H. destruct (IH _ _ H) as [bound Hb].
    exists (Nat.max (length (all_nodes s)) bound). intros fuel n' Hf Hn.
    destruct n' as [|n']; [lia|]. simpl.
    rewrite (part001_match_pass_eq fuel _ _ _ Ep) by lia. simpl.
    apply Hb; lia.
  - intros [= <-]. exists (length (all_nodes s)). intros fuel n' Hf Hn.
    destruct n' as [|n']; [lia|]. simpl.
    by rewrite (part001_match_pass_eq fuel _ _ _ Ep).
Qed.

Lemma part001_AddOrder_eq s o r :
  Main.AddOrder s o = Returned r ->
  exists bound,
    forall fuel, (bound <= fuel)%nat ->
      Part001.AddOrder reads_value fuel s o = Returned r.
Proof.
  unfold Part001.AddOrder, Main.AddOrder.
  destruct (contains s (orderId_ o)); [intros ->; by exists O|].
  change (Part001.CanMatch s (side_ o) (price_ o))
    with (Main.CanMatch s (side_ o) (price_ o)).
  destruct (negb _ && _); [intros ->; by exists O|].
  unfold Main.MatchOrders, Part001.MatchOrders. intros H.
  destruct (part001_MatchOrders_loop_eq _ _ _ _ H) as [bound Hb].
  eexists (Nat.max bound _). intros fuel Hf. apply Hb; [lia|].
  eapply Nat.le_trans; [|exact Hf]. apply Nat.le_max_r.
Qed.

Lemma part001_run_eq calls s r :
  run main_call s calls = Returned r ->
  exists bound,
    forall fuel, (bound <= fuel)%nat ->
      run (part001_call reads_value fuel) s calls = Returned r.
Proof.
  revert s r. induction calls as [|c calls IH]; intros s r; simpl.
  { intros ->. by exists O. }
  destruct (main_call s c) as [[s1 t1]| |] eqn:Ec; simpl; [|done|done].
  destruct (run main_call s1 calls) as [[s2 rest]| |] eqn:Er; simpl;
    [|done|done].
  intros [= <-]. destruct (IH _ _ Er) as [b2 H2].
  assert (H1 : exists b1, forall fuel, (b1 <= fuel)%nat ->
                 part001_call reads_value fuel s c = Returned (s1, t1)).
  { destruct c; simpl in *.
    - by apply part001_AddOrder_eq.
    - exists O. by intros. }
  destruct H1 as [b1 H1]. exists (Nat.max b1 b2). intros fuel Hf.
  rewrite H1 by lia. simpl. rewrite H2 by lia. done.
Qed.

(** ** The order of the price levels *)

Lemma StronglySorted_sublist {A : Type} (R : A -> A -> Prop) (l1 l2 : list A) :
  l1 `sublist_of` l2 -> StronglySorted R l2 -> StronglySorted R l1.
Proof.
  induction 1 as [|x l1 l2 Hsub IH|x l1 l2 Hsub IH]; [done|..].
  - rewrite !StronglySorted_cons. intros [H1 H2]. split; [|by apply IH].
    by eapply Forall_of_sublist.
  - rewrite StronglySorted_cons. intros [_ H2]. by apply IH.
Qed.

Lemma keys_update m k f : keys (update k f m) = keys m.
Proof.
  induction m as [|[k' l] m IH]; simpl; [done|].
  destruct (k' =? k); simpl; [done|]. by rewrite IH.
Qed.

Lemma keys_erase m k : keys (erase k m) `sublist_of` keys m.
Proof.
  induction m as [|[k' l] m IH]; simpl; [done|].
  destruct (k' =? k); simpl; [by apply sublist_cons|by apply sublist_skip].
Qed.

Lemma keys_subscript before m k x :
  x ∈ keys (subscript before k m) -> x = k \/ x ∈ keys m.
Proof.
  induction m as [|[k' l] m IH]; simpl.
  - rewrite list_elem_of_singleton. auto.
  - destruct (k' =? k); simpl; [auto|].
    destruct (before k k'); simpl; rewrite !elem_of_cons; [tauto|].
    intros [->|H]; [auto|]. destruct (IH H); auto.
Qed.

Section Ordered.

Variable before : Price -> Price -> bool.

Hypothesis before_trans : forall a b c,
  before a b = true -> before b c = true -> before a c = true.

Hypothesis before_cases : forall a b,
  (a =? b) = false -> before b a = false -> before a b = true.

Lemma ordered_update m k f : ordered before m -> ordered before (update k f m).
Proof. unfold ordered. by rewrite keys_update. Qed.

Lemma ordered_erase m k : ordered before m -> ordered before (erase k m).
Proof. apply StronglySorted_sublist, keys_erase. Qed.

Lemma ordered_subscript m k :
  ordered before m -> ordered before (subscript before k m).
Proof.
  unfold ordered. induction m as [|[k' l] m IH]; simpl.
  - intros _. apply StronglySorted_cons. split; constructor.
  - destruct (k' =? k) eqn:E; simpl; [done|].
    destruct (before k k') eqn:Eb; simpl.
    + intros H. apply StronglySorted_cons. split; [|done].
      apply StronglySorted_cons in H as [H1 _].
      apply Forall_cons. split; [done|].
      eapply Forall_impl; [exact H1|]. simpl. intros x Hx.
      by eapply before_trans.
    + rewrite !StronglySorted_cons. intros [H1 H2]. split; [|by apply IH].
      apply Forall_forall. intros x Hx.
      apply keys_subscript in Hx as [->|Hx].
      * by apply before_cases.
      * rewrite Forall_forall in H1. by apply H1.
Qed.

Hypothesis before_irrefl : forall a, before a a = false.

Lemma ordered_absent k' (l : list Node) m k :
  ordered before ((k', l) :: m) -> before k k' = true -> level m k = [].
Proof.
  unfold ordered. simpl. rewrite StronglySorted_cons. intros [H _] Hk.
  apply level_absent.
  induction m as [|[k0 l0] m IH]; simpl in *; [done|].
  apply Forall_cons in H as [H0 H]. rewrite (IH H), orb_false_r.
  destruct (Z.eqb_spec k0 k) as [->|]; [|done].
  pose proof (before_trans _ _ _ Hk H0) as Hkk.
  by rewrite before_irrefl in Hkk.
Qed.

(** In an ordered map [m[k]] finds the entry of [k] when there is one, so a
    write through it is a write to the list that [k] had. *)
Lemma level_update_subscript m k f :
  ordered before m ->
  level (update k f (subscript before k m)) k = f (level m k).
Proof.
  induction m as [|[k' l] m IH]; simpl.
  - intros _. rewrite Z.eqb_refl. simpl. by rewrite Z.eqb_refl.
  - intros H. destruct (k' =? k) eqn:E; simpl; rewrite ?E.
    + simpl. by rewrite E.
    + destruct (before k k') eqn:Eb; simpl; rewrite ?Z.eqb_refl, ?E.
      * simpl. by rewrite Z.eqb_refl, (ordered_absent _ _ _ _ H Eb).
      * simpl. rewrite E. apply IH. unfold ordered in *. simpl in H.
        by apply StronglySorted_cons in H as [_ H].
Qed.

(** In an ordered map the order that [AddOrder] places joins the back of
    the list of its price. *)
Lemma level_push_back m k n :
  ordered before m ->
  level (update k (push_back n) (subscript before k m)) k = level m k ++ [n].
Proof. apply level_update_subscript. Qed.

Lemma ordered_front_after m k (o' : Order) :
  ordered before m -> ordered before (front_after k o' m).
Proof.
  intros H. unfold front_after. cbv zeta.
  destruct (isFilled o'); destruct (is_nil _);
    repeat first [apply ordered_erase | apply ordered_update]; done.
Qed.

End Ordered.

Lemma greater_trans a b c :
  greater a b = true -> greater b c = true -> greater a c = true.
Proof. unfold greater. lia. Qed.

Lemma greater_cases a b :
  (a =? b) = false -> greater b a = false -> greater a b = true.
Proof. unfold greater. lia. Qed.

Lemma less_trans a b c :
  less a b = true -> less b c = true -> less a c = true.
Proof. unfold less. lia. Qed.

Lemma less_cases a b :
  (a =? b) = false -> less b a = false -> less a b = true.
Proof. unfold less. lia. Qed.

Lemma greater_irrefl a : greater a a = false.
Proof. unfold greater. lia. Qed.

Lemma less_irrefl a : less a a = false.
Proof. unfold less. lia. Qed.

Lemma place_joins_back s o :
  book_ordered s ->
  match side_ o with
  | Buy =>
      level (bids_ (place s o)) (price_ o)
      = level (bids_ s) (price_ o) ++ [mkNode (fresh_ s) o]
  | Sell =>
      level (asks_ (place s o)) (price_ o)
      = level (asks_ s) (price_ o) ++ [mkNode (fresh_ s) o]
  end.
Proof.
  intros [Hb Ha]. unfold place. destruct (side_ o); simpl.
  - by apply (level_push_back greater greater_trans greater_irrefl).
  - by apply (level_push_back less less_trans less_irrefl).
Qed.

Lemma MatchOrders_ordered s s' trades :
  Main.MatchOrders s = Returned (s', trades) -> book_ordered s -> book_ordered s'.
Proof.
  apply (MatchOrders_inv book_ordered).
  - intros bidPrice askPrice bid bids ask asks x x1 trade [Hb Ha] _ _.
    rewrite match_front_eq. intros [= <- _]. split; simpl.
    + by apply ordered_front_after.
    + by apply ordered_front_after.
  - done.
Qed.

Lemma place_ordered s o : book_ordered s -> book_ordered (place s o).
Proof.
  intros [Hb Ha]. unfold place, book_ordered.
  destruct (side_ o); simpl; split; try done.
  - by apply ordered_update,
      (ordered_subscript greater greater_trans greater_cases).
  - by apply ordered_update, (ordered_subscript less less_trans less_cases).
Qed.

Lemma CancelOrder_ordered s id :
  book_ordered s -> book_ordered (Main.CancelOrder s id).
Proof.
  intros [Hb Ha]. unfold Main.CancelOrder.
  destruct (orders_ s !! id) as [entry|]; [|done].
  destruct (side_ (order entry)); simpl.
  - destruct (is_nil _); split; simpl; try done;
      repeat first [apply ordered_erase | apply ordered_update];
      by apply (ordered_subscript greater greater_trans greater_cases).
  - destruct (is_nil _); split; simpl; try done;
      repeat first [apply ordered_erase | apply ordered_update];
      by apply (ordered_subscript less less_trans less_cases).
Qed.

Lemma call_ordered s c s' trades :
  call s c = Returned (s', trades) -> book_ordered s -> book_ordered s'.
Proof.
  destruct c as [id ty q p sd|id|m]; simpl.
  - rewrite AddOrder_unfold. destruct (rejects s _); [by intros [= <- _]|].
    intros H Hs. eapply MatchOrders_ordered; [exact H|]. by apply place_ordered.
  - intros [= <- _]. apply CancelOrder_ordered.
  - unfold Main.ModifyOrder.
    destruct (orders_ s !! m_orderId_ m) as [existing|]; [|by intros [= <- _]].
    destruct (Main.AddOrder _ _) as [[s1 t1]| |] eqn:Ea; simpl; [|done|done].
    intros H Hs. eapply MatchOrders_ordered; [exact H|].
    rewrite AddOrder_unfold in Ea.
    destruct (rejects _ _).
    + injection Ea as <- _. by apply CancelOrder_ordered.
    + eapply MatchOrders_ordered; [exact Ea|].
      by apply place_ordered, CancelOrder_ordered.
Qed.

Lemma reachable_by_ordered P s : reachable_by P s -> book_ordered s.
Proof.
  induction 1 as [|s c s' trades _ IH _ Hc].
  - split; constructor.
  - by eapply call_ordered.
Qed.

(** ** Books that hold no cross *)

Lemma match_pass_break s trades :
  Main.match_pass s trades = Returned None <-> uncrossed s.
Proof.
  unfold Main.match_pass, uncrossed.
  destruct (asks_ s) as [|[askPrice asks] ma]; [done|].
  destruct (bids_ s) as [|[bidPrice bids] mb]; [done|].
  destruct (Z.ltb_spec bidPrice askPrice) as [H|H]; [done|].
  split; [|lia].
  by destruct (Main.match_level _ _ _ _ _) as [[s1 t1]| |].
Qed.

Lemma MatchOrders_loop_uncrossed fuel s trades s' trades' :
  Main.MatchOrders_loop fuel s trades = Returned (s', trades') -> uncrossed s'.
Proof.
  revert s trades. induction fuel as [|fuel IH]; intros s trades; simpl; [done|].
  destruct (Main.match_pass s trades) as [[[s1 t1]|]| |] eqn:Ep; simpl;
    [apply IH| |done|done].
  intros [= <- _]. by apply match_pass_break in Ep.
Qed.

Lemma MatchOrders_uncrossed s :
  uncrossed s -> Main.MatchOrders s = Returned (s, []).
Proof.
  intros H. unfold Main.MatchOrders. simpl.
  apply (match_pass_break s []) in H. by rewrite H.
Qed.

(** The first key of an ordered map is its best price. *)
Lemma ordered_greater_head b (l : list Node) m x :
  ordered greater ((b, l) :: m) -> x ∈ keys ((b, l) :: m) -> x <= b.
Proof.
  unfold ordered. simpl. rewrite StronglySorted_cons, elem_of_cons.
  intros [H _] [->|Hx]; [lia|].
  rewrite Forall_forall in H. specialize (H x Hx). unfold greater in H. lia.
Qed.

Lemma ordered_less_head a (l : list Node) m x :
  ordered less ((a, l) :: m) -> x ∈ keys ((a, l) :: m) -> a <= x.
Proof.
  unfold ordered. simpl. rewrite StronglySorted_cons, elem_of_cons.
  intros [H _] [->|Hx]; [lia|].
  rewrite Forall_forall in H. specialize (H x Hx). unfold less in H. lia.
Qed.

Lemma erase_subscript before m k :
  erase k (subscript before k m) = erase k m.
Proof.
  induction m as [|[k' l] m IH]; simpl.
  - by rewrite Z.eqb_refl.
  - destruct (k' =? k) eqn:E; simpl; rewrite ?E; [done|].
    destruct (before k k'); simpl; rewrite ?Z.eqb_refl, ?E; [done|].
    by rewrite IH.
Qed.

Lemma subscript_present before m k f :
  f [] = [] ->
  level (update k f (subscript before k m)) k <> [] ->
  subscript before k m = m.
Proof.
  intros Hf. induction m as [|[k' l] m IH]; simpl.
  - rewrite !Z.eqb_refl. simpl. by rewrite Z.eqb_refl, Hf.
  - destruct (k' =? k) eqn:E; simpl; rewrite ?E; [done|].
    destruct (before k k'); simpl; rewrite ?Z.eqb_refl, ?E; simpl;
      rewrite ?Z.eqb_refl, ?E, ?Hf; [done|].
    intros H. by rewrite IH.
Qed.

(** [CancelOrder] adds no price level. *)
Lemma CancelOrder_keys s id x :
  (x ∈ keys (bids_ (Main.CancelOrder s id)) -> x ∈ keys (bids_ s)) /\
  (x ∈ keys (asks_ (Main.CancelOrder s id)) -> x ∈ keys (asks_ s)).
Proof.
  unfold Main.CancelOrder.
  destruct (orders_ s !! id) as [entry|]; [|done].
  destruct (side_ (order entry)); simpl.
  - destruct (is_nil _) eqn:E; simpl; split; try done.
    + rewrite erase_update, erase_subscript.
      intros H. eapply elem_of_sublist; [exact H|apply keys_erase].
    + rewrite keys_update.
      rewrite (subscript_present _ _ _ (list_erase (location entry)));
        [done|done|].
      intros H. by rewrite H in E.
  - destruct (is_nil _) eqn:E; simpl; split; try done.
    + rewrite erase_update, erase_subscript.
      intros H. eapply elem_of_sublist; [exact H|apply keys_erase].
    + rewrite keys_update.
      rewrite (subscript_present _ _ _ (list_erase (location entry)));
        [done|done|].
      intros H. by rewrite H in E.
Qed.

Lemma CancelOrder_uncrossed s id :
  book_ordered s -> uncrossed s -> uncrossed (Main.CancelOrder s id).
Proof.
  intros [Hb Ha] Hu. unfold uncrossed in *.
  pose proof (fun x => proj1 (CancelOrder_keys s id x)) as Kb.
  pose proof (fun x => proj2 (CancelOrder_keys s id x)) as Ka.
  destruct (asks_ (Main.CancelOrder s id)) as [|[a' la'] ma']; [done|].
  destruct (bids_ (Main.CancelOrder s id)) as [|[b' lb'] mb']; [done|].
  specialize (Ka a' (list_elem_of_here _ _)).
  specialize (Kb b' (list_elem_of_here _ _)).
  destruct (asks_ s) as [|[a la] ma]; [by apply elem_of_nil in Ka|].
  destruct (bids_ s) as [|[b lb] mb]; [by apply elem_of_nil in Kb|].
  pose proof (ordered_greater_head _ _ _ _ Hb Kb).
  pose proof (ordered_less_head _ _ _ _ Ha Ka). lia.
Qed.

Lemma AddOrder_uncrossed s o s' trades :
  Main.AddOrder s o = Returned (s', trades) -> uncrossed s -> uncrossed s'.
Proof.
  rewrite AddOrder_unfold. destruct (rejects s o); [by intros [= <- _]|].
  intros H _. by apply MatchOrders_loop_uncrossed in H.
Qed.

Lemma call_uncrossed s c s' trades :
  call s c = Returned (s', trades) ->
  book_ordered s -> uncrossed s -> uncrossed s'.
Proof.
  destruct c as [id ty q p sd|id|m]; simpl.
  - intros H _. by eapply AddOrder_uncrossed.
  - intros [= <- _]. apply CancelOrder_uncrossed.
  - unfold Main.ModifyOrder.
    destruct (orders_ s !! m_orderId_ m) as [existing|]; [|by intros [= <- _]].
    destruct (Main.AddOrder _ _) as [[s1 t1]| |]; simpl; [|done|done].
    intros H _ _. by apply MatchOrders_loop_uncrossed in H.
Qed.

Lemma reachable_by_uncrossed P s : reachable_by P s -> uncrossed s.
Proof.
  induction 1 as [|s c s' trades Hs IH _ Hc]; [done|].
  eapply call_uncrossed; eauto. by eapply reachable_by_ordered.
Qed.

(** In a reachable book [ModifyOrder] ends in the book that [CancelOrder]
    followed by [AddOrder] ends in, and returns no trade. *)
Lemma ModifyOrder_reachable s m s' trades :
  reachable s ->
  Main.ModifyOrder s m = Returned (s', trades) ->
  trades = [] /\
  match orders_ s !! m_orderId_ m with
  | None => s' = s
  | Some existing =>
      exists resubmitted,
        Main.AddOrder (Main.CancelOrder s (m_orderId_ m))
          (ToOrderPointer m (orderType_ (order existing)))
        = Returned (s', resubmitted)
  end.
Proof.
  intros Hs. unfold Main.ModifyOrder.
  destruct (orders_ s !! m_orderId_ m) as [existing|]; [|by intros [= <- <-]].
  destruct (Main.AddOrder _ _) as [[s1 t1]| |] eqn:Ea; simpl; [|done|done].
  assert (Hu : uncrossed s1).
  { eapply AddOrder_uncrossed; [exact Ea|].
    apply CancelOrder_uncrossed.
    - by eapply reachable_by_ordered.
    - by eapply reachable_by_uncrossed. }
  rewrite (MatchOrders_uncrossed s1 Hu). intros [= <- <-]. eauto.
Qed.

(** ** The index points into the queues *)

Lemma level_elem_nodes (m : list (Z * list Node)) k n :
  n ∈ level m k -> n ∈ nodes m.
Proof.
  induction m as [|[k' l] m IH]; simpl; [by intros ?%elem_of_nil|].
  rewrite nodes_cons, elem_of_app. destruct (k' =? k); auto.
Qed.

Lemma side_levels_all_nodes s sd k n :
  n ∈ level (side_levels s sd) k -> n ∈ all_nodes s.
Proof.
  intros H%level_elem_nodes. unfold all_nodes. rewrite elem_of_app.
  destruct sd; auto.
Qed.

Lemma list_erase_elem it (l : list Node) n :
  n ∈ l -> self n <> it -> n ∈ list_erase it l.
Proof.
  induction l as [|x l IH]; simpl; [done|].
  rewrite elem_of_cons. intros [->|Hn] Hne.
  - destruct (Nat.eqb_spec (self x) it); [done|]. apply list_elem_of_here.
  - destruct (Nat.eqb_spec (self x) it); [done|].
    apply list_elem_of_further. by apply IH.
Qed.

Lemma same_order_filled quantity o e :
  same_order o e -> same_order (filled_by quantity o) e.
Proof. done. Qed.

Lemma CancelOrder_eq s id e :
  orders_ s !! id = Some e ->
  Main.CancelOrder s id =
  match side_ (order e) with
  | Buy =>
      {| bids_ := erase_node greater (price_ (order e)) (location e) (bids_ s);
         asks_ := asks_ s;
         orders_ := delete (orderId_ (order e)) (orders_ s);
         fresh_ := fresh_ s |}
  | Sell =>
      {| bids_ := bids_ s;
         asks_ := erase_node less (price_ (order e)) (location e) (asks_ s);
         orders_ := delete (orderId_ (order e)) (orders_ s);
         fresh_ := fresh_ s |}
  end.
Proof.
  intros He. unfold Main.CancelOrder, erase_node. rewrite He.
  destruct (side_ (order e)); simpl; by destruct (is_nil _).
Qed.

Lemma erase_node_elem before m p it k n :
  (forall a b c, before a b = true -> before b c = true -> before a c = true) ->
  (forall a, before a a = false) ->
  ordered before m ->
  n ∈ level m k -> self n <> it -> n ∈ level (erase_node before p it m) k.
Proof.
  intros Ht Hi Ho Hn Hne. unfold erase_node. cbv zeta.
  destruct (Z.eq_dec p k) as [->|Hpk].
  - assert (Hin : n ∈ level (update k (list_erase it) (subscript before k m)) k).
    { rewrite (level_update_subscript before Ht Hi) by done.
      by apply list_erase_elem. }
    destruct (level (update k (list_erase it) (subscript before k m)) k)
      eqn:E; [by apply elem_of_nil in Hin|].
    simpl. by rewrite E.
  - destruct (is_nil _);
      by rewrite ?level_erase_ne, ?level_update_ne, ?level_subscript_ne.
Qed.

Lemma place_orders s o :
  orders_ (place s o) =
  insert_entry (orderId_ o) (mkOrderEntry o (fresh_ s)) (orders_ s).
Proof. unfold place. by destruct (side_ o). Qed.

Lemma place_level_elem s o sd k n :
  book_ordered s ->
  n ∈ level (side_levels s sd) k -> n ∈ level (side_levels (place s o) sd) k.
Proof.
  intros [Hb Ha] Hn. unfold place.
  destruct (side_ o), sd; simpl; try done.
  - destruct (Z.eq_dec (price_ o) k) as [<-|Hne].
    + rewrite (level_update_subscript greater greater_trans greater_irrefl)
        by done.
      apply elem_of_app. by left.
    + by rewrite level_update_ne, level_subscript_ne.
  - destruct (Z.eq_dec (price_ o) k) as [<-|Hne].
    + rewrite (level_update_subscript less less_trans less_irrefl) by done.
      apply elem_of_app. by left.
    + by rewrite level_update_ne, level_subscript_ne.
Qed.

Lemma index_sound_place s o :
  book_ordered s -> index_sound s -> orders_ s !! orderId_ o = None ->
  index_sound (place s o).
Proof.
  intros Ho Hs Hnone id e. rewrite place_orders. unfold insert_entry.
  rewrite Hnone. destruct (decide (orderId_ o = id)) as [<-|Hne].
  - rewrite lookup_insert_eq. intros [= <-]. split; [done|].
    exists (mkNode (fresh_ s) o). split; [|done]. cbn [order].
    pose proof (place_joins_back s o Ho) as Hp.
    destruct (side_ o); cbn [side_levels]; rewrite Hp; apply elem_of_app;
      right; apply list_elem_of_here.
  - rewrite lookup_insert_ne by done. intros He.
    destruct (Hs id e He) as [Hid (n & Hn & Hself & Hsame)].
    split; [done|]. exists n. split; [|done]. by apply place_level_elem.
Qed.

Lemma index_sound_cancel s id :
  book_ordered s -> locs_ok s -> index_sound s ->
  index_sound (Main.CancelOrder s id).
Proof.
  intros [Hb Ha] [Hnd _] Hs.
  destruct (orders_ s !! id) as [e0|] eqn:E0;
    [|by rewrite CancelOrder_absent].
  rewrite (CancelOrder_eq s id e0 E0).
  destruct (Hs id e0 E0) as [Hid0 (n0 & Hn0 & Hself0 & Hsame0)].
  assert (Hkeep : forall id' e',
             orderId_ (order e0) <> id' -> orders_ s !! id' = Some e' ->
             exists n, n ∈ level (side_levels s (side_ (order e')))
                                 (price_ (order e')) /\
                       self n = location e' /\ same_order (held n) (order e') /\
                       self n <> location e0).
  { intros id' e' Hne He'.
    destruct (Hs id' e' He') as [Hid (n & Hn & Hself & Hsame)].
    exists n. repeat split; try done; try apply Hsame.
    intros Heq.
    assert (n = n0) as ->.
    { eapply (NoDup_fmap_eq self); eauto using side_levels_all_nodes.
      congruence. }
    destruct Hsame as [Hi _], Hsame0 as [Hi0 _]. congruence. }
  intros id' e' He'.
  assert (He : orderId_ (order e0) <> id' /\ orders_ s !! id' = Some e').
  { destruct (side_ (order e0)); simpl in He';
      by apply lookup_delete_Some in He'. }
  destruct He as [Hne He].
  destruct (Hkeep id' e' Hne He) as (n & Hn & Hself & Hsame & Hloc).
  destruct (Hs id' e' He) as [Hid _].
  split; [done|]. exists n. split; [|done].
  destruct (side_ (order e0)), (side_ (order e')); simpl in *; try done.
  - by apply (erase_node_elem greater _ _ _ _ _ greater_trans greater_irrefl).
  - by apply (erase_node_elem less _ _ _ _ _ less_trans less_irrefl).
Qed.

Lemma index_sound_erase s id :
  index_sound s -> index_sound (with_orders s (delete id (orders_ s))).
Proof.
  intros Hs id' e He. simpl in He. apply lookup_delete_Some in He as [_ He].
  exact (Hs id' e He).
Qed.

Lemma index_sound_front bidPrice askPrice bid (bids : list Node) ask
    (asks : list Node) s s1 trade :
  index_sound s ->
  level (bids_ s) bidPrice = bid :: bids ->
  level (asks_ s) askPrice = ask :: asks ->
  Main.match_front bidPrice askPrice bid ask s = Returned (s1, trade) ->
  index_sound s1.
Proof.
  intros Hs Hb Ha. rewrite match_front_eq. intros [= <- _] id e He.
  simpl in He.
  set (quantity := Z.min (remainingQuantity_ (held bid))
                         (remainingQuantity_ (held ask))) in *.
  assert (H0 : orders_ s !! id = Some e /\
               (isFilled (filled_by quantity (held bid)) = true ->
                orderId_ (held bid) <> id) /\
               (isFilled (filled_by quantity (held ask)) = true ->
                orderId_ (held ask) <> id)).
  { unfold index_after in He.
    destruct (isFilled (filled_by quantity (held bid))),
             (isFilled (filled_by quantity (held ask)));
      repeat (apply lookup_delete_Some in He as [? He]); auto. }
  destruct H0 as (He0 & Hfb & Hfa).
  destruct (Hs id e He0) as [Hid (n & Hn & Hself & Hsame)].
  split; [done|].
  destruct (side_ (order e)) eqn:Esd; simpl in *.
  - destruct (Z.eq_dec bidPrice (price_ (order e))) as [Ep|Hne].
    + rewrite <- Ep in Hn |- *.
      rewrite (level_front_after _ _ _ _ _ Hb). rewrite Hb in Hn.
      apply elem_of_cons in Hn as [->|Hn].
      * destruct (isFilled (filled_by quantity (held bid))).
        -- destruct Hfb; [done|]. destruct Hsame as [Hi _]. congruence.
        -- exists (mkNode (self bid) (filled_by quantity (held bid))).
           split; [apply list_elem_of_here|done].
      * exists n. split; [|done].
        destruct (isFilled _); [done|by apply list_elem_of_further].
    + rewrite level_front_after_ne by done. eauto.
  - destruct (Z.eq_dec askPrice (price_ (order e))) as [Ep|Hne].
    + rewrite <- Ep in Hn |- *.
      rewrite (level_front_after _ _ _ _ _ Ha). rewrite Ha in Hn.
      apply elem_of_cons in Hn as [->|Hn].
      * destruct (isFilled (filled_by quantity (held ask))).
        -- destruct Hfa; [done|]. destruct Hsame as [Hi _]. congruence.
        -- exists (mkNode (self ask) (filled_by quantity (held ask))).
           split; [apply list_elem_of_here|done].
      * exists n. split; [|done].
        destruct (isFilled (filled_by quantity (held ask)));
          [done|by apply list_elem_of_further].
    + rewrite level_front_after_ne by done. eauto.
Qed.

Lemma MatchOrders_sound s s' trades :
  Main.MatchOrders s = Returned (s', trades) ->
  locs_ok s /\ index_sound s -> locs_ok s' /\ index_sound s'.
Proof.
  apply (MatchOrders_inv (fun x => locs_ok x /\ index_sound x)).
  - intros bidPrice askPrice bid bids ask asks x x1 trade [H1 H2] Hb Ha Hf.
    split; [by eapply locs_ok_front|by eapply index_sound_front].
  - intros x id [H1 H2]. split; [done|by apply index_sound_erase].
Qed.

Lemma AddOrder_sound s o s' trades :
  Main.AddOrder s o = Returned (s', trades) ->
  book_ordered s -> locs_ok s /\ index_sound s ->
  locs_ok s' /\ index_sound s'.
Proof.
  rewrite AddOrder_unfold. unfold rejects, contains.
  destruct (orders_ s !! orderId_ o) as [e|] eqn:E.
  - rewrite bool_decide_eq_true_2 by eauto. simpl. by intros [= <- _].
  - destruct (_ || _); [by intros [= <- _]|].
    intros Hm Ho [H1 H2]. eapply MatchOrders_sound; [exact Hm|].
    split; [by apply place_locs_ok|by apply index_sound_place].
Qed.

Lemma call_sound s c s' trades :
  call s c = Returned (s', trades) ->
  book_ordered s -> locs_ok s /\ index_sound s ->
  locs_ok s' /\ index_sound s'.
Proof.
  destruct c as [id ty q p sd|id|m]; simpl.
  - apply AddOrder_sound.
  - intros [= <- _] Ho [H1 H2].
    split; [by apply CancelOrder_locs_ok|by apply index_sound_cancel].
  - unfold Main.ModifyOrder.
    destruct (orders_ s !! m_orderId_ m) as [existing|]; [|by intros [= <- _]].
    destruct (Main.AddOrder _ _) as [[s1 t1]| |] eqn:Ea; simpl; [|done|done].
    intros Hm Ho [H1 H2]. eapply MatchOrders_sound; [exact Hm|].
    eapply AddOrder_sound; [exact Ea|by apply CancelOrder_ordered|].
    split; [by apply CancelOrder_locs_ok|by apply index_sound_cancel].
Qed.

(** In every reachable book, an identifier of the index is the identifier of
    an order that a node of its side and price holds, at the address that
    the entry records. *)
Lemma reachable_by_sound P s :
  reachable_by P s -> locs_ok s /\ index_sound s.
Proof.
  induction 1 as [|s c s' trades Hs IH _ Hc].
  - split; [split; constructor|]. intros id e He. simpl in He.
    by rewrite lookup_empty in He.
  - eapply call_sound; eauto. by eapply reachable_by_ordered.
Qed.

Lemma reachable_index_queued s id :
  reachable s -> in_index s id -> (1 <= queued s id)%nat.
Proof.
  intros Hs [e He]. destruct (reachable_by_sound _ _ Hs) as [_ Hi].
  destruct (Hi id e He) as [Hid (n & Hn & _ & Hsame)].
  apply side_levels_all_nodes in Hn. unfold queued.
  assert (Hf : n ∈ filter (fun n => orderId_ (held n) = id) (all_nodes s)).
  { apply list_elem_of_filter. split; [|done].
    destruct Hsame as [Hi' _]. congruence. }
  destruct (filter _ _); [by apply elem_of_nil in Hf|simpl; lia].
Qed.

(** ** The order of arrival within a price level *)

Lemma aged_below_sublist b (l l' : list Node) :
  l' `sublist_of` l -> aged_below b l -> aged_below b l'.
Proof.
  intros Hs [H1 H2]. split.
  - eapply StronglySorted_sublist; [|exact H1]. by apply fmap_sublist.
  - by eapply Forall_of_sublist.
Qed.

Lemma aged_below_mono b b' (l : list Node) :
  (b <= b')%nat -> aged_below b l -> aged_below b' l.
Proof.
  intros Hle [H1 H2]. split; [done|].
  eapply Forall_impl; [exact H2|]. simpl. intros; lia.
Qed.

Lemma aged_below_set_front b (o' : Order) (l : list Node) :
  aged_below b l -> aged_below b (set_front o' l).
Proof.
  destruct l as [|n l]; [done|]. unfold aged_below. simpl.
  rewrite !Forall_cons. simpl. done.
Qed.

Lemma aged_below_pop_front b (l : list Node) :
  aged_below b l -> aged_below b (pop_front l).
Proof.
  apply aged_below_sublist. destruct l; [done|]. by apply sublist_cons.
Qed.

Lemma aged_below_push_back b (o : Order) (l : list Node) :
  aged_below b l -> aged_below (S b) (push_back (mkNode b o) l).
Proof.
  intros [H1 H2]. unfold push_back. split.
  - rewrite fmap_app. simpl. induction l as [|n l IH]; simpl.
    + repeat constructor.
    + simpl in H1. apply StronglySorted_cons in H1 as [Hn Hl].
      apply Forall_cons in H2 as [Hb H2].
      apply StronglySorted_cons. split; [|by apply IH].
      apply Forall_app. split; [done|].
      apply Forall_cons. split; [exact Hb|constructor].
  - apply Forall_app. split.
    + eapply Forall_impl; [exact H2|]. simpl. intros; lia.
    + apply Forall_cons. split; [simpl; lia|constructor].
Qed.

Lemma levels_aged_level b m k : levels_aged b m -> aged_below b (level m k).
Proof.
  unfold levels_aged. induction m as [|[k' l] m IH]; simpl.
  - intros _. split; constructor.
  - intros H. apply Forall_cons in H as [H1 H2].
    destruct (k' =? k); [done|by apply IH].
Qed.

Lemma levels_aged_update b b' m k f :
  (forall l, aged_below b l -> aged_below b' (f l)) ->
  (forall l, aged_below b l -> aged_below b' l) ->
  levels_aged b m -> levels_aged b' (update k f m).
Proof.
  intros Hf Hw. unfold levels_aged.
  induction m as [|[k' l] m IH]; simpl; [done|].
  intros H. apply Forall_cons in H as [H1 H2]. simpl in H1.
  destruct (k' =? k).
  - apply Forall_cons. split; [by apply Hf|].
    eapply Forall_impl; [exact H2|]. intros kl. apply Hw.
  - apply Forall_cons. split; [by apply Hw|by apply IH].
Qed.

Lemma levels_aged_erase b m k : levels_aged b m -> levels_aged b (erase k m).
Proof.
  unfold levels_aged. induction m as [|[k' l] m IH]; simpl; [done|].
  intros H. apply Forall_cons in H as [H1 H2].
  destruct (k' =? k); [by apply IH|]. apply Forall_cons. auto.
Qed.

Lemma levels_aged_subscript b before m k :
  levels_aged b m -> levels_aged b (subscript before k m).
Proof.
  unfold levels_aged. induction m as [|[k' l] m IH]; simpl.
  - intros _. repeat constructor.
  - intros H. pose proof H as H0. apply Forall_cons in H as [H1 H2].
    destruct (k' =? k); [done|]. destruct (before k k').
    + apply Forall_cons. split; [split; constructor|done].
    + apply Forall_cons. split; [done|by apply IH].
Qed.

Lemma levels_aged_front_after b m k (o' : Order) :
  levels_aged b m -> levels_aged b (front_after k o' m).
Proof.
  intros H. unfold front_after. cbv zeta.
  assert (H1 : levels_aged b (update k (set_front o') m)).
  { apply levels_aged_update with (b := b); [|done|done].
    apply aged_below_set_front. }
  assert (H2 : levels_aged b
                 (if isFilled o' then update k pop_front (update k (set_front o') m)
                  else update k (set_front o') m)).
  { destruct (isFilled o'); [|done].
    apply levels_aged_update with (b := b); [|done|done].
    apply aged_below_pop_front. }
  destruct (is_nil _); [by apply levels_aged_erase|done].
Qed.

Lemma MatchOrders_aged s s' trades :
  Main.MatchOrders s = Returned (s', trades) -> book_aged s -> book_aged s'.
Proof.
  apply (MatchOrders_inv book_aged).
  - intros bidPrice askPrice bid bids ask asks x x1 trade [Hb Ha] _ _.
    rewrite match_front_eq. intros [= <- _]. split; simpl.
    + by apply levels_aged_front_after.
    + by apply levels_aged_front_after.
  - done.
Qed.

Lemma place_aged s o : book_aged s -> book_aged (place s o).
Proof.
  intros [Hb Ha]. unfold place, book_aged.
  assert (Hw : forall l, aged_below (fresh_ s) l -> aged_below (S (fresh_ s)) l).
  { intros l. apply aged_below_mono. lia. }
  assert (Hm : forall m, levels_aged (fresh_ s) m -> levels_aged (S (fresh_ s)) m).
  { intros m H. eapply Forall_impl; [exact H|]. intros kl. apply Hw. }
  destruct (side_ o); simpl; split; auto.
  - apply levels_aged_update with (b := fresh_ s); [|done|].
    + apply aged_below_push_back.
    + by apply levels_aged_subscript.
  - apply levels_aged_update with (b := fresh_ s); [|done|].
    + apply aged_below_push_back.
    + by apply levels_aged_subscript.
Qed.

Lemma CancelOrder_aged s id : book_aged s -> book_aged (Main.CancelOrder s id).
Proof.
  intros [Hb Ha]. unfold Main.CancelOrder.
  destruct (orders_ s !! id) as [entry|]; [|done].
  assert (Hf : forall it l,
             aged_below (fresh_ s) l -> aged_below (fresh_ s) (list_erase it l)).
  { intros it l. apply aged_below_sublist, list_erase_sublist. }
  destruct (side_ (order entry)); simpl.
  - destruct (is_nil _); split; simpl; try done;
      repeat first [apply levels_aged_erase
                   | apply levels_aged_update with (b := fresh_ s);
                     [apply Hf|done|]
                   | apply levels_aged_subscript]; done.
  - destruct (is_nil _); split; simpl; try done;
      repeat first [apply levels_aged_erase
                   | apply levels_aged_update with (b := fresh_ s);
                     [apply Hf|done|]
                   | apply levels_aged_subscript]; done.
Qed.

Lemma call_aged s c s' trades :
  call s c = Returned (s', trades) -> book_aged s -> book_aged s'.
Proof.
  destruct c as [id ty q p sd|id|m]; simpl.
  - rewrite AddOrder_unfold. destruct (rejects s _); [by intros [= <- _]|].
    intros H Hs. eapply MatchOrders_aged; [exact H|]. by apply place_aged.
  - intros [= <- _]. apply CancelOrder_aged.
  - unfold Main.ModifyOrder.
    destruct (orders_ s !! m_orderId_ m) as [existing|]; [|by intros [= <- _]].
    destruct (Main.AddOrder _ _) as [[s1 t1]| |] eqn:Ea; simpl; [|done|done].
    intros H Hs. eapply MatchOrders_aged; [exact H|].
    rewrite AddOrder_unfold in Ea. destruct (rejects _ _).
    + injection Ea as <- _. by apply CancelOrder_aged.
    + eapply MatchOrders_aged; [exact Ea|].
      by apply place_aged, CancelOrder_aged.
Qed.

Lemma reachable_by_aged P s : reachable_by P s -> book_aged s.
Proof.
  induction 1 as [|s c s' trades _ IH _ Hc].
  - split; constructor.
  - by eapply call_aged.
Qed.

(** ** The trades that the loop has appended stay *)

Lemma match_level_prefix fuel bidPrice askPrice s trades s' trades' :
  Main.match_level fuel bidPrice askPrice s trades = Returned (s', trades') ->
  exists rest, trades' = trades ++ rest.
Proof.
  revert s trades. induction fuel as [|fuel IH]; intros s trades; simpl.
  - destruct (level (bids_ s) bidPrice) as [|bid bids].
    { intros [= _ <-]. exists []. by rewrite app_nil_r. }
    destruct (level (asks_ s) askPrice) as [|ask asks]; [|done].
    intros [= _ <-]. exists []. by rewrite app_nil_r.
  - destruct (level (bids_ s) bidPrice) as [|bid bids].
    { intros [= _ <-]. exists []. by rewrite app_nil_r. }
    destruct (level (asks_ s) askPrice) as [|ask asks].
    { intros [= _ <-]. exists []. by rewrite app_nil_r. }
    destruct (Main.match_front _ _ _ _ _) as [[s1 trade]| |]; simpl;
      [|done|done].
    intros [rest ->]%IH. exists (trade :: rest). by rewrite <- app_assoc.
Qed.

Lemma match_pass_prefix s trades s' trades' :
  Main.match_pass s trades = Returned (Some (s', trades')) ->
  exists rest, trades' = trades ++ rest.
Proof.
  unfold Main.match_pass.
  destruct (asks_ s) as [|[askPrice asks] ma]; [done|].
  destruct (bids_ s) as [|[bidPrice bids] mb]; [done|].
  destruct (bidPrice <? askPrice); [done|].
  destruct (Main.match_level _ _ _ _ _) as [[s1 t1]| |] eqn:E; simpl;
    [|done|done].
  intros [= _ <-]. by eapply match_level_prefix.
Qed.

Lemma MatchOrders_loop_prefix fuel s trades s' trades' :
  Main.MatchOrders_loop fuel s trades = Returned (s', trades') ->
  exists rest, trades' = trades ++ rest.
Proof.
  revert s trades. induction fuel as [|fuel IH]; intros s trades; simpl; [done|].
  destruct (Main.match_pass s trades) as [[[s1 t1]|]| |] eqn:Ep; simpl;
    [| |done|done].
  - intros [rest ->]%IH. apply match_pass_prefix in Ep as [rest1 ->].
    exists (rest1 ++ rest). by rewrite app_assoc.
  - intros [= _ <-]. exists []. by rewrite app_nil_r.
Qed.

(** * The claims *)

(** ** End-of-match disposal *)

(** With an order left at the head of the best level, the block erases its
    identifier from the index, whatever its type, and does nothing else. *)
Lemma dispose_bid_head p n l m s :
  bids_ s = (p, n :: l) :: m ->
  Main.dispose_bid p s = with_orders s (delete (orderId_ (held n)) (orders_ s)).
Proof.
  intros Hb. rewrite dispose_bid_eq. unfold Part001.dispose_bid.
  by rewrite Hb, level_head.
Qed.

Lemma dispose_ask_head p n l m s :
  asks_ s = (p, n :: l) :: m ->
  Main.dispose_ask p s = with_orders s (delete (orderId_ (held n)) (orders_ s)).
Proof.
  intros Ha. rewrite dispose_ask_eq. unfold Part001.dispose_ask.
  by rewrite Ha, level_head.
Qed.

Lemma dispose_keeps_queues p s :
  bids_ (Main.dispose_bid p s) = bids_ s /\
  asks_ (Main.dispose_bid p s) = asks_ s /\
  bids_ (Main.dispose_ask p s) = bids_ s /\
  asks_ (Main.dispose_ask p s) = asks_ s.
Proof.
  destruct (dispose_bid_index p s) as [i1 ->].
  destruct (dispose_ask_index p s) as [i2 ->]. done.
Qed.

(** C1 (the code departs from the claim).  The blocks that follow the inner
    loop never take the remaining first order out of its queue, and they
    erase its identifier from the index whatever its type.  A FillAndKill
    buy of 10 against a resting sell of 5 stays in the bid queue with its
    remainder of 5, and so does a FillAndKill sell in the ask queue; a
    GoodTillCancel buy, and a GoodTillCancel sell, in the same position
    stay in their queue but leave the index. *)
Theorem end_of_match_disposal_evaluated :
  (exists s results,
      run call empty_book
        [CallAdd 1 GoodTillCancel 5 100 Sell; CallAdd 2 FillAndKill 10 100 Buy]
      = Returned (s, results) /\
      bids_ s = [(100, [mkNode 1 (mkOrder 2 FillAndKill 10 5 100 Buy)])] /\
      orders_ s !! 2 = None) /\
  (exists s results,
      run call empty_book
        [CallAdd 1 GoodTillCancel 5 100 Sell; CallAdd 2 GoodTillCancel 10 101 Buy]
      = Returned (s, results) /\
      bids_ s = [(101, [mkNode 1 (mkOrder 2 GoodTillCancel 10 5 101 Buy)])] /\
      orders_ s !! 2 = None) /\
  (exists s results,
      run call empty_book
        [CallAdd 1 GoodTillCancel 5 100 Buy; CallAdd 2 GoodTillCancel 10 100 Sell]
      = Returned (s, results) /\
      asks_ s = [(100, [mkNode 1 (mkOrder 2 GoodTillCancel 10 5 100 Sell)])] /\
      orders_ s !! 2 = None) /\
  (exists s results,
      run call empty_book
        [CallAdd 1 GoodTillCancel 5 100 Buy; CallAdd 2 FillAndKill 10 100 Sell]
      = Returned (s, results) /\
      asks_ s = [(100, [mkNode 1 (mkOrder 2 FillAndKill 10 5 100 Sell)])] /\
      orders_ s !! 2 = None).
Proof.
  split; [|split; [|split]]; eexists _, _;
    (split; [vm_compute; reflexivity|]);
    (split; [reflexivity|vm_compute; reflexivity]).
Qed.

(** ** The index and the queues *)

(** C2 (the code departs from the claim).  After a GoodTillCancel sell of 5
    at 100 and a GoodTillCancel buy of 10 at 101, order 2 is in exactly one
    queue and is not in the index. *)
Theorem index_misses_queued_order :
  exists s results,
    run call empty_book
      [CallAdd 1 GoodTillCancel 5 100 Sell; CallAdd 2 GoodTillCancel 10 101 Buy]
    = Returned (s, results) /\
    reachable s /\ queued s 2 = 1%nat /\ ~ in_index s 2.
Proof.
  eexists _, _. split; [vm_compute; reflexivity|].
  split; [|split].
  - refine (run_reachable (fun _ => True)
              [CallAdd 1 GoodTillCancel 5 100 Sell;
               CallAdd 2 GoodTillCancel 10 101 Buy]
              empty_book _ _ (reachable_empty _) _ _);
      [repeat constructor|vm_compute; reflexivity].
  - vm_compute. reflexivity.
  - unfold in_index. intros [e He]. vm_compute in He. discriminate.
Qed.

(** ** Modification *)

(** C3 (the code departs from the claim).  With a sell of 5 resting at 100
    and a buy of 3 resting at 90, modifying the buy to the price 100 makes
    the resubmission by [AddOrder] trade 3 against the sell, and
    [ModifyOrder] returns no trade: it returns the result of a second call
    of [MatchOrders]. *)
Theorem ModifyOrder_drops_trades :
  exists s results s',
    run call empty_book
      [CallAdd 1 GoodTillCancel 5 100 Sell; CallAdd 2 GoodTillCancel 3 90 Buy]
    = Returned (s, results) /\
    in_index s 2 /\
    Main.AddOrder (Main.CancelOrder s 2) (newOrder 2 GoodTillCancel 3 100 Buy)
    = Returned (s', [mkTrade (mkTradeInfos 2 100 3) (mkTradeInfos 1 100 3)]) /\
    Main.ModifyOrder s (mkOrderModify 2 Buy 3 100) = Returned (s', []).
Proof.
  eexists _, _, _. split; [vm_compute; reflexivity|].
  split; [|split].
  - unfold in_index. vm_compute. eauto.
  - vm_compute. reflexivity.
  - vm_compute. reflexivity.
Qed.

(** ** Rejection of a FillAndKill order that cannot match *)

Lemma CanMatch_crosses s side p :
  Main.CanMatch s side p = true <-> crosses s side p.
Proof.
  unfold Main.CanMatch, crosses, best_ask, best_bid.
  destruct side.
  - destruct (asks_ s) as [|[a l] m].
    + split; [done|]. by intros (a & [=] & _).
    + rewrite Z.geb_le. split; [by eauto|]. by intros (a' & [= <-] & H).
  - destruct (bids_ s) as [|[b l] m].
    + split; [done|]. by intros (b & [=] & _).
    + rewrite Z.leb_le. split.
      * intros H. exists b. split; [done|lia].
      * intros (b' & [= <-] & H). lia.
Qed.

(** C4.  A FillAndKill order whose price does not cross the best price of
    the opposite side, or that finds the opposite side empty, is rejected:
    [AddOrder] returns no trade and the book it was given, with no node, no
    index entry and no price level added. *)
Theorem AddOrder_FillAndKill_no_cross s o :
  orderType_ o = FillAndKill ->
  ~ crosses s (side_ o) (price_ o) ->
  Main.AddOrder s o = Returned (s, []).
Proof.
  intros Hty Hno. unfold Main.AddOrder.
  destruct (contains s (orderId_ o)); [done|].
  destruct (Main.CanMatch s (side_ o) (price_ o)) eqn:E.
  - by apply CanMatch_crosses in E.
  - by rewrite Hty.
Qed.

Lemma AddOrder_FillAndKill_no_cross_witness :
  Main.AddOrder resting_ask_105 (newOrder 2 FillAndKill 10 100 Buy)
  = Returned (resting_ask_105, []).
Proof.
  apply AddOrder_FillAndKill_no_cross.
  - reflexivity.
  - simpl. intros (a & [= <-] & H). lia.
Defined.

(** ** One match *)

Lemma MatchOrders_loop_S fuel s trades :
  Main.MatchOrders_loop (S fuel) s trades =
  next ← Main.match_pass s trades;
  match next with
  | None => Returned (s, trades)
  | Some (s', trades') => Main.MatchOrders_loop fuel s' trades'
  end.
Proof. reflexivity. Qed.

(** C5.  Let the best bid level of a book start with [bid] and its best ask
    level with [ask], the best bid price being at least the best ask price
    (equal prices included).  Then the matching loop does not break: its
    pass over the book starts with the iteration of the inner loop on [bid]
    and [ask].  With [quantity] the smaller of the two remaining
    quantities, that iteration fills both orders by [quantity], emits the
    single trade whose legs are the identifier and own price of each order
    with [quantity], and each order leaves its queue when its remaining
    quantity equals [quantity] and otherwise stays first with its remaining
    quantity lowered by [quantity]; the trade is the first of the trades
    that [MatchOrders] returns, and [MatchOrders] returns when no price
    level is empty.  The first order of a level is its oldest: in a
    reachable book every level lists its nodes by increasing address, the
    addresses being given in the order of arrival, and [AddOrder] runs the
    loop on the book in which the order it accepts is behind the orders of
    its price level, at an address above all others.  In Scenario B the
    second call returns one trade of 5 with the ask leg at 100 and the bid
    leg at 101, order 1 is in no queue and order 2 rests at 101 with 5
    remaining; in Scenario A, at equal prices, the second call returns the
    trade of 10 and leaves both sides empty. *)
Theorem crossing_heads_are_matched :
  (forall s bidPrice bid bids mb askPrice ask asks ma fuel trades,
      bids_ s = (bidPrice, bid :: bids) :: mb ->
      asks_ s = (askPrice, ask :: asks) :: ma ->
      bidPrice >= askPrice ->
      let quantity :=
        Z.min (remainingQuantity_ (held bid)) (remainingQuantity_ (held ask)) in
      int32 (remainingQuantity_ (held bid) - quantity) ->
      int32 (remainingQuantity_ (held ask) - quantity) ->
      let trade :=
        mkTrade
          (mkTradeInfos (orderId_ (held bid)) (price_ (held bid)) quantity)
          (mkTradeInfos (orderId_ (held ask)) (price_ (held ask)) quantity) in
      let bid' :=
        mkOrder (orderId_ (held bid)) (orderType_ (held bid))
          (initialQuantity_ (held bid))
          (remainingQuantity_ (held bid) - quantity)
          (price_ (held bid)) (side_ (held bid)) in
      let ask' :=
        mkOrder (orderId_ (held ask)) (orderType_ (held ask))
          (initialQuantity_ (held ask))
          (remainingQuantity_ (held ask) - quantity)
          (price_ (held ask)) (side_ (held ask)) in
      exists s1,
        Main.match_front bidPrice askPrice bid ask s = Returned (s1, trade) /\
        Main.match_level (S fuel) bidPrice askPrice s trades =
        Main.match_level fuel bidPrice askPrice s1 (trades ++ [trade]) /\
        level (bids_ s1) bidPrice =
          (if remainingQuantity_ (held bid) =? quantity then bids
           else mkNode (self bid) bid' :: bids) /\
        level (asks_ s1) askPrice =
          (if remainingQuantity_ (held ask) =? quantity then asks
           else mkNode (self ask) ask' :: asks) /\
        Main.match_pass s trades =
          ('(s2, trades2) ←
             Main.match_level (length bids + S (length asks))
               bidPrice askPrice s1 (trades ++ [trade]);
           Returned
             (Some (Main.dispose_ask askPrice (Main.dispose_bid bidPrice s2),
                    trades2))) /\
        (forall s' trades',
            Main.MatchOrders s = Returned (s', trades') ->
            exists rest, trades' = trade :: rest) /\
        (book_wf s ->
         exists s' rest, Main.MatchOrders s = Returned (s', trade :: rest))) /\
  (forall s,
      reachable s ->
      (forall k,
          StronglySorted lt (self <$> level (bids_ s) k) /\
          StronglySorted lt (self <$> level (asks_ s) k)) /\
      Forall (fun n => (self n < fresh_ s)%nat) (all_nodes s) /\
      (forall o,
          orders_ s !! orderId_ o = None ->
          Main.CanMatch s (side_ o) (price_ o) = true \/
          orderType_ o = GoodTillCancel ->
          Main.AddOrder s o = Main.MatchOrders (place s o) /\
          level (side_levels (place s o) (side_ o)) (price_ o)
          = level (side_levels s (side_ o)) (price_ o) ++ [mkNode (fresh_ s) o])) /\
  (exists s1 trades1 s2,
      call empty_book (CallAdd 1 GoodTillCancel 5 100 Sell)
      = Returned (s1, trades1) /\
      call s1 (CallAdd 2 GoodTillCancel 10 101 Buy)
      = Returned (s2, [mkTrade (mkTradeInfos 2 101 5) (mkTradeInfos 1 100 5)]) /\
      queued s2 1 = 0%nat /\ orders_ s2 !! 1 = None /\
      all_nodes s2 = [mkNode 1 (mkOrder 2 GoodTillCancel 10 5 101 Buy)] /\
      bids_ s2 = [(101, [mkNode 1 (mkOrder 2 GoodTillCancel 10 5 101 Buy)])] /\
      GetLevelInfos s2 = mkOrderBookLevelInfos [mkLevelInfo 101 5] []) /\
  (exists s1 trades1 s2,
      call empty_book (CallAdd 1 GoodTillCancel 10 100 Sell)
      = Returned (s1, trades1) /\
      call s1 (CallAdd 2 GoodTillCancel 10 100 Buy)
      = Returned (s2, [mkTrade (mkTradeInfos 2 100 10) (mkTradeInfos 1 100 10)]) /\
      all_nodes s2 = [] /\ orders_ s2 = ∅).
Proof.
  split; [|split; [|split]].
  - intros s bidPrice bid bids mb askPrice ask asks ma fuel trades Hb Ha Hge
      quantity Hib Hia trade bid' ask'.
    assert (Hlb : level (bids_ s) bidPrice = bid :: bids)
      by (rewrite Hb; apply level_head).
    assert (Hla : level (asks_ s) askPrice = ask :: asks)
      by (rewrite Ha; apply level_head).
    assert (Eb : filled_by quantity (held bid) = bid').
    { unfold filled_by, bid'. by rewrite wrap32_int32. }
    assert (Ea : filled_by quantity (held ask) = ask').
    { unfold filled_by, ask'. by rewrite wrap32_int32. }
    pose proof (match_front_eq bidPrice askPrice bid ask s) as Hm.
    cbv zeta in Hm. fold quantity in Hm. rewrite Eb, Ea in Hm.
    match type of Hm with _ = Returned (?x, _) => set (s1 := x) in * end.
    assert (Hstep : forall f t,
               Main.match_level (S f) bidPrice askPrice s t =
               Main.match_level f bidPrice askPrice s1 (t ++ [trade])).
    { intros f t. simpl. rewrite Hlb, Hla, Hm. reflexivity. }
    assert (Hpass : forall t,
               Main.match_pass s t =
               ('(s2, trades2) ←
                  Main.match_level (length bids + S (length asks))
                    bidPrice askPrice s1 (t ++ [trade]);
                Returned
                  (Some (Main.dispose_ask askPrice
                           (Main.dispose_bid bidPrice s2), trades2)))).
    { intros t. unfold Main.match_pass. rewrite Ha, Hb.
      destruct (Z.ltb_spec bidPrice askPrice) as [Hlt|_]; [lia|].
      change (length (bid :: bids) + length (ask :: asks))%nat
        with (S (length bids + S (length asks))).
      by rewrite Hstep. }
    assert (Hfirst : forall s' trades',
               Main.MatchOrders s = Returned (s', trades') ->
               exists rest, trades' = trade :: rest).
    { intros s' trades'. unfold Main.MatchOrders.
      rewrite MatchOrders_loop_S, Hpass.
      destruct (Main.match_level _ _ _ s1 _) as [[s2 t2]| |] eqn:E; simpl;
        [|done|done].
      apply match_level_prefix in E as [r1 ->].
      intros [r2 ->]%MatchOrders_loop_prefix.
      exists (r1 ++ r2). by rewrite <- app_assoc. }
    exists s1. split; [exact Hm|]. split; [apply Hstep|].
    split; [|split; [|split; [apply Hpass|split; [exact Hfirst|]]]].
    + subst s1. simpl. rewrite (level_front_after _ _ _ _ _ Hlb).
      unfold isFilled, bid'; simpl.
      destruct (Z.eqb_spec (remainingQuantity_ (held bid)) quantity) as [E|E].
      * rewrite E, Z.sub_diag. done.
      * destruct (Z.eqb_spec (remainingQuantity_ (held bid) - quantity) 0);
          [lia|done].
    + subst s1. simpl. rewrite (level_front_after _ _ _ _ _ Hla).
      unfold isFilled, ask'; simpl.
      destruct (Z.eqb_spec (remainingQuantity_ (held ask)) quantity) as [E|E].
      * rewrite E, Z.sub_diag. done.
      * destruct (Z.eqb_spec (remainingQuantity_ (held ask) - quantity) 0);
          [lia|done].
    + intros Hwf. destruct (MatchOrders_returns s Hwf) as (s' & t' & HM & _).
      destruct (Hfirst _ _ HM) as [rest ->]. eauto.
  - intros s Hs.
    destruct (reachable_by_aged _ _ Hs) as [Hab Haa].
    destruct (reachable_by_sound _ _ Hs) as [[_ Hlt] _].
    pose proof (reachable_by_ordered _ _ Hs) as Ho.
    split; [|split; [exact Hlt|]].
    + intros k. split.
      * apply (levels_aged_level _ _ k Hab).
      * apply (levels_aged_level _ _ k Haa).
    + intros o Hnone Hacc. split.
      * rewrite AddOrder_unfold. unfold rejects, contains. rewrite Hnone.
        rewrite bool_decide_eq_false_2 by (by intros [? [=]]). simpl.
        destruct Hacc as [-> | ->]; [done|]. by rewrite andb_false_r.
      * pose proof (place_joins_back s o Ho) as H.
        by destruct (side_ o).
  - eexists _, _, _. split; [vm_compute; reflexivity|].
    split; [vm_compute; reflexivity|].
    repeat (split; [vm_compute; reflexivity|]). vm_compute; reflexivity.
  - eexists _, _, _. split; [vm_compute; reflexivity|].
    split; [vm_compute; reflexivity|].
    split; vm_compute; reflexivity.
Qed.

Lemma crossing_heads_are_matched_witness :
  exists s' rest,
    Main.MatchOrders scenario_A_crossed
    = Returned
        (s', mkTrade (mkTradeInfos 2 100 10) (mkTradeInfos 1 100 10) :: rest).
Proof.
  destruct (proj1 crossing_heads_are_matched scenario_A_crossed
              100 (mkNode 1 (newOrder 2 GoodTillCancel 10 100 Buy)) [] []
              100 (mkNode 0 (newOrder 1 GoodTillCancel 10 100 Sell)) [] []
              O [] eq_refl eq_refl)
    as (s1 & _ & _ & _ & _ & _ & _ & H).
  - lia.
  - unfold int32. simpl. lia.
  - unfold int32. simpl. lia.
  - apply H. split; repeat constructor; done.
Defined.

(** ** The two engines *)

Lemma part001_AddOrder_unfold dangling fuel s order :
  Part001.AddOrder dangling fuel s order =
  if rejects s order then Returned (s, [])
  else Part001.MatchOrders dangling fuel (place s order).
Proof.
  unfold Part001.AddOrder, rejects, place.
  change (Part001.CanMatch s (side_ order) (price_ order))
    with (Main.CanMatch s (side_ order) (price_ order)).
  destruct (contains s (orderId_ order)); [done|]. simpl.
  destruct (negb _ && _); done.
Qed.

(** A read of [quantity] above what the bid has left makes the first [Fill]
    throw. *)
Lemma part001_match_front_throws dangling bidPrice askPrice bid ask s :
  remainingQuantity_ (held bid) <
    dangling
      (Z.min (remainingQuantity_ (held bid)) (remainingQuantity_ (held ask)))
      0%nat ->
  Part001.match_front dangling bidPrice askPrice bid ask s
  = Thrown (orderId_ (held bid)).
Proof.
  intros H. unfold Part001.match_front, Fill. cbv zeta.
  destruct (Z.gtb_spec
              (dangling (Z.min (remainingQuantity_ (held bid))
                               (remainingQuantity_ (held ask))) 0%nat)
              (remainingQuantity_ (held bid))); [done|lia].
Qed.

(** When the two reads in the calls of [Fill] yield the bound value, the
    step does to the book what the step of [main.cpp] does, and the legs of
    its trade carry what the two later reads yield. *)
Lemma part001_match_front_legs dangling bidPrice askPrice bid ask s :
  let quantity :=
    Z.min (remainingQuantity_ (held bid)) (remainingQuantity_ (held ask)) in
  dangling quantity 0%nat = quantity ->
  dangling quantity 1%nat = quantity ->
  Part001.match_front dangling bidPrice askPrice bid ask s =
  '(s1, trade) ← Main.match_front bidPrice askPrice bid ask s;
  Returned
    (s1,
     mkTrade
       (mkTradeInfos (orderId (bidTrade_ trade)) (price (bidTrade_ trade))
          (dangling quantity 2%nat))
       (mkTradeInfos (orderId (askTrade_ trade)) (price (askTrade_ trade))
          (dangling quantity 3%nat))).
Proof.
  intros quantity E0 E1. unfold Part001.match_front, Main.match_front.
  fold quantity. rewrite E0, E1.
  destruct (Fill quantity (held bid)) as [bid'| |]; simpl; [|done|done].
  destruct (Fill quantity (held ask)) as [ask'| |]; simpl; done.
Qed.

Lemma scenario_A_first dangling fuel :
  (0 < fuel)%nat ->
  Part001.AddOrder dangling fuel empty_book
    (newOrder 1 GoodTillCancel 10 100 Sell)
  = Returned (resting_ask_100, []).
Proof.
  intros H. destruct fuel as [|fuel]; [lia|]. vm_compute. reflexivity.
Qed.

Lemma scenario_A_second dangling fuel :
  Part001.AddOrder dangling fuel resting_ask_100
    (newOrder 2 GoodTillCancel 10 100 Buy)
  = Part001.MatchOrders dangling fuel scenario_A_crossed.
Proof.
  rewrite part001_AddOrder_unfold.
  replace (rejects resting_ask_100 (newOrder 2 GoodTillCancel 10 100 Buy))
    with false by (vm_compute; reflexivity).
  reflexivity.
Qed.

Lemma part001_loop_S dangling fuel n s trades :
  Part001.MatchOrders_loop dangling fuel (S n) s trades =
  next ← Part001.match_pass dangling fuel s trades;
  match next with
  | None => Returned (s, trades)
  | Some (s', trades') => Part001.MatchOrders_loop dangling fuel n s' trades'
  end.
Proof. reflexivity. Qed.

Lemma scenario_A_pass dangling fuel trades :
  Part001.match_pass dangling (S fuel) scenario_A_crossed trades =
  '(s, trades) ←
    ('(s', trade) ←
       Part001.match_front dangling 100 100
         (mkNode 1 (newOrder 2 GoodTillCancel 10 100 Buy))
         (mkNode 0 (newOrder 1 GoodTillCancel 10 100 Sell)) scenario_A_crossed;
     Part001.match_level dangling fuel 100 100 s' (trades ++ [trade]));
  Returned
    (Some (Part001.dispose_ask 100 (Part001.dispose_bid 100 s), trades)).
Proof. reflexivity. Qed.

(** C6 (the code departs from the claim).  The blocks after the inner
    loop are no difference between the two engines: when every read of
    [quantity] in the second file yields the value that [std::min]
    returned, the second engine returns, on every sequence of [AddOrder]
    and [CancelOrder] calls that the first engine returns from, the same
    trades call by call and the same book.  The difference is [quantity]
    itself, which the second file reads through a dangling reference.  On
    Scenario A [main.cpp] returns the trade of 10 and an empty book; the
    second engine throws out of the first [Fill] whenever the read there
    yields more than 10, and when the two reads of the calls of [Fill]
    yield 10 it returns a trade whose quantities are whatever the two
    later reads yield. *)
Theorem part001_quantity_dangles :
  (forall calls s r,
      run main_call s calls = Returned r ->
      exists bound,
        forall fuel, (bound <= fuel)%nat ->
          run (part001_call reads_value fuel) s calls = Returned r) /\
  run main_call empty_book scenario_A
  = Returned (scenario_A_end,
              [[]; [mkTrade (mkTradeInfos 2 100 10) (mkTradeInfos 1 100 10)]]) /\
  (forall dangling fuel,
      10 < dangling 10 0%nat -> (0 < fuel)%nat ->
      run (part001_call dangling fuel) empty_book scenario_A = Thrown 2) /\
  (forall dangling fuel,
      dangling 10 0%nat = 10 -> dangling 10 1%nat = 10 -> (2 <= fuel)%nat ->
      run (part001_call dangling fuel) empty_book scenario_A
      = Returned (scenario_A_end,
                  [[]; [mkTrade (mkTradeInfos 2 100 (dangling 10 2%nat))
                                (mkTradeInfos 1 100 (dangling 10 3%nat))]])).
Proof.
  split; [exact part001_run_eq|]. split; [vm_compute; reflexivity|]. split.
  - intros dangling fuel Hd Hf. unfold scenario_A. simpl run.
    rewrite scenario_A_first by done. simpl. rewrite scenario_A_second.
    destruct fuel as [|fuel]; [lia|].
    unfold Part001.MatchOrders.
    rewrite part001_loop_S, scenario_A_pass.
    rewrite part001_match_front_throws; [done|exact Hd].
  - intros dangling fuel E0 E1 Hf. unfold scenario_A. simpl run.
    rewrite scenario_A_first by lia. simpl. rewrite scenario_A_second.
    destruct fuel as [|[|fuel]]; [lia|lia|].
    unfold Part001.MatchOrders.
    rewrite part001_loop_S, scenario_A_pass.
    rewrite part001_match_front_legs; [|exact E0|exact E1].
    vm_compute. reflexivity.
Qed.

Lemma part001_quantity_dangles_witness :
  run (part001_call (fun _ _ => 11) 1) empty_book scenario_A = Thrown 2.
Proof.
  apply (proj1 (proj2 (proj2 part001_quantity_dangles)) (fun _ _ => 11) 1%nat);
    lia.
Defined.

(** ** Termination of the matching loop *)

(** C7.  On a book whose price levels all hold an order, the matching loop
    returns for every amount of fuel above the number of price levels, and
    a pass of the outer loop that does not break leaves such a book again
    and lowers the total resting quantity or the number of price levels
    (it always lowers the latter).  The books that the calls reach from the
    empty book, and the book in which [AddOrder] has placed an order, are of
    this kind, so every call returns. *)
Theorem matching_loop_terminates :
  (forall s fuel trades,
      book_wf s -> (level_count s < fuel)%nat ->
      exists s' trades',
        Main.MatchOrders_loop fuel s trades = Returned (s', trades')) /\
  (forall s trades s' trades',
      book_wf s ->
      Main.match_pass s trades = Returned (Some (s', trades')) ->
      book_wf s' /\
      (total_resting s' < total_resting s \/
       (level_count s' < level_count s)%nat)) /\
  (forall s o, book_wf s -> book_wf (place s o)) /\
  (forall s c,
      reachable s ->
      book_wf s /\ exists s' trades, call s c = Returned (s', trades)).
Proof.
  split; [|split; [|split]].
  - intros s fuel trades Hwf Hlt.
    destruct (MatchOrders_loop_returns fuel s trades Hwf Hlt)
      as (s' & trades' & E & _). eauto.
  - intros s trades s' trades' Hwf Hp.
    destruct (match_pass_wf s trades Hwf)
      as [E|(s1 & t1 & E & Hwf1 & Hlt)]; rewrite E in Hp; [done|].
    injection Hp as <- <-. auto.
  - apply place_wf.
  - intros s c Hs. pose proof (reachable_by_wf _ _ Hs) as Hwf.
    split; [done|].
    destruct (call_returns s c Hwf) as (s' & trades & E & _). eauto.
Qed.

Lemma matching_loop_terminates_witness :
  exists s' trades', Main.MatchOrders_loop 3 crossed_book [] = Returned (s', trades').
Proof.
  apply (proj1 matching_loop_terminates).
  - split; repeat constructor; simpl; discriminate.
  - unfold level_count. simpl. lia.
Defined.

(** ** Bounds of the remaining quantity *)

Lemma descends_never_grows s o s' :
  locs_ok s ->
  descends (mkNode (fresh_ s) o :: all_nodes s) (all_nodes s') ->
  never_grows s s'.
Proof.
  intros [Hnd Hlt] Hd n n' Hn Hn' E.
  destruct (Hd n' Hn') as (x & Hx & E1 & E2 & E3).
  apply elem_of_cons in Hx as [->|Hx].
  - simpl in E1. rewrite Forall_forall in Hlt. specialize (Hlt n Hn). lia.
  - assert (x = n) as ->; [|done].
    eapply (NoDup_fmap_eq self); eauto. congruence.
Qed.

(** C8, refuted as stated.  [AddOrder] takes any quantity: after a sell of
    quantity -5 and a buy of quantity 3 at the same price, the buy order
    rests with a remaining quantity of 8, above its initial quantity of 3 and
    above what it held when it was placed. *)
Lemma remaining_exceeds_initial :
  exists s results n,
    run call empty_book
      [CallAdd 1 GoodTillCancel (-5) 100 Sell; CallAdd 2 GoodTillCancel 3 100 Buy]
    = Returned (s, results) /\
    reachable s /\ n ∈ all_nodes s /\
    ~ (0 <= remainingQuantity_ (held n) <= initialQuantity_ (held n)).
Proof.
  eexists _, _, (mkNode 1 (mkOrder 2 GoodTillCancel 3 8 100 Buy)).
  split; [vm_compute; reflexivity|]. split; [|split].
  - refine (run_reachable (fun _ => True)
              [CallAdd 1 GoodTillCancel (-5) 100 Sell;
               CallAdd 2 GoodTillCancel 3 100 Buy]
              empty_book _ _ (reachable_empty _) _ _);
      [repeat constructor|vm_compute; reflexivity].
  - vm_compute. apply list_elem_of_here.
  - simpl. lia.
Qed.

(** C8, amended.  When every call submits a quantity [q] with
    [0 <= q < 2^31], every order that rests in a reachable book has
    [0 <= remaining <= initial], and no call raises the remaining quantity
    of an order: a node found at the same address before and after a call
    holds the same initial quantity and a remaining quantity that is not
    larger. *)
Theorem remaining_bounded_nonincreasing s :
  reachable_by quantity_ok s ->
  (forall n, n ∈ all_nodes s ->
     0 <= remainingQuantity_ (held n) <= initialQuantity_ (held n)) /\
  (forall c s' trades,
     quantity_ok c -> call s c = Returned (s', trades) -> never_grows s s').
Proof.
  intros Hs. destruct (reachable_ok s Hs) as [Hok Hlocs]. split.
  - intros n Hn. unfold nodes_ok in Hok. rewrite Forall_forall in Hok.
    apply (Hok n Hn).
  - intros c s' trades Hq Hc.
    destruct (call_effect _ _ _ _ Hq Hok Hlocs Hc) as (_ & _ & o & Hd).
    by eapply descends_never_grows.
Qed.

Lemma scenario_B_reachable : reachable_by quantity_ok scenario_B_book.
Proof.
  refine (run_reachable quantity_ok
            [CallAdd 1 GoodTillCancel 5 100 Sell;
             CallAdd 2 GoodTillCancel 10 101 Buy]
            empty_book _ [[]; [mkTrade (mkTradeInfos 2 101 5) (mkTradeInfos 1 100 5)]]
            (reachable_empty _) _ _).
  - constructor; [|constructor; [|constructor]];
      unfold quantity_ok; simpl; intros q H; injection H as <-; lia.
  - vm_compute. reflexivity.
Defined.

Lemma remaining_bounded_nonincreasing_witness :
  (forall n, n ∈ all_nodes scenario_B_book ->
     0 <= remainingQuantity_ (held n) <= initialQuantity_ (held n)) /\
  (forall c s' trades,
     quantity_ok c -> call scenario_B_book c = Returned (s', trades) ->
     never_grows scenario_B_book s').
Proof.
  apply remaining_bounded_nonincreasing. exact scenario_B_reachable.
Defined.

(** ** The overfill error *)

(** C9.  [Fill] throws exactly when the quantity exceeds the remaining
    quantity of the order, and no fill of the matching loop does: a step of
    the inner loop returns in every book, and neither the loop nor
    [AddOrder] nor [ModifyOrder] ever ends in the exception. *)
Theorem overfill_unreachable :
  (forall quantity o,
      (exists id, Fill quantity o = Thrown id) <->
      quantity > remainingQuantity_ o) /\
  (forall bid ask,
      let quantity := Z.min (remainingQuantity_ bid) (remainingQuantity_ ask) in
      (exists bid', Fill quantity bid = Returned bid') /\
      (exists ask', Fill quantity ask = Returned ask')) /\
  (forall bidPrice askPrice bid ask s,
      exists s' trade,
        Main.match_front bidPrice askPrice bid ask s = Returned (s', trade)) /\
  (forall fuel s trades id, Main.MatchOrders_loop fuel s trades <> Thrown id) /\
  (forall s o id, Main.AddOrder s o <> Thrown id) /\
  (forall s m id, Main.ModifyOrder s m <> Thrown id).
Proof.
  split; [|split; [|split; [|split; [|split]]]].
  - intros quantity o. unfold Fill.
    destruct (quantity >? remainingQuantity_ o) eqn:E.
    + split; [lia|eauto].
    + split; [by intros [id [=]]|lia].
  - intros bid ask quantity. split; eexists; apply Fill_le; subst quantity; lia.
  - intros bidPrice askPrice bid ask s. rewrite match_front_eq. eauto.
  - apply MatchOrders_loop_no_throw.
  - apply AddOrder_no_throw.
  - apply ModifyOrder_no_throw.
Qed.

(** ** Quantities that are not positive *)

(** C10.  [AddOrder] does not look at the quantity.  Whether it rejects an
    order does not depend on it; an order of any quantity whose identifier
    is not in the index, and that is GoodTillCancel or crosses the opposite
    side, is placed in its queue and in the index and matched.  An order of quantity -5 submitted to the empty book rests,
    and a GoodTillCancel buy of quantity 0 at the price of a resting sell
    returns a trade whose quantity is 0. *)
Theorem AddOrder_accepts_any_quantity :
  (forall s id ty q q' p sd,
      rejects s (newOrder id ty q p sd) = rejects s (newOrder id ty q' p sd)) /\
  (forall s id ty q p sd,
      orders_ s !! id = None ->
      ty = GoodTillCancel \/ crosses s sd p ->
      let o := newOrder id ty q p sd in
      Main.AddOrder s o = Main.MatchOrders (place s o) /\
      mkNode (fresh_ s) o ∈ all_nodes (place s o) /\
      orders_ (place s o) !! id = Some (mkOrderEntry o (fresh_ s))) /\
  (exists s,
      Main.AddOrder empty_book (newOrder 1 GoodTillCancel (-5) 100 Buy)
      = Returned (s, []) /\
      bids_ s = [(100, [mkNode 0 (newOrder 1 GoodTillCancel (-5) 100 Buy)])]) /\
  (exists s1 trades1 s2,
      Main.AddOrder empty_book (newOrder 1 GoodTillCancel 5 100 Sell)
      = Returned (s1, trades1) /\
      Main.AddOrder s1 (newOrder 2 GoodTillCancel 0 100 Buy)
      = Returned (s2, [mkTrade (mkTradeInfos 2 100 0) (mkTradeInfos 1 100 0)])).
Proof.
  split; [|split; [|split]].
  - done.
  - intros s id ty q p sd Hid Hty o. split; [|split].
    + rewrite AddOrder_unfold. unfold rejects, contains. subst o.
      cbn [newOrder orderId_ orderType_ side_ price_]. rewrite Hid.
      rewrite bool_decide_eq_false_2 by (by intros [? [=]]).
      destruct Hty as [->|Hc].
      * simpl. by rewrite andb_false_r.
      * apply CanMatch_crosses in Hc. by rewrite Hc.
    + destruct (place_nodes s o) as [Hp _]. rewrite Hp. apply list_elem_of_here.
    + unfold place, insert_entry. destruct sd; simpl; rewrite Hid;
        apply lookup_insert_eq.
  - eexists. split; [vm_compute; reflexivity|reflexivity].
  - eexists _, _, _. split; [vm_compute; reflexivity|].
    vm_compute. reflexivity.
Qed.

Lemma AddOrder_accepts_any_quantity_witness :
  let o := newOrder 7 GoodTillCancel (-3) 100 Buy in
  Main.AddOrder scenario_B_book o = Main.MatchOrders (place scenario_B_book o) /\
  mkNode 2 o ∈ all_nodes (place scenario_B_book o) /\
  orders_ (place scenario_B_book o) !! 7 = Some (mkOrderEntry o 2%nat).
Proof.
  exact (proj1 (proj2 AddOrder_accepts_any_quantity)
           scenario_B_book 7 GoodTillCancel (-3) 100 Buy eq_refl
           (or_introl eq_refl)).
Defined.

(** * Further properties of the code *)

(** ** Reachable books used as examples *)

Lemma reachable_by_weaken (P Q : Call -> Prop) s :
  (forall c, P c -> Q c) -> reachable_by P s -> reachable_by Q s.
Proof.
  intros HPQ. induction 1 as [|s c s' trades _ IH Hc Hcall].
  - apply reachable_empty.
  - eapply reachable_call; eauto.
Qed.

Lemma quantity_pos_ok c : quantity_pos c -> quantity_ok c.
Proof. intros H q Hq. specialize (H q Hq). lia. Qed.

Lemma two_sided_reachable : reachable_by quantity_pos two_sided_book.
Proof.
  refine (run_reachable quantity_pos two_sided_calls empty_book _ [[]; []]
            (reachable_empty _) _ _).
  - constructor; [|constructor; [|constructor]];
      unfold quantity_pos; simpl; intros q H; injection H as <-; lia.
  - vm_compute. reflexivity.
Defined.

Lemma two_sided_reachable_ok : reachable_by quantity_ok two_sided_book.
Proof.
  exact (reachable_by_weaken _ _ _ quantity_pos_ok two_sided_reachable).
Defined.

Lemma two_sided_reachable_all : reachable two_sided_book.
Proof.
  exact (reachable_by_weaken _ _ _ (fun _ _ => I) two_sided_reachable).
Defined.

(** ** Orders are listed under their own side and price *)

Section Keyed.

Variable side : Side.

Implicit Types (m : list (Z * list Node)) (k : Z).

Lemma levels_keyed_level m k n :
  levels_keyed side m -> n ∈ level m k -> node_keyed side k n.
Proof.
  unfold levels_keyed. induction m as [|[k' l] m IH]; simpl.
  - by intros _ ?%elem_of_nil.
  - intros H. apply Forall_cons in H as [H1 H2]. simpl in H1.
    destruct (Z.eqb_spec k' k) as [->|]; [|by apply IH].
    rewrite Forall_forall in H1. apply H1.
Qed.

Lemma levels_keyed_update m k f :
  (forall l, Forall (node_keyed side k) l -> Forall (node_keyed side k) (f l)) ->
  levels_keyed side m -> levels_keyed side (update k f m).
Proof.
  intros Hf. unfold levels_keyed. induction m as [|[k' l] m IH]; simpl; [done|].
  intros H. apply Forall_cons in H as [H1 H2]. simpl in H1.
  destruct (Z.eqb_spec k' k) as [->|].
  - apply Forall_cons. split; [by apply Hf|done].
  - apply Forall_cons. split; [done|by apply IH].
Qed.

Lemma levels_keyed_erase m k :
  levels_keyed side m -> levels_keyed side (erase k m).
Proof.
  unfold levels_keyed. induction m as [|[k' l] m IH]; simpl; [done|].
  intros H. apply Forall_cons in H as [H1 H2].
  destruct (k' =? k); [by apply IH|]. apply Forall_cons. auto.
Qed.

Lemma levels_keyed_subscript before m k :
  levels_keyed side m -> levels_keyed side (subscript before k m).
Proof.
  unfold levels_keyed. induction m as [|[k' l] m IH]; simpl.
  - intros _. by repeat constructor.
  - intros H. pose proof H as H0. apply Forall_cons in H as [H1 H2].
    destruct (k' =? k); [done|]. destruct (before k k').
    + apply Forall_cons. split; [by constructor|done].
    + apply Forall_cons. split; [done|by apply IH].
Qed.

Lemma levels_keyed_front_after m k (o' : Order) :
  price_ o' = k -> side_ o' = side ->
  levels_keyed side m -> levels_keyed side (front_after k o' m).
Proof.
  intros Hp Hs H. unfold front_after. cbv zeta.
  assert (H1 : levels_keyed side (update k (set_front o') m)).
  { apply levels_keyed_update; [|done].
    intros [|n l]; [done|]. simpl. rewrite !Forall_cons.
    intros [_ Hl]. split; [by split|done]. }
  assert (H2 : levels_keyed side
                 (if isFilled o' then update k pop_front (update k (set_front o') m)
                  else update k (set_front o') m)).
  { destruct (isFilled o'); [|done].
    apply levels_keyed_update; [|done].
    intros [|n l]; [done|]. simpl. rewrite Forall_cons. tauto. }
  destruct (is_nil _); [by apply levels_keyed_erase|done].
Qed.

End Keyed.

Lemma book_keyed_front bidPrice askPrice bid (bids : list Node) ask
    (asks : list Node) s s1 trade :
  book_keyed s ->
  level (bids_ s) bidPrice = bid :: bids ->
  level (asks_ s) askPrice = ask :: asks ->
  Main.match_front bidPrice askPrice bid ask s = Returned (s1, trade) ->
  book_keyed s1.
Proof.
  intros [Hb Ha] Elb Ela. rewrite match_front_eq. intros [= <- _].
  assert (Kb : node_keyed Buy bidPrice bid).
  { eapply levels_keyed_level; [exact Hb|]. rewrite Elb. apply list_elem_of_here. }
  assert (Ka : node_keyed Sell askPrice ask).
  { eapply levels_keyed_level; [exact Ha|]. rewrite Ela. apply list_elem_of_here. }
  destruct Kb as [Kb1 Kb2], Ka as [Ka1 Ka2].
  split; simpl; by apply levels_keyed_front_after.
Qed.

Lemma MatchOrders_keyed s s' trades :
  Main.MatchOrders s = Returned (s', trades) -> book_keyed s -> book_keyed s'.
Proof.
  apply (MatchOrders_inv book_keyed).
  - intros. by eapply book_keyed_front.
  - done.
Qed.

Lemma place_keyed s o : book_keyed s -> book_keyed (place s o).
Proof.
  intros [Hb Ha]. unfold place, book_keyed.
  destruct (side_ o) eqn:Es; simpl; split; try done.
  - apply levels_keyed_update; [|by apply levels_keyed_subscript].
    intros l Hl. unfold push_back. apply Forall_app. split; [done|].
    by repeat constructor.
  - apply levels_keyed_update; [|by apply levels_keyed_subscript].
    intros l Hl. unfold push_back. apply Forall_app. split; [done|].
    by repeat constructor.
Qed.

Lemma CancelOrder_keyed s id : book_keyed s -> book_keyed (Main.CancelOrder s id).
Proof.
  intros [Hb Ha]. unfold Main.CancelOrder.
  destruct (orders_ s !! id) as [entry|]; [|done].
  assert (Hf : forall sd k it l,
             Forall (node_keyed sd k) l -> Forall (node_keyed sd k) (list_erase it l)).
  { intros sd k it l. apply Forall_of_sublist, list_erase_sublist. }
  destruct (side_ (order entry)); simpl.
  - destruct (is_nil _); split; simpl; try done;
      repeat first [apply levels_keyed_erase | apply levels_keyed_update;
                    [apply Hf|] | apply levels_keyed_subscript]; done.
  - destruct (is_nil _); split; simpl; try done;
      repeat first [apply levels_keyed_erase | apply levels_keyed_update;
                    [apply Hf|] | apply levels_keyed_subscript]; done.
Qed.

Lemma call_keyed s c s' trades :
  call s c = Returned (s', trades) -> book_keyed s -> book_keyed s'.
Proof.
  destruct c as [id ty q p sd|id|m]; simpl.
  - rewrite AddOrder_unfold. destruct (rejects s _); [by intros [= <- _]|].
    intros H Hs. eapply MatchOrders_keyed; [exact H|]. by apply place_keyed.
  - intros [= <- _]. apply CancelOrder_keyed.
  - unfold Main.ModifyOrder.
    destruct (orders_ s !! m_orderId_ m) as [existing|]; [|by intros [= <- _]].
    destruct (Main.AddOrder _ _) as [[s1 t1]| |] eqn:Ea; simpl; [|done|done].
    intros H Hs. eapply MatchOrders_keyed; [exact H|].
    rewrite AddOrder_unfold in Ea. destruct (rejects _ _).
    + injection Ea as <- _. by apply CancelOrder_keyed.
    + eapply MatchOrders_keyed; [exact Ea|].
      by apply place_keyed, CancelOrder_keyed.
Qed.

Lemma reachable_by_keyed P s : reachable_by P s -> book_keyed s.
Proof.
  induction 1 as [|s c s' trades _ IH _ Hc].
  - split; constructor.
  - by eapply call_keyed.
Qed.

(** ** The matching loop and the trades it returns *)

(** A property of the book and of the trades made so far that every step of
    the inner loop keeps, on a pair of levels that cross, and that erasing
    an identifier from the index keeps, is kept by the matching loop. *)
Section LoopInvariantTrades.

Variable P : OrderBook -> Trades -> Prop.

Hypothesis P_front :
  forall bidPrice askPrice bid bids ask asks s trades s1 trade,
    P s trades ->
    askPrice <= bidPrice ->
    level (bids_ s) bidPrice = bid :: bids ->
    level (asks_ s) askPrice = ask :: asks ->
    Main.match_front bidPrice askPrice bid ask s = Returned (s1, trade) ->
    P s1 (trades ++ [trade]).

Hypothesis P_erase : forall s id trades,
  P s trades -> P (with_orders s (delete id (orders_ s))) trades.

Lemma inner_run_inv_trades bidPrice askPrice s trades s' trades' :
  askPrice <= bidPrice ->
  inner_run bidPrice askPrice s trades s' trades' -> P s trades -> P s' trades'.
Proof.
  intros Hle.
  induction 1 as [|s trades bid bids ask asks s1 trade s' trades' Hb Ha Hm _ IH];
    [done|].
  intros HP. apply IH. eapply P_front; eauto.
Qed.

Lemma match_pass_inv_trades s trades s' trades' :
  Main.match_pass s trades = Returned (Some (s', trades')) ->
  P s trades -> P s' trades'.
Proof.
  unfold Main.match_pass.
  destruct (asks_ s) as [|[askPrice asks] ma] eqn:Ea; [done|].
  destruct (bids_ s) as [|[bidPrice bids] mb] eqn:Eb; [done|].
  destruct (Z.ltb_spec bidPrice askPrice) as [|Hle]; [done|].
  destruct (Main.match_level _ _ _ _ _) as [[s1 trades1]| |] eqn:Em;
    simpl; [|done|done].
  intros [= <- <-] HP.
  apply match_level_run in Em.
  pose proof (inner_run_inv_trades _ _ _ _ _ _ Hle Em HP) as HP1.
  assert (HP2 : P (Main.dispose_bid bidPrice s1) trades1).
  { destruct (dispose_bid_cases bidPrice s1) as [->|[i1 ->]]; auto. }
  destruct (dispose_ask_cases askPrice (Main.dispose_bid bidPrice s1))
    as [->|[i2 ->]]; auto.
Qed.

Lemma MatchOrders_loop_inv_trades fuel s trades s' trades' :
  Main.MatchOrders_loop fuel s trades = Returned (s', trades') ->
  P s trades -> P s' trades'.
Proof.
  revert s trades. induction fuel as [|fuel IH]; intros s trades; simpl; [done|].
  destruct (Main.match_pass s trades) as [[[s1 trades1]|]| |] eqn:Ep;
    simpl; [| |done|done].
  - intros H HP. eapply IH; [exact H|]. eapply match_pass_inv_trades; eauto.
  - by intros [= <- <-].
Qed.

Lemma MatchOrders_inv_trades s s' trades' :
  Main.MatchOrders s = Returned (s', trades') -> P s [] -> P s' trades'.
Proof. apply MatchOrders_loop_inv_trades. Qed.

End LoopInvariantTrades.

(** ** The nodes after a step, exactly *)

Lemma nodes_erase_nil before (m : list (Z * list Node)) k :
  (forall a b c, before a b = true -> before b c = true -> before a c = true) ->
  (forall a, before a a = false) ->
  ordered before m -> level m k = [] -> nodes (erase k m) = nodes m.
Proof.
  intros Ht Hi. induction m as [|[k' l] m IH]; simpl; [done|].
  intros Ho. destruct (Z.eqb_spec k' k) as [->|Hne].
  - intros ->. rewrite nodes_cons. simpl.
    rewrite erase_absent; [done|].
    unfold ordered in Ho. simpl in Ho. apply StronglySorted_cons in Ho as [Ho _].
    clear IH. induction m as [|[k0 l0] m IH]; simpl in *; [done|].
    apply Forall_cons in Ho as [H0 Ho]. rewrite (IH Ho), orb_false_r.
    destruct (Z.eqb_spec k0 k) as [->|]; [|done].
    by rewrite Hi in H0.
  - intros Hl. rewrite !nodes_cons, IH; [done| |done].
    unfold ordered in *. simpl in Ho. by apply StronglySorted_cons in Ho as [_ Ho].
Qed.

Lemma nodes_front_after_eq before (m : list (Z * list Node)) k (o' : Order) n
    (l : list Node) :
  (forall a b c, before a b = true -> before b c = true -> before a c = true) ->
  (forall a, before a a = false) ->
  ordered before m ->
  level m k = n :: l ->
  exists pre post,
    nodes m = pre ++ n :: post /\
    nodes (front_after k o' m) =
    pre ++ (if isFilled o' then post else mkNode (self n) o' :: post).
Proof.
  intros Ht Hi Ho Hl. pose proof (level_present _ _ _ _ Hl) as Hin.
  destruct (nodes_update_present m k Hin) as (pre & post & E1 & E2).
  rewrite Hl in E1, E2. simpl in E1.
  exists pre, (l ++ post). split; [done|].
  unfold front_after. cbv zeta.
  destruct (isFilled o').
  - rewrite update_update.
    assert (En : nodes (update k (fun l => pop_front (set_front o' l)) m)
                 = pre ++ l ++ post) by (by rewrite E2).
    destruct (is_nil _) eqn:Enil; [|done].
    rewrite (nodes_erase_nil before); try done.
    + by apply ordered_update.
    + by destruct (level (update k _ m) k).
  - rewrite (level_update m k) by done. rewrite Hl. simpl. by rewrite E2.
Qed.

Lemma sum_remaining_app l1 l2 :
  sum_remaining (l1 ++ l2) = sum_remaining l1 + sum_remaining l2.
Proof.
  unfold sum_remaining. induction l1 as [|n l1 IH]; simpl; [done|].
  rewrite IH. lia.
Qed.

Lemma sum_remaining_perm l1 l2 :
  l1 ≡ₚ l2 -> sum_remaining l1 = sum_remaining l2.
Proof.
  unfold sum_remaining. induction 1; simpl; lia.
Qed.

Lemma total_resting_sum s :
  total_resting s = sum_remaining (all_nodes s).
Proof. reflexivity. Qed.

(** ** Invariants of the reachable books *)

(** X1.  No call leaves an empty price level behind: in every book that the
    calls reach, each price level of either side holds at least one
    order. *)
Theorem reachable_no_empty_level s :
  reachable s -> book_wf s.
Proof. apply reachable_by_wf. Qed.

Lemma reachable_no_empty_level_witness : book_wf two_sided_book.
Proof. exact (reachable_no_empty_level two_sided_book two_sided_reachable_all). Defined.

Lemma GetLevelInfos_prices s :
  map li_price (GetBidsLevelInfos (GetLevelInfos s)) = keys (bids_ s) /\
  map li_price (GetAsksLevelInfos (GetLevelInfos s)) = keys (asks_ s).
Proof.
  unfold GetLevelInfos, keys; simpl. rewrite !map_map.
  split; apply map_ext; by intros [k l].
Qed.

Lemma StronglySorted_weaken {A : Type} (R R' : A -> A -> Prop) (l : list A) :
  (forall a b, R a b -> R' a b) -> StronglySorted R l -> StronglySorted R' l.
Proof.
  intros HR. induction l as [|x l IH]; [constructor|].
  rewrite !StronglySorted_cons. intros [H1 H2]. split; [|by apply IH].
  eapply Forall_impl; [exact H1|]. apply HR.
Qed.

(** X2.  The snapshot of a reachable book lists the bid levels by strictly
    decreasing price and the ask levels by strictly increasing price, and
    its first bid price is below its first ask price: the book holds no
    cross between two calls. *)
Theorem GetLevelInfos_sorted_uncrossed s :
  reachable s ->
  let infos := GetLevelInfos s in
  StronglySorted (fun a b => a > b) (map li_price (GetBidsLevelInfos infos)) /\
  StronglySorted (fun a b => a < b) (map li_price (GetAsksLevelInfos infos)) /\
  (forall b a, b ∈ map li_price (GetBidsLevelInfos infos) ->
               a ∈ map li_price (GetAsksLevelInfos infos) -> b < a).
Proof.
  intros Hs infos. subst infos.
  destruct (GetLevelInfos_prices s) as [-> ->].
  destruct (reachable_by_ordered _ _ Hs) as [Hb Ha].
  pose proof (reachable_by_uncrossed _ _ Hs) as Hu.
  split; [|split].
  - eapply StronglySorted_weaken; [|exact Hb].
    unfold greater. simpl. intros; lia.
  - eapply StronglySorted_weaken; [|exact Ha].
    unfold less. simpl. intros; lia.
  - intros b a Hbe Hae. unfold uncrossed in Hu.
    destruct (asks_ s) as [|[a0 la] ma]; [by apply elem_of_nil in Hae|].
    destruct (bids_ s) as [|[b0 lb] mb]; [by apply elem_of_nil in Hbe|].
    pose proof (ordered_greater_head _ _ _ _ Hb Hbe).
    pose proof (ordered_less_head _ _ _ _ Ha Hae). lia.
Qed.

Lemma GetLevelInfos_sorted_uncrossed_witness :
  let infos := GetLevelInfos two_sided_book in
  StronglySorted (fun a b => a > b) (map li_price (GetBidsLevelInfos infos)) /\
  StronglySorted (fun a b => a < b) (map li_price (GetAsksLevelInfos infos)) /\
  (forall b a, b ∈ map li_price (GetBidsLevelInfos infos) ->
               a ∈ map li_price (GetAsksLevelInfos infos) -> b < a).
Proof.
  exact (GetLevelInfos_sorted_uncrossed two_sided_book two_sided_reachable_all).
Defined.

(** X3.  Every order of a reachable book rests under its own price on its
    own side: a node of the bid level of price [k] holds a buy order of
    price [k], and a node of the ask level of price [k] a sell order of
    price [k]. *)
Theorem reachable_orders_keyed s k n :
  reachable s ->
  (n ∈ level (bids_ s) k -> price_ (held n) = k /\ side_ (held n) = Buy) /\
  (n ∈ level (asks_ s) k -> price_ (held n) = k /\ side_ (held n) = Sell).
Proof.
  intros Hs. destruct (reachable_by_keyed _ _ Hs) as [Hb Ha].
  split; intros Hn.
  - exact (levels_keyed_level Buy _ _ _ Hb Hn).
  - exact (levels_keyed_level Sell _ _ _ Ha Hn).
Qed.

Lemma reachable_orders_keyed_witness :
  let n := mkNode 1 (newOrder 2 GoodTillCancel 3 100 Buy) in
  (n ∈ level (bids_ two_sided_book) 100 ->
   price_ (held n) = 100 /\ side_ (held n) = Buy) /\
  (n ∈ level (asks_ two_sided_book) 100 ->
   price_ (held n) = 100 /\ side_ (held n) = Sell).
Proof.
  exact (reachable_orders_keyed two_sided_book 100 _ two_sided_reachable_all).
Defined.

(** X4.  In every reachable book the index is sound and the node addresses
    are distinct: the entry of an identifier holds an order of that
    identifier, its iterator denotes a node of the list of the order's side
    and price, and this node holds the order (same identifier, type, initial
    quantity, price and side); no two nodes of the book share an address. *)
Theorem reachable_index_sound s :
  reachable s ->
  NoDup (self <$> all_nodes s) /\
  (forall id e,
      orders_ s !! id = Some e ->
      orderId_ (order e) = id /\
      exists n,
        n ∈ level (side_levels s (side_ (order e))) (price_ (order e)) /\
        self n = location e /\ same_order (held n) (order e)).
Proof.
  intros Hs. destruct (reachable_by_sound _ _ Hs) as [[Hnd _] Hi].
  split; [done|]. intros id e He. exact (Hi id e He).
Qed.

Lemma reachable_index_sound_witness :
  NoDup (self <$> all_nodes two_sided_book) /\
  (forall id e,
      orders_ two_sided_book !! id = Some e ->
      orderId_ (order e) = id /\
      exists n,
        n ∈ level (side_levels two_sided_book (side_ (order e)))
                  (price_ (order e)) /\
        self n = location e /\ same_order (held n) (order e)).
Proof.
  exact (reachable_index_sound two_sided_book two_sided_reachable_all).
Defined.

(** ** Cancellation *)

Lemma filter_self_other (l : list Node) it :
  (forall x, x ∈ l -> self x <> it) -> filter (fun x => self x <> it) l = l.
Proof.
  induction l as [|x l IH]; [done|]. intros H.
  rewrite filter_cons_True by (apply H, list_elem_of_here).
  rewrite IH; [done|]. intros y Hy. by apply H, list_elem_of_further.
Qed.

Lemma list_erase_filter (l : list Node) it :
  NoDup (self <$> l) -> list_erase it l = filter (fun x => self x <> it) l.
Proof.
  induction l as [|x l IH]; [done|].
  rewrite fmap_cons, NoDup_cons. intros [Hx Hnd]. simpl.
  destruct (Nat.eqb_spec (self x) it) as [E|E].
  - rewrite filter_cons_False by (intros H; by apply H).
    rewrite filter_self_other; [done|]. intros y Hy Hself.
    apply Hx. rewrite E, <- Hself. by apply list_elem_of_fmap_2.
  - rewrite filter_cons_True by done. by rewrite IH.
Qed.

Lemma subscript_at_level before (m : list (Z * list Node)) k :
  (forall a b c, before a b = true -> before b c = true -> before a c = true) ->
  (forall a, before a a = false) ->
  ordered before m -> level m k <> [] -> subscript before k m = m.
Proof.
  intros Ht Hi Ho Hl.
  apply (subscript_present before m k (fun l => l)); [done|].
  by rewrite (level_update_subscript before Ht Hi).
Qed.

Lemma erase_node_nodes before (m : list (Z * list Node)) p it n :
  (forall a b c, before a b = true -> before b c = true -> before a c = true) ->
  (forall a, before a a = false) ->
  ordered before m -> n ∈ level m p -> self n = it ->
  NoDup (self <$> nodes m) ->
  nodes (erase_node before p it m) = filter (fun x => self x <> it) (nodes m).
Proof.
  intros Ht Hi Ho Hn Hself Hnd. unfold erase_node. cbv zeta.
  assert (Hne : level m p <> []) by (intros E; rewrite E in Hn; by apply elem_of_nil in Hn).
  rewrite (subscript_at_level before m p Ht Hi Ho Hne).
  assert (Hin : contains_level m p = true).
  { destruct (contains_level m p) eqn:E; [done|]. by apply level_absent in E. }
  destruct (nodes_update_present m p Hin) as (pre & post & E1 & E2).
  assert (En : nodes (update p (list_erase it) m)
               = filter (fun x => self x <> it) (nodes m)).
  { rewrite E2, E1, !filter_app.
    rewrite E1, !fmap_app in Hnd.
    apply NoDup_app in Hnd as (_ & Hpre & Hnd).
    apply NoDup_app in Hnd as (Hlv & Hpost & _).
    rewrite (list_erase_filter _ _ Hlv).
    rewrite (filter_self_other pre), (filter_self_other post); [done|..].
    - intros x Hx E. apply (Hpost (self x)).
      + rewrite E, <- Hself. by apply list_elem_of_fmap_2.
      + by apply list_elem_of_fmap_2.
    - intros x Hx E. apply (Hpre (self x)); [by apply list_elem_of_fmap_2|].
      apply elem_of_app. left. rewrite E, <- Hself.
      by apply list_elem_of_fmap_2. }
  destruct (is_nil _) eqn:Enil; [|done].
  rewrite (nodes_erase_nil before); try done.
  - by apply ordered_update.
  - by destruct (level (update p (list_erase it) m) p).
Qed.

(** X5.  [CancelOrder] of an identifier of the index of a reachable book
    takes exactly the order's node out of the book: the nodes that remain
    are the nodes of the book but the one at the recorded iterator, in
    their order and with their state; that node held an order of this
    identifier; the identifier leaves the index and no other entry does;
    and a second [CancelOrder] of the identifier changes nothing. *)
Theorem CancelOrder_removes_node s id e :
  reachable s ->
  orders_ s !! id = Some e ->
  let s' := Main.CancelOrder s id in
  (exists n, n ∈ all_nodes s /\ self n = location e /\
             orderId_ (held n) = id /\ n ∉ all_nodes s') /\
  all_nodes s' = filter (fun x => self x <> location e) (all_nodes s) /\
  orders_ s' = delete id (orders_ s) /\
  Main.CancelOrder s' id = s'.
Proof.
  intros Hs He s'.
  destruct (reachable_by_sound _ _ Hs) as [[Hnd _] Hi].
  destruct (reachable_by_ordered _ _ Hs) as [Hob Hoa].
  destruct (Hi id e He) as [Hid (n & Hn & Hself & Hsame)].
  assert (Hall : all_nodes s' = filter (fun x => self x <> location e) (all_nodes s)).
  { subst s'. rewrite (CancelOrder_eq s id e He).
    unfold all_nodes in *. rewrite filter_app.
    rewrite fmap_app in Hnd.
    apply NoDup_app in Hnd as (Hnb & Hdis & Hna).
    destruct (side_ (order e)); simpl in *.
    - rewrite (erase_node_nodes greater _ _ _ n greater_trans greater_irrefl)
        by done.
      rewrite (filter_self_other (nodes (asks_ s))); [done|].
      intros x Hx E. apply (Hdis (self x)); [|by apply list_elem_of_fmap_2].
      rewrite E, <- Hself. apply list_elem_of_fmap_2.
      by apply level_elem_nodes in Hn.
    - rewrite (erase_node_nodes less _ _ _ n less_trans less_irrefl) by done.
      rewrite (filter_self_other (nodes (bids_ s))); [done|].
      intros x Hx E. apply (Hdis (self x)); [by apply list_elem_of_fmap_2|].
      rewrite E, <- Hself. apply list_elem_of_fmap_2.
      by apply level_elem_nodes in Hn. }
  assert (Hord : orders_ s' = delete id (orders_ s)).
  { subst s'. rewrite (CancelOrder_eq s id e He), Hid.
    by destruct (side_ (order e)). }
  split; [|split; [done|split; [done|]]].
  - exists n. split; [by eapply side_levels_all_nodes|]. split; [done|].
    split; [destruct Hsame as [H _]; congruence|].
    rewrite Hall. intros [H _]%list_elem_of_filter. by apply H.
  - apply CancelOrder_absent. rewrite Hord. apply lookup_delete_eq.
Qed.

Lemma CancelOrder_removes_node_witness :
  let s' := Main.CancelOrder two_sided_book 2 in
  let e := mkOrderEntry (newOrder 2 GoodTillCancel 3 100 Buy) 1%nat in
  (exists n, n ∈ all_nodes two_sided_book /\ self n = location e /\
             orderId_ (held n) = 2 /\ n ∉ all_nodes s') /\
  all_nodes s' = filter (fun x => self x <> location e) (all_nodes two_sided_book) /\
  orders_ s' = delete 2 (orders_ two_sided_book) /\
  Main.CancelOrder s' 2 = s'.
Proof.
  exact (CancelOrder_removes_node two_sided_book 2 _ two_sided_reachable_all eq_refl).
Defined.

(** ** An order that rests, and its cancellation *)

Lemma place_uncrossed s o :
  uncrossed s -> ~ crosses s (side_ o) (price_ o) -> uncrossed (place s o).
Proof.
  unfold uncrossed, crosses, best_ask, best_bid, place.
  destruct (side_ o); simpl; intros Hu Hno.
  - destruct (asks_ s) as [|[a la] ma]; [done|].
    assert (Hp : price_ o < a).
    { destruct (Z.lt_ge_cases (price_ o) a); [done|]. destruct Hno; eauto. }
    destruct (bids_ s) as [|[b lb] mb]; simpl.
    + by rewrite Z.eqb_refl.
    + destruct (b =? price_ o) eqn:E; simpl; rewrite ?E; [done|].
      destruct (greater (price_ o) b); simpl; rewrite ?Z.eqb_refl, ?E; done.
  - destruct (bids_ s) as [|[b lb] mb].
    { by destruct (update _ _ _) as [|[? ?] ?]. }
    assert (Hp : b < price_ o).
    { destruct (Z.lt_ge_cases b (price_ o)); [done|].
      destruct Hno. exists b. split; [done|lia]. }
    destruct (asks_ s) as [|[a la] ma]; simpl.
    + by rewrite Z.eqb_refl.
    + destruct (a =? price_ o) eqn:E; simpl; rewrite ?E; [done|].
      destruct (less (price_ o) a); simpl; rewrite ?Z.eqb_refl, ?E; done.
Qed.

Lemma list_erase_push_back (l : list Node) it o :
  (forall x, x ∈ l -> self x <> it) ->
  list_erase it (push_back (mkNode it o) l) = l.
Proof.
  unfold push_back. induction l as [|x l IH]; simpl; intros H.
  - by rewrite Nat.eqb_refl.
  - destruct (Nat.eqb_spec (self x) it) as [E|_].
    + destruct (H x (list_elem_of_here _ _) E).
    + rewrite IH; [done|]. intros y Hy. by apply H, list_elem_of_further.
Qed.

Lemma ordered_not_contains before k' (l : list Node) (m : list (Z * list Node)) k :
  (forall a b c, before a b = true -> before b c = true -> before a c = true) ->
  (forall a, before a a = false) ->
  ordered before ((k', l) :: m) -> before k k' = true ->
  contains_level m k = false.
Proof.
  intros Ht Hi. unfold ordered. simpl. rewrite StronglySorted_cons.
  intros [H _] Hk.
  induction m as [|[k0 l0] m IH]; simpl in *; [done|].
  apply Forall_cons in H as [H0 H]. rewrite (IH H), orb_false_r.
  destruct (Z.eqb_spec k0 k) as [->|]; [|done].
  pose proof (Ht _ _ _ Hk H0) as Hkk. by rewrite Hi in Hkk.
Qed.

(** Placing a node at the back of its level and erasing it again gives the
    map back. *)
Lemma erase_node_push_back before (m : list (Z * list Node)) p it o :
  (forall a b c, before a b = true -> before b c = true -> before a c = true) ->
  (forall a, before a a = false) ->
  ordered before m -> levels_wf m ->
  (forall x, x ∈ level m p -> self x <> it) ->
  erase_node before p it
    (update p (push_back (mkNode it o)) (subscript before p m)) = m.
Proof.
  intros Ht Hi. unfold erase_node. cbv zeta.
  induction m as [|[k' l] m IH]; intros Ho Hwf Hfresh.
  - simpl. rewrite !Z.eqb_refl. simpl. rewrite !Z.eqb_refl. simpl.
    rewrite !Z.eqb_refl. simpl. by rewrite Nat.eqb_refl, Z.eqb_refl.
  - simpl in Hfresh |- *. destruct (k' =? p) eqn:E.
    + simpl. rewrite E. simpl. rewrite E. simpl. rewrite E.
      rewrite list_erase_push_back by done.
      apply Forall_cons in Hwf as [Hl _]. simpl in Hl. simpl. rewrite E.
      by destruct l.
    + destruct (before p k') eqn:Eb.
      * simpl. rewrite !Z.eqb_refl. simpl. rewrite !Z.eqb_refl. simpl.
        rewrite !Z.eqb_refl, Nat.eqb_refl. simpl. rewrite Z.eqb_refl, E.
        f_equal. apply erase_absent.
        by apply (ordered_not_contains before k' l m p).
      * simpl. rewrite E. simpl. rewrite E, Eb. simpl. rewrite E. simpl.
        rewrite E.
        assert (Ho' : ordered before m).
        { unfold ordered in *. simpl in Ho.
          by apply StronglySorted_cons in Ho as [_ Ho]. }
        apply Forall_cons in Hwf as [_ Hwf].
        specialize (IH Ho' Hwf Hfresh).
        destruct (is_nil _); simpl; rewrite ?E; by rewrite IH.
Qed.

Lemma place_then_cancel s o :
  book_ordered s -> book_wf s -> locs_ok s ->
  orders_ s !! orderId_ o = None ->
  Main.CancelOrder (place s o) (orderId_ o) = with_fresh s (S (fresh_ s)).
Proof.
  intros [Hob Hoa] [Hwb Hwa] [_ Hlt] Hnone.
  assert (He : orders_ (place s o) !! orderId_ o
               = Some (mkOrderEntry o (fresh_ s))).
  { rewrite place_orders. unfold insert_entry. rewrite Hnone.
    apply lookup_insert_eq. }
  rewrite (CancelOrder_eq _ _ _ He). rewrite place_orders.
  unfold insert_entry. rewrite Hnone. simpl.
  rewrite (delete_insert_id _ _ _ Hnone).
  assert (Hfresh : forall sd k x,
             x ∈ level (side_levels s sd) k -> self x <> fresh_ s).
  { intros sd k x Hx%side_levels_all_nodes.
    rewrite Forall_forall in Hlt. specialize (Hlt x Hx). lia. }
  unfold place, with_fresh. destruct s as [b a idx f].
  destruct (side_ o); simpl in *; f_equal.
  - apply (erase_node_push_back greater _ _ _ _ greater_trans greater_irrefl);
      try done. apply (Hfresh Buy).
  - apply (erase_node_push_back less _ _ _ _ less_trans less_irrefl);
      try done. apply (Hfresh Sell).
Qed.

Lemma AddOrder_rests s o :
  book_ordered s -> uncrossed s ->
  orders_ s !! orderId_ o = None ->
  orderType_ o = GoodTillCancel ->
  ~ crosses s (side_ o) (price_ o) ->
  Main.AddOrder s o = Returned (place s o, []).
Proof.
  intros Ho Hu Hnone Hty Hno. rewrite AddOrder_unfold.
  unfold rejects, contains. rewrite Hnone, Hty.
  rewrite bool_decide_eq_false_2 by (by intros [? [=]]).
  simpl. rewrite andb_false_r.
  apply MatchOrders_uncrossed. by apply place_uncrossed.
Qed.

(** X6.  A GoodTillCancel order whose identifier is not in the index and
    whose price does not cross the opposite side rests: in a reachable book
    [AddOrder] returns no trade, puts the order behind the orders of its
    price level, records it in the index under its identifier with the
    address of its node, and leaves the other side as it was. *)
Theorem AddOrder_GoodTillCancel_rests s o :
  reachable s ->
  orders_ s !! orderId_ o = None ->
  orderType_ o = GoodTillCancel ->
  ~ crosses s (side_ o) (price_ o) ->
  exists s',
    Main.AddOrder s o = Returned (s', []) /\
    level (side_levels s' (side_ o)) (price_ o)
    = level (side_levels s (side_ o)) (price_ o) ++ [mkNode (fresh_ s) o] /\
    orders_ s' = <[orderId_ o := mkOrderEntry o (fresh_ s)]> (orders_ s) /\
    match side_ o with
    | Buy => asks_ s' = asks_ s
    | Sell => bids_ s' = bids_ s
    end.
Proof.
  intros Hs Hnone Hty Hno.
  pose proof (reachable_by_ordered _ _ Hs) as Ho.
  pose proof (reachable_by_uncrossed _ _ Hs) as Hu.
  exists (place s o). split; [by apply AddOrder_rests|]. split; [|split].
  - pose proof (place_joins_back s o Ho) as Hp. by destruct (side_ o).
  - rewrite place_orders. unfold insert_entry. by rewrite Hnone.
  - unfold place. by destruct (side_ o).
Qed.

Lemma AddOrder_GoodTillCancel_rests_witness :
  let o := newOrder 3 GoodTillCancel 4 102 Buy in
  exists s',
    Main.AddOrder two_sided_book o = Returned (s', []) /\
    level (side_levels s' (side_ o)) (price_ o)
    = level (side_levels two_sided_book (side_ o)) (price_ o)
      ++ [mkNode (fresh_ two_sided_book) o] /\
    orders_ s' = <[orderId_ o := mkOrderEntry o (fresh_ two_sided_book)]>
                   (orders_ two_sided_book) /\
    match side_ o with
    | Buy => asks_ s' = asks_ two_sided_book
    | Sell => bids_ s' = bids_ two_sided_book
    end.
Proof.
  apply (AddOrder_GoodTillCancel_rests two_sided_book
           (newOrder 3 GoodTillCancel 4 102 Buy) two_sided_reachable_all).
  - reflexivity.
  - reflexivity.
  - simpl. intros (a & Ha & Hle). injection Ha as <-. lia.
Defined.

(** X7.  Adding and cancelling is a round trip: when [AddOrder] lets a
    GoodTillCancel order rest in a reachable book (identifier not in the
    index, price not crossing), [CancelOrder] of its identifier gives the
    book back, queues and index, with only the address counter advanced. *)
Theorem AddOrder_then_CancelOrder s o :
  reachable s ->
  orders_ s !! orderId_ o = None ->
  orderType_ o = GoodTillCancel ->
  ~ crosses s (side_ o) (price_ o) ->
  exists s',
    Main.AddOrder s o = Returned (s', []) /\
    Main.CancelOrder s' (orderId_ o) = with_fresh s (S (fresh_ s)).
Proof.
  intros Hs Hnone Hty Hno.
  pose proof (reachable_by_ordered _ _ Hs) as Ho.
  pose proof (reachable_by_uncrossed _ _ Hs) as Hu.
  pose proof (reachable_by_wf _ _ Hs) as Hwf.
  destruct (reachable_by_sound _ _ Hs) as [Hlocs _].
  exists (place s o). split; [by apply AddOrder_rests|].
  by apply place_then_cancel.
Qed.

Lemma AddOrder_then_CancelOrder_witness :
  let o := newOrder 3 GoodTillCancel 4 102 Buy in
  exists s',
    Main.AddOrder two_sided_book o = Returned (s', []) /\
    Main.CancelOrder s' (orderId_ o) = with_fresh two_sided_book 3.
Proof.
  apply (AddOrder_then_CancelOrder two_sided_book
           (newOrder 3 GoodTillCancel 4 102 Buy) two_sided_reachable_all).
  - reflexivity.
  - reflexivity.
  - simpl. intros (a & Ha & Hle). injection Ha as <-. lia.
Defined.

(** ** Trades and resting quantities *)

Lemma all_nodes_front_eq bidPrice askPrice bid (bids : list Node) ask
    (asks : list Node) s s1 trade :
  book_ordered s ->
  level (bids_ s) bidPrice = bid :: bids ->
  level (asks_ s) askPrice = ask :: asks ->
  Main.match_front bidPrice askPrice bid ask s = Returned (s1, trade) ->
  let quantity :=
    Z.min (remainingQuantity_ (held bid)) (remainingQuantity_ (held ask)) in
  let bid' := filled_by quantity (held bid) in
  let ask' := filled_by quantity (held ask) in
  exists pb qb pa qa,
    all_nodes s = (pb ++ bid :: qb) ++ (pa ++ ask :: qa) /\
    all_nodes s1 =
      (pb ++ (if isFilled bid' then qb else mkNode (self bid) bid' :: qb)) ++
      (pa ++ (if isFilled ask' then qa else mkNode (self ask) ask' :: qa)) /\
    trade = trade_of quantity (held bid) (held ask) /\
    book_ordered s1.
Proof.
  intros [Hob Hoa] Hb Ha. rewrite match_front_eq.
  intros [= <- <-] quantity bid' ask'.
  destruct (nodes_front_after_eq greater _ _ bid' _ _
              greater_trans greater_irrefl Hob Hb) as (pb & qb & Eb & Sb).
  destruct (nodes_front_after_eq less _ _ ask' _ _
              less_trans less_irrefl Hoa Ha) as (pa & qa & Ea & Sa).
  exists pb, qb, pa, qa. unfold all_nodes; simpl.
  rewrite Eb, Ea. fold quantity. fold bid' ask'. rewrite Sb, Sa.
  repeat split; try done; simpl; by apply ordered_front_after.
Qed.

Lemma sum_remaining_front (pre post : list Node) a (o' : Order) :
  sum_remaining (pre ++ (if isFilled o' then post else mkNode a o' :: post))
  = sum_remaining pre + remainingQuantity_ o' + sum_remaining post.
Proof.
  rewrite sum_remaining_app. unfold isFilled.
  destruct (Z.eqb_spec (remainingQuantity_ o') 0) as [E|E].
  - rewrite E. lia.
  - unfold sum_remaining at 2. simpl. fold (sum_remaining post). lia.
Qed.

Lemma traded_app t1 t2 : traded (t1 ++ t2) = traded t1 + traded t2.
Proof.
  unfold traded. induction t1 as [|t t1 IH]; simpl; [done|]. rewrite IH. lia.
Qed.

(** A step of the inner loop lowers the resting quantity by twice the
    quantity of its trade. *)
Lemma total_resting_front bidPrice askPrice bid (bids : list Node) ask
    (asks : list Node) s s1 trade :
  book_ordered s -> nodes_ok s ->
  level (bids_ s) bidPrice = bid :: bids ->
  level (asks_ s) askPrice = ask :: asks ->
  Main.match_front bidPrice askPrice bid ask s = Returned (s1, trade) ->
  total_resting s1 = total_resting s - 2 * trade_quantity trade /\
  0 <= trade_quantity trade.
Proof.
  intros Ho Hok Hb Ha Hm.
  destruct (all_nodes_front_eq _ _ _ _ _ _ _ _ _ Ho Hb Ha Hm)
    as (pb & qb & pa & qa & E & E1 & -> & _).
  rewrite !total_resting_sum, E1, E.
  unfold nodes_ok in Hok. rewrite E in Hok.
  rewrite !Forall_app, !Forall_cons in Hok.
  destruct Hok as ((_ & Hbid & _) & (_ & Hask & _)).
  destruct (filled_by_ok _ _ Hbid Hask) as (_ & Hb2 & Hq).
  destruct (filled_by_ok _ _ Hask Hbid) as (_ & Ha2 & _).
  rewrite (Z.min_comm (remainingQuantity_ (held ask))) in Ha2.
  rewrite sum_remaining_app, !sum_remaining_front, Hb2, Ha2.
  rewrite !sum_remaining_app. unfold sum_remaining at 4 6. simpl.
  fold (sum_remaining qb). fold (sum_remaining qa).
  unfold trade_quantity. simpl. split; [lia|done].
Qed.

Lemma total_resting_place s o :
  total_resting (place s o) = total_resting s + remainingQuantity_ o.
Proof.
  rewrite !total_resting_sum. destruct (place_nodes s o) as [Hp _].
  rewrite (sum_remaining_perm _ _ Hp). unfold sum_remaining. simpl. lia.
Qed.

Lemma MatchOrders_conserves s s' trades :
  Main.MatchOrders s = Returned (s', trades) ->
  book_ordered s -> nodes_ok s ->
  total_resting s' = total_resting s - 2 * traded trades /\
  Forall (fun t => 0 <= trade_quantity t) trades.
Proof.
  intros Hm Ho Hok.
  assert (H : (book_ordered s' /\ nodes_ok s') /\
              total_resting s' + 2 * traded trades = total_resting s /\
              Forall (fun t => 0 <= trade_quantity t) trades).
  { apply (MatchOrders_inv_trades
             (fun x t => (book_ordered x /\ nodes_ok x) /\
                         total_resting x + 2 * traded t = total_resting s /\
                         Forall (fun t => 0 <= trade_quantity t) t))
      with (s := s); [| |done|].
    - intros bidPrice askPrice bid bids ask asks x t x1 trade
        ((H1 & H2) & H3 & H4) _ Hb Ha Hf.
      destruct (total_resting_front _ _ _ _ _ _ _ _ _ H1 H2 Hb Ha Hf) as [E Hq].
      split; [split|split].
      + destruct (all_nodes_front_eq _ _ _ _ _ _ _ _ _ H1 Hb Ha Hf)
          as (_ & _ & _ & _ & _ & _ & _ & H). exact H.
      + by destruct (nodes_ok_front _ _ _ _ _ _ _ _ _ H2 Hb Ha Hf).
      + rewrite traded_app. unfold traded at 2. simpl. lia.
      + apply Forall_app. split; [done|]. by repeat constructor.
    - intros x id t H. exact H.
    - repeat split; try done; try apply Ho. unfold traded. simpl. lia. }
  destruct H as (_ & H & H'). split; [lia|done].
Qed.

(** X8.  Matching conserves quantity.  When every call submits a quantity
    [q] with [0 <= q < 2^31], an [AddOrder] of quantity [q] on a reachable
    book either rejects the order and leaves the book as it is, or leaves a
    total resting quantity of the former total plus [q] minus twice the
    quantity that its trades execute; no trade has a negative quantity. *)
Theorem AddOrder_conserves_quantity s id ty q p sd s' trades :
  reachable_by quantity_ok s ->
  0 <= q < 2 ^ 31 ->
  Main.AddOrder s (newOrder id ty q p sd) = Returned (s', trades) ->
  Forall (fun t => 0 <= trade_quantity t) trades /\
  ((s' = s /\ trades = []) \/
   total_resting s' = total_resting s + q - 2 * traded trades).
Proof.
  intros Hs Hq. rewrite AddOrder_unfold.
  destruct (rejects s _); [intros [= <- <-]; auto|].
  intros Hm.
  destruct (reachable_ok s Hs) as [Hok Hlocs].
  pose proof (reachable_by_ordered _ _ Hs) as Ho.
  assert (Hoo : order_ok (newOrder id ty q p sd)).
  { unfold order_ok, newOrder; simpl. lia. }
  destruct (place_effect s _ Hoo Hok Hlocs) as [Hok1 _].
  destruct (MatchOrders_conserves _ _ _ Hm (place_ordered _ _ Ho) Hok1)
    as [E Hall].
  split; [done|]. right. rewrite E, total_resting_place. simpl. lia.
Qed.

Lemma AddOrder_conserves_quantity_witness :
  exists s' trades,
    Main.AddOrder two_sided_book (newOrder 3 GoodTillCancel 4 105 Buy)
    = Returned (s', trades) /\
    Forall (fun t => 0 <= trade_quantity t) trades /\
    ((s' = two_sided_book /\ trades = []) \/
     total_resting s' = total_resting two_sided_book + 4 - 2 * traded trades).
Proof.
  eexists _, _. split; [vm_compute; reflexivity|].
  apply (AddOrder_conserves_quantity two_sided_book 3 GoodTillCancel 4 105 Buy
           _ _ two_sided_reachable_ok).
  - lia.
  - vm_compute. reflexivity.
Defined.

(** ** The trades of an incoming order *)

Lemma front_nodes_cases (pre post : list Node) n (o' : Order) n' :
  NoDup (self <$> pre ++ n :: post) ->
  n' ∈ pre ++ (if isFilled o' then post else mkNode (self n) o' :: post) ->
  (n' ∈ pre ++ n :: post /\ self n' <> self n) \/
  (n' = mkNode (self n) o' /\ isFilled o' = false).
Proof.
  rewrite fmap_app, fmap_cons.
  intros (_ & Hdis & [Hn _]%NoDup_cons)%NoDup_app.
  assert (Hpre : forall x, x ∈ pre -> self x <> self n).
  { intros x Hx E. apply (Hdis (self x)).
    - apply list_elem_of_fmap. eauto.
    - rewrite E. apply elem_of_cons. auto. }
  assert (Hpost : forall x, x ∈ post -> self x <> self n).
  { intros x Hx E. apply Hn. rewrite <- E. apply list_elem_of_fmap. eauto. }
  rewrite elem_of_app. intros [Hx|Hx].
  - left. split; [|by apply Hpre]. apply elem_of_app. auto.
  - destruct (isFilled o') eqn:Ef.
    + left. split; [|by apply Hpost]. rewrite elem_of_app, elem_of_cons. auto.
    + apply elem_of_cons in Hx as [->|Hx]; [by right|].
      left. split; [|by apply Hpost]. rewrite elem_of_app, elem_of_cons. auto.
Qed.

Lemma front_nodes_sublist (pre post : list Node) n (o' : Order) :
  self <$> pre ++ (if isFilled o' then post else mkNode (self n) o' :: post)
  `sublist_of` self <$> pre ++ n :: post.
Proof.
  destruct (isFilled o'); [|by rewrite !fmap_app, !fmap_cons].
  rewrite !fmap_app, fmap_cons. apply sublist_app; [done|]. by apply sublist_cons.
Qed.

Lemma front_nodes_origin (pre post : list Node) n q n' :
  n' ∈ pre ++ (if isFilled (filled_by q (held n)) then post
               else mkNode (self n) (filled_by q (held n)) :: post) ->
  exists n0, n0 ∈ pre ++ n :: post /\ self n0 = self n' /\
             same_order (held n') (held n0).
Proof.
  unfold same_order. rewrite elem_of_app. intros [Hx|Hx].
  - exists n'. rewrite elem_of_app. repeat split; auto.
  - destruct (isFilled _).
    + exists n'. rewrite elem_of_app, elem_of_cons. repeat split; auto.
    + apply elem_of_cons in Hx as [->|Hx].
      * exists n. rewrite elem_of_app, elem_of_cons. repeat split; auto.
      * exists n'. rewrite elem_of_app, elem_of_cons. repeat split; auto.
Qed.

Lemma sides_front_eq bidPrice askPrice bid (bids : list Node) ask
    (asks : list Node) s s1 trade :
  book_ordered s ->
  level (bids_ s) bidPrice = bid :: bids ->
  level (asks_ s) askPrice = ask :: asks ->
  Main.match_front bidPrice askPrice bid ask s = Returned (s1, trade) ->
  let quantity :=
    Z.min (remainingQuantity_ (held bid)) (remainingQuantity_ (held ask)) in
  let bid' := filled_by quantity (held bid) in
  let ask' := filled_by quantity (held ask) in
  exists pb qb pa qa,
    nodes (bids_ s) = pb ++ bid :: qb /\
    nodes (asks_ s) = pa ++ ask :: qa /\
    nodes (bids_ s1) =
      pb ++ (if isFilled bid' then qb else mkNode (self bid) bid' :: qb) /\
    nodes (asks_ s1) =
      pa ++ (if isFilled ask' then qa else mkNode (self ask) ask' :: qa) /\
    trade = trade_of quantity (held bid) (held ask).
Proof.
  intros [Hob Hoa] Hb Ha. rewrite match_front_eq.
  intros [= <- <-] quantity bid' ask'.
  destruct (nodes_front_after_eq greater _ _ bid' _ _
              greater_trans greater_irrefl Hob Hb) as (pb & qb & Eb & Sb).
  destruct (nodes_front_after_eq less _ _ ask' _ _
              less_trans less_irrefl Hoa Ha) as (pa & qa & Ea & Sa).
  exists pb, qb, pa, qa. simpl. fold quantity. fold bid' ask'. done.
Qed.

Lemma keyed_nodes_key side m n :
  levels_keyed side m -> n ∈ nodes m ->
  price_ (held n) ∈ keys m /\ side_ (held n) = side.
Proof.
  unfold levels_keyed. induction m as [|[k l] m IH].
  - by intros _ ?%elem_of_nil.
  - rewrite Forall_cons, nodes_cons, elem_of_app. simpl.
    intros [H1 H2] [Hn|Hn].
    + rewrite Forall_forall in H1. destruct (H1 n Hn) as [-> E].
      split; [left|done].
    + destruct (IH H2 Hn). split; [by right|done].
Qed.

Lemma keyed_nodes_level before side m n :
  (forall a, before a a = false) ->
  ordered before m -> levels_keyed side m -> n ∈ nodes m ->
  n ∈ level m (price_ (held n)).
Proof.
  intros Hi. unfold ordered, levels_keyed. induction m as [|[k l] m IH].
  - by intros _ _ ?%elem_of_nil.
  - simpl. rewrite StronglySorted_cons, Forall_cons, nodes_cons, elem_of_app.
    simpl. intros [Hk Ho] [H1 H2] [Hn|Hn].
    + rewrite Forall_forall in H1. destruct (H1 n Hn) as [-> _].
      by rewrite Z.eqb_refl.
    + destruct (keyed_nodes_key side m n H2 Hn) as [Hin _].
      rewrite Forall_forall in Hk. specialize (Hk _ Hin).
      destruct (Z.eqb_spec k (price_ (held n))) as [E|_]; [|by apply IH].
      rewrite E, Hi in Hk. done.
Qed.

Lemma uncrossed_apart s a :
  book_ordered s -> book_keyed s -> uncrossed s -> apart_from a s.
Proof.
  intros [Hob Hoa] [Hkb Hka] Hu nb na Hnb Hna _ _.
  destruct (keyed_nodes_key _ _ _ Hkb Hnb) as [Hb _].
  destruct (keyed_nodes_key _ _ _ Hka Hna) as [Ha _].
  unfold uncrossed in Hu.
  destruct (asks_ s) as [|[a0 la] ma]; [by apply elem_of_nil in Ha|].
  destruct (bids_ s) as [|[b0 lb] mb]; [by apply elem_of_nil in Hb|].
  pose proof (ordered_greater_head _ _ _ _ Hob Hb).
  pose proof (ordered_less_head _ _ _ _ Hoa Ha). lia.
Qed.

Lemma place_side_nodes s o n :
  (n ∈ nodes (bids_ (place s o)) ->
   n = mkNode (fresh_ s) o \/ n ∈ nodes (bids_ s)) /\
  (n ∈ nodes (asks_ (place s o)) ->
   n = mkNode (fresh_ s) o \/ n ∈ nodes (asks_ s)).
Proof.
  unfold place. destruct (side_ o); simpl; split; auto;
    rewrite nodes_push_back, elem_of_cons; auto.
Qed.

Lemma same_order_trans a b c : same_order a b -> same_order b c -> same_order a c.
Proof. unfold same_order. intuition congruence. Qed.

Lemma NoDup_sides (l1 l2 : list Node) x y :
  NoDup (self <$> l1 ++ l2) -> x ∈ l1 -> y ∈ l2 -> self x <> self y.
Proof.
  rewrite fmap_app. intros (_ & H & _)%NoDup_app Hx Hy E.
  apply (H (self x)); [|rewrite E]; apply list_elem_of_fmap; eauto.
Qed.

(** In a step of the inner loop one of the two first orders is the order
    that [AddOrder] has placed. *)
Lemma matching_incoming a o bidPrice askPrice bid (bids : list Node) ask
    (asks : list Node) s trades :
  matching a o s trades ->
  askPrice <= bidPrice ->
  level (bids_ s) bidPrice = bid :: bids ->
  level (asks_ s) askPrice = ask :: asks ->
  price_ (held bid) = bidPrice /\ price_ (held ask) = askPrice /\
  ((self bid = a /\ side_ o = Buy /\ same_order (held bid) o) \/
   (self ask = a /\ side_ o = Sell /\ same_order (held ask) o)).
Proof.
  intros (Ho & [Hkb Hka] & Hnd & Hap & Htr & _) Hle Hb Ha.
  assert (Hbl : bid ∈ level (bids_ s) bidPrice) by (rewrite Hb; left).
  assert (Hal : ask ∈ level (asks_ s) askPrice) by (rewrite Ha; left).
  destruct (levels_keyed_level _ _ _ _ Hkb Hbl) as [Epb Esb].
  destruct (levels_keyed_level _ _ _ _ Hka Hal) as [Epa Esa].
  pose proof (level_elem_nodes _ _ _ Hbl) as Hbn.
  pose proof (level_elem_nodes _ _ _ Hal) as Han.
  split; [done|]. split; [done|].
  destruct (decide (self bid = a)) as [Eb|Nb].
  - left. assert (Hso : same_order (held bid) o).
    { apply Htr; [|done]. unfold all_nodes. apply elem_of_app. auto. }
    split; [done|split; [|done]]. destruct Hso as (_ & _ & _ & _ & <-). done.
  - destruct (decide (self ask = a)) as [Ea|Na].
    + right. assert (Hso : same_order (held ask) o).
      { apply Htr; [|done]. unfold all_nodes. apply elem_of_app. auto. }
      split; [done|split; [|done]]. destruct Hso as (_ & _ & _ & _ & <-). done.
    + specialize (Hap bid ask Hbn Han Nb Na). lia.
Qed.

Lemma matching_front a o bidPrice askPrice bid (bids : list Node) ask
    (asks : list Node) s trades s1 trade :
  matching a o s trades ->
  askPrice <= bidPrice ->
  level (bids_ s) bidPrice = bid :: bids ->
  level (asks_ s) askPrice = ask :: asks ->
  Main.match_front bidPrice askPrice bid ask s = Returned (s1, trade) ->
  matching a o s1 (trades ++ [trade]).
Proof.
  intros Hm Hle Hb Ha Hf.
  destruct (matching_incoming _ _ _ _ _ _ _ _ _ _ Hm Hle Hb Ha)
    as (Epb & Epa & Hinc).
  destruct Hm as (Ho & Hk & Hnd & Hap & Htr & Hall).
  destruct (sides_front_eq _ _ _ _ _ _ _ _ _ Ho Hb Ha Hf)
    as (pb & qb & pa & qa & Eb & Ea & Eb1 & Ea1 & ->).
  assert (Hob : forall n', n' ∈ nodes (bids_ s1) ->
            exists n0, n0 ∈ nodes (bids_ s) /\ self n0 = self n' /\
                       same_order (held n') (held n0)).
  { intros n'. rewrite Eb1, Eb. apply front_nodes_origin. }
  assert (Hoa : forall n', n' ∈ nodes (asks_ s1) ->
            exists n0, n0 ∈ nodes (asks_ s) /\ self n0 = self n' /\
                       same_order (held n') (held n0)).
  { intros n'. rewrite Ea1, Ea. apply front_nodes_origin. }
  split; [|split; [|split; [|split; [|split]]]].
  - by destruct (all_nodes_front_eq _ _ _ _ _ _ _ _ _ Ho Hb Ha Hf)
      as (_ & _ & _ & _ & _ & _ & _ & H).
  - by eapply book_keyed_front.
  - eapply sublist_NoDup; [exact Hnd|]. unfold all_nodes.
    rewrite Eb1, Ea1, Eb, Ea, !(fmap_app self (_ ++ _)).
    apply sublist_app; apply front_nodes_sublist.
  - intros nb na Hnb Hna Nb Na.
    destruct (Hob _ Hnb) as (nb0 & Hnb0 & Esb & (_ & _ & _ & Epb0 & _)).
    destruct (Hoa _ Hna) as (na0 & Hna0 & Esa & (_ & _ & _ & Epa0 & _)).
    rewrite Epb0, Epa0. apply Hap; congruence.
  - intros n'. unfold all_nodes. rewrite elem_of_app.
    intros [(n0 & Hn0 & Es & Hso)%Hob|(n0 & Hn0 & Es & Hso)%Hoa] E;
      (eapply same_order_trans; [exact Hso|]); apply Htr;
      try congruence; unfold all_nodes; apply elem_of_app; auto.
  - apply Forall_app. split; [done|]. apply Forall_cons. split; [|constructor].
    unfold trade_for. simpl. split; [done|].
    destruct Hinc as [(_ & -> & (Ei & _ & _ & Ep & _))
                     |(_ & -> & (Ei & _ & _ & Ep & _))]; repeat split; lia.
Qed.

Lemma place_matching s o :
  reachable s -> matching (fresh_ s) o (place s o) [].
Proof.
  intros Hs.
  pose proof (reachable_by_ordered _ _ Hs) as Ho.
  pose proof (reachable_by_keyed _ _ Hs) as Hk.
  pose proof (reachable_by_uncrossed _ _ Hs) as Hu.
  destruct (reachable_by_sound _ _ Hs) as [Hl _].
  split; [|split; [|split; [|split; [|split]]]].
  - by apply place_ordered.
  - by apply place_keyed.
  - by apply place_locs_ok.
  - intros nb na Hnb Hna Nb Na.
    destruct (place_side_nodes s o nb) as [H1 _].
    destruct (place_side_nodes s o na) as [_ H2].
    destruct (H1 Hnb) as [->|Hb]; [done|].
    destruct (H2 Hna) as [->|Ha]; [done|].
    by apply (uncrossed_apart s (fresh_ s)).
  - intros n Hn E. destruct (place_nodes s o) as [Hp _].
    rewrite Hp in Hn. apply elem_of_cons in Hn as [->|Hn].
    + unfold same_order. done.
    + destruct Hl as [_ Hlt]. rewrite Forall_forall in Hlt.
      specialize (Hlt n Hn). lia.
  - constructor.
Qed.

(** X9.  The trades that [AddOrder] returns on a reachable book are the
    trades of the order it was given: each of them names that order on the
    leg of its side, at its limit price, and an order of the other side at
    a price that is not beyond this limit (not above it for a buy, not
    below it for a sell), with one quantity on both legs.  [AddOrder]
    makes no two resting orders trade with each other. *)
Theorem AddOrder_trades_incoming s o s' trades :
  reachable s ->
  Main.AddOrder s o = Returned (s', trades) ->
  Forall (trade_for o) trades.
Proof.
  intros Hs. rewrite AddOrder_unfold.
  destruct (rejects s o); [intros [= _ <-]; constructor|].
  intros Hm.
  assert (H : matching (fresh_ s) o s' trades).
  { apply (MatchOrders_inv_trades (matching (fresh_ s) o)) with (s := place s o).
    - intros. by eapply matching_front.
    - intros x id t H. exact H.
    - exact Hm.
    - by apply place_matching. }
  apply H.
Qed.

Lemma AddOrder_trades_incoming_witness :
  exists s',
    Main.AddOrder two_sided_book (newOrder 3 GoodTillCancel 4 105 Buy)
    = Returned (s', [trade_of 4 (newOrder 3 GoodTillCancel 4 105 Buy)
                                (newOrder 1 GoodTillCancel 5 105 Sell)]) /\
    Forall (trade_for (newOrder 3 GoodTillCancel 4 105 Buy))
      [trade_of 4 (newOrder 3 GoodTillCancel 4 105 Buy)
                  (newOrder 1 GoodTillCancel 5 105 Sell)].
Proof.
  eexists. split; [vm_compute; reflexivity|].
  eapply (AddOrder_trades_incoming two_sided_book _ _ _ two_sided_reachable_all).
  vm_compute. reflexivity.
Defined.

Lemma matching_quantity_front a o q bidPrice askPrice bid (bids : list Node)
    ask (asks : list Node) s trades s1 trade :
  matching_quantity a o q s trades ->
  askPrice <= bidPrice ->
  level (bids_ s) bidPrice = bid :: bids ->
  level (asks_ s) askPrice = ask :: asks ->
  Main.match_front bidPrice askPrice bid ask s = Returned (s1, trade) ->
  matching_quantity a o q s1 (trades ++ [trade]).
Proof.
  intros (Hm & Hok & Hpos & Hrem & Hex) Hle Hb Ha Hf.
  pose proof (matching_front _ _ _ _ _ _ _ _ _ _ _ _ Hm Hle Hb Ha Hf) as Hm1.
  destruct (matching_incoming _ _ _ _ _ _ _ _ _ _ Hm Hle Hb Ha)
    as (_ & _ & Hinc).
  destruct Hm as (Ho & _ & Hnd & _).
  destruct (nodes_ok_front _ _ _ _ _ _ _ _ _ Hok Hb Ha Hf) as [Hok1 _].
  destruct (sides_front_eq _ _ _ _ _ _ _ _ _ Ho Hb Ha Hf)
    as (pb & qb & pa & qa & Eb & Ea & Eb1 & Ea1 & ->).
  assert (Hbn : bid ∈ nodes (bids_ s)).
  { rewrite Eb, elem_of_app, elem_of_cons. auto. }
  assert (Han : ask ∈ nodes (asks_ s)).
  { rewrite Ea, elem_of_app, elem_of_cons. auto. }
  assert (Hba : bid ∈ all_nodes s) by (unfold all_nodes; apply elem_of_app; auto).
  assert (Haa : ask ∈ all_nodes s) by (unfold all_nodes; apply elem_of_app; auto).
  unfold nodes_ok in Hok. rewrite Forall_forall in Hok.
  pose proof (Hok bid Hba) as Hbid. pose proof (Hok ask Haa) as Hask.
  destruct (filled_by_ok _ _ Hbid Hask) as (_ & Rb & Hq).
  destruct (filled_by_ok _ _ Hask Hbid) as (_ & Ra & _).
  rewrite (Z.min_comm (remainingQuantity_ (held ask))) in Ra.
  pose proof Hnd as Hnd'. unfold all_nodes in Hnd'. rewrite fmap_app in Hnd'.
  apply NoDup_app in Hnd' as (NdB & _ & NdA). rewrite Eb in NdB. rewrite Ea in NdA.
  assert (Et : traded (trades ++
                 [trade_of (Z.min (remainingQuantity_ (held bid))
                                  (remainingQuantity_ (held ask)))
                           (held bid) (held ask)])
               = traded trades
                 + Z.min (remainingQuantity_ (held bid))
                         (remainingQuantity_ (held ask))).
  { rewrite traded_app. unfold traded at 2, trade_quantity. simpl. lia. }
  split; [done|]. split; [done|]. rewrite Et. split; [lia|]. split.
  - intros n'. unfold all_nodes. rewrite Eb1, Ea1, elem_of_app. intros Hn' E.
    destruct Hinc as [(Es & _ & _)|(Es & _ & _)].
    + destruct Hn' as [Hn'|Hn'].
      * destruct (front_nodes_cases _ _ _ _ _ NdB Hn') as [[_ Hne]|[-> _]];
          [congruence|]. cbn [held]. rewrite Rb, (Hrem bid Hba Es). lia.
      * apply front_nodes_origin in Hn' as (n0 & Hn0 & Es0 & _).
        rewrite <- Ea in Hn0.
        destruct (NoDup_sides _ _ bid n0 Hnd Hbn Hn0). congruence.
    + destruct Hn' as [Hn'|Hn'].
      * apply front_nodes_origin in Hn' as (n0 & Hn0 & Es0 & _).
        rewrite <- Eb in Hn0.
        destruct (NoDup_sides _ _ n0 ask Hnd Hn0 Han). congruence.
      * destruct (front_nodes_cases _ _ _ _ _ NdA Hn') as [[_ Hne]|[-> _]];
          [congruence|]. cbn [held]. rewrite Ra, (Hrem ask Haa Es). lia.
  - unfold all_nodes. rewrite Eb1, Ea1.
    destruct Hinc as [(Es & _ & _)|(Es & _ & _)].
    + destruct (isFilled (filled_by _ (held bid))) eqn:Ef.
      * right. apply Z.eqb_eq in Ef. rewrite Rb in Ef.
        pose proof (Hrem bid Hba Es). lia.
      * left. exists (mkNode (self bid) (filled_by
                   (Z.min (remainingQuantity_ (held bid))
                          (remainingQuantity_ (held ask))) (held bid))).
        split; [|exact Es].
        rewrite elem_of_app, elem_of_app, elem_of_cons. auto.
    + destruct (isFilled (filled_by _ (held ask))) eqn:Ef.
      * right. apply Z.eqb_eq in Ef. rewrite Ra in Ef.
        pose proof (Hrem ask Haa Es). lia.
      * left. exists (mkNode (self ask) (filled_by
                   (Z.min (remainingQuantity_ (held bid))
                          (remainingQuantity_ (held ask))) (held ask))).
        split; [|exact Es].
        rewrite elem_of_app, (elem_of_app pa), elem_of_cons. auto.
Qed.

Lemma place_matching_quantity s id ty q p sd :
  reachable_by quantity_ok s -> 0 <= q < 2 ^ 31 ->
  matching_quantity (fresh_ s) (newOrder id ty q p sd) q
    (place s (newOrder id ty q p sd)) [].
Proof.
  intros Hs Hq. set (o := newOrder id ty q p sd).
  destruct (reachable_ok s Hs) as [Hok Hlocs].
  assert (Hoo : order_ok o) by (unfold order_ok, o, newOrder; simpl; lia).
  destruct (place_effect s _ Hoo Hok Hlocs) as [Hok1 _].
  destruct (place_nodes s o) as [Hp _].
  split; [|split; [done|split; [done|split]]].
  - apply place_matching. eapply reachable_by_weaken; [|exact Hs]. done.
  - intros n Hn E. rewrite Hp in Hn. apply elem_of_cons in Hn as [->|Hn].
    + unfold traded. simpl. lia.
    + destruct Hlocs as [_ Hlt]. rewrite Forall_forall in Hlt.
      specialize (Hlt n Hn). lia.
  - left. exists (mkNode (fresh_ s) o). split; [|done]. rewrite Hp. left.
Qed.

(** X10.  What [AddOrder] does not execute of an order rests, whatever the
    order type.  When every call submits a quantity [q] with
    [0 <= q < 2^31], an [AddOrder] of quantity [q] on a reachable book
    returns trades whose quantities sum up to at most [q]; and unless the
    order is rejected (the book is then unchanged), an order of which less
    than [q] was executed is left in the level of its price on its side,
    at the node that [AddOrder] made for it, with the rest of [q] as its
    remaining quantity.  This holds for a FillAndKill order as for a
    GoodTillCancel one. *)
Theorem AddOrder_remainder_rests s id ty q p sd s' trades :
  reachable_by quantity_ok s ->
  0 <= q < 2 ^ 31 ->
  Main.AddOrder s (newOrder id ty q p sd) = Returned (s', trades) ->
  0 <= traded trades <= q /\
  ((s' = s /\ trades = []) \/
   (traded trades < q ->
    exists n,
      n ∈ level (side_levels s' sd) p /\ self n = fresh_ s /\
      same_order (held n) (newOrder id ty q p sd) /\
      remainingQuantity_ (held n) = q - traded trades)).
Proof.
  intros Hs Hq. rewrite AddOrder_unfold.
  destruct (rejects s _).
  { intros [= <- <-]. unfold traded; simpl. split; [lia|auto]. }
  intros Hm.
  assert (H : matching_quantity (fresh_ s) (newOrder id ty q p sd) q s' trades).
  { apply (MatchOrders_inv_trades
             (matching_quantity (fresh_ s) (newOrder id ty q p sd) q))
      with (s := place s (newOrder id ty q p sd)).
    - intros. by eapply matching_quantity_front.
    - intros x i t H. exact H.
    - exact Hm.
    - by apply place_matching_quantity. }
  destruct H as ((Ho & Hk & _ & _ & Htr & _) & Hok & Hpos & Hrem & Hex).
  unfold nodes_ok in Hok. rewrite Forall_forall in Hok.
  split.
  - split; [done|]. destruct Hex as [(n & Hn & E)|E]; [|lia].
    specialize (Hrem n Hn E). destruct (Hok n Hn) as [? _]. lia.
  - right. intros Hlt. destruct Hex as [(n & Hn & E)|E]; [|lia].
    exists n. pose proof (Htr n Hn E) as Hso.
    destruct Hso as (Hso1 & Hso2 & Hso3 & Hso4 & Hso5). simpl in Hso4, Hso5.
    split; [|split; [done|split; [done|by apply Hrem]]].
    destruct Ho as [Hob Hoa]. destruct Hk as [Hkb Hka].
    unfold all_nodes in Hn. apply elem_of_app in Hn as [Hn|Hn].
    + destruct (keyed_nodes_key _ _ _ Hkb Hn) as [_ Esd].
      rewrite Hso5 in Esd. rewrite Esd. simpl. rewrite <- Hso4.
      by apply (keyed_nodes_level greater Buy _ _ greater_irrefl).
    + destruct (keyed_nodes_key _ _ _ Hka Hn) as [_ Esd].
      rewrite Hso5 in Esd. rewrite Esd. simpl. rewrite <- Hso4.
      by apply (keyed_nodes_level less Sell _ _ less_irrefl).
Qed.

Lemma AddOrder_remainder_rests_witness :
  exists s' trades,
    Main.AddOrder two_sided_book (newOrder 3 FillAndKill 8 105 Buy)
    = Returned (s', trades) /\
    0 <= traded trades <= 8 /\
    ((s' = two_sided_book /\ trades = []) \/
     (traded trades < 8 ->
      exists n,
        n ∈ level (side_levels s' Buy) 105 /\ self n = fresh_ two_sided_book /\
        same_order (held n) (newOrder 3 FillAndKill 8 105 Buy) /\
        remainingQuantity_ (held n) = 8 - traded trades)).
Proof.
  eexists _, _. split; [vm_compute; reflexivity|].
  apply (AddOrder_remainder_rests two_sided_book 3 FillAndKill 8 105 Buy
           _ _ two_sided_reachable_ok).
  - lia.
  - vm_compute. reflexivity.
Defined.

(** ** Positive quantities *)

Lemma order_pos_ok o : order_pos o -> order_ok o.
Proof. unfold order_pos, order_ok. lia. Qed.

Lemma nodes_pos_front bidPrice askPrice bid (bids : list Node) ask
    (asks : list Node) s s1 trade :
  book_ordered s -> nodes_pos s ->
  level (bids_ s) bidPrice = bid :: bids ->
  level (asks_ s) askPrice = ask :: asks ->
  Main.match_front bidPrice askPrice bid ask s = Returned (s1, trade) ->
  book_ordered s1 /\ nodes_pos s1 /\ trade_pos trade.
Proof.
  intros Ho Hp Hb Ha Hf.
  destruct (all_nodes_front_eq _ _ _ _ _ _ _ _ _ Ho Hb Ha Hf)
    as (pb & qb & pa & qa & E & E1 & -> & Ho1).
  split; [done|].
  unfold nodes_pos in *. rewrite E in Hp. rewrite E1.
  rewrite !Forall_app, !Forall_cons in Hp.
  destruct Hp as ((Hpb & Hbid & Hqb) & (Hpa & Hask & Hqa)).
  destruct (filled_by_ok _ _ (order_pos_ok _ Hbid) (order_pos_ok _ Hask))
    as (Hb1 & _ & _).
  destruct (filled_by_ok _ _ (order_pos_ok _ Hask) (order_pos_ok _ Hbid))
    as (Ha1 & _ & _).
  rewrite (Z.min_comm (remainingQuantity_ (held ask))) in Ha1.
  split.
  - rewrite !Forall_app. repeat split; try done.
    + destruct (isFilled (filled_by _ (held bid))) eqn:Ef; [done|].
      apply Forall_cons. split; [|done]. cbn [held].
      apply Z.eqb_neq in Ef. unfold order_pos. unfold order_ok in Hb1. lia.
    + destruct (isFilled (filled_by _ (held ask))) eqn:Ef; [done|].
      apply Forall_cons. split; [|done]. cbn [held].
      apply Z.eqb_neq in Ef. unfold order_pos. unfold order_ok in Ha1. lia.
  - unfold trade_pos. simpl. unfold order_pos in Hbid, Hask. lia.
Qed.

Lemma MatchOrders_pos s s' trades :
  Main.MatchOrders s = Returned (s', trades) ->
  book_ordered s -> nodes_pos s ->
  book_ordered s' /\ nodes_pos s' /\
  Forall trade_pos trades.
Proof.
  intros Hm Ho Hp.
  apply (MatchOrders_inv_trades
           (fun x t => book_ordered x /\ nodes_pos x /\
                       Forall trade_pos t))
    with (s := s); [| |done|split; [done|split; [done|constructor]]].
  - intros bidPrice askPrice bid bids ask asks x t x1 trade
      (H1 & H2 & H3) _ Hb Ha Hf.
    destruct (nodes_pos_front _ _ _ _ _ _ _ _ _ H1 H2 Hb Ha Hf) as (? & ? & ?).
    split; [done|]. split; [done|].
    apply Forall_app. split; [done|]. apply Forall_cons. split; [done|constructor].
  - intros x id t H. exact H.
Qed.

Lemma place_pos s o : order_pos o -> nodes_pos s -> nodes_pos (place s o).
Proof.
  intros Ho Hs. destruct (place_nodes s o) as [Hp _]. unfold nodes_pos.
  eapply Permutation_Forall; [symmetry; exact Hp|]. by apply Forall_cons.
Qed.

Lemma AddOrder_pos s o s' trades :
  Main.AddOrder s o = Returned (s', trades) ->
  order_pos o -> book_ordered s -> nodes_pos s ->
  book_ordered s' /\ nodes_pos s' /\
  Forall trade_pos trades.
Proof.
  rewrite AddOrder_unfold. destruct (rejects s o).
  - intros [= <- <-] _ Ho Hp. split; [done|split; [done|constructor]].
  - intros Hm Hoo Ho Hp. eapply MatchOrders_pos; [exact Hm| |].
    + by apply place_ordered.
    + by apply place_pos.
Qed.

Lemma CancelOrder_pos s id : nodes_pos s -> nodes_pos (Main.CancelOrder s id).
Proof.
  apply Forall_of_sublist. apply CancelOrder_nodes.
Qed.

Lemma call_pos s c s' trades :
  quantity_pos c -> book_ordered s -> nodes_pos s ->
  call s c = Returned (s', trades) ->
  book_ordered s' /\ nodes_pos s' /\
  Forall trade_pos trades.
Proof.
  destruct c as [id ty q p sd|id|m]; simpl; intros Hq Ho Hp.
  - intros H. eapply AddOrder_pos; eauto.
    specialize (Hq q eq_refl). unfold order_pos, newOrder; simpl. lia.
  - intros [= <- <-]. split; [by apply CancelOrder_ordered|].
    split; [by apply CancelOrder_pos|constructor].
  - unfold Main.ModifyOrder.
    destruct (orders_ s !! m_orderId_ m) as [existing|];
      [|intros [= <- <-]; split; [done|split; [done|constructor]]].
    destruct (Main.AddOrder _ _) as [[s1 t1]| |] eqn:Ea; simpl; [|done|done].
    intros H.
    assert (H1 : book_ordered s1 /\ nodes_pos s1 /\
                 Forall trade_pos t1).
    { eapply AddOrder_pos; [exact Ea| | |].
      - specialize (Hq _ eq_refl).
        unfold order_pos, ToOrderPointer, newOrder; simpl. lia.
      - by apply CancelOrder_ordered.
      - by apply CancelOrder_pos. }
    destruct H1 as (? & ? & _). by eapply MatchOrders_pos.
Qed.

Lemma reachable_by_pos s :
  reachable_by quantity_pos s -> book_ordered s /\ nodes_pos s.
Proof.
  induction 1 as [|s c s' trades _ [IH1 IH2] Hq Hc].
  - split; [split; constructor|constructor].
  - destruct (call_pos _ _ _ _ Hq IH1 IH2 Hc) as (? & ? & _). done.
Qed.

(** X11.  Positive quantities stay positive.  When every call submits a
    quantity [q] with [0 < q < 2^31], a further such call on a reachable
    book leaves every resting order with a remaining quantity between 1 and
    its initial quantity, and every trade it returns has a positive
    quantity on both legs: no order with nothing left stays in a queue, and
    no trade is empty. *)
Theorem positive_quantities s c s' trades :
  reachable_by quantity_pos s ->
  quantity_pos c ->
  call s c = Returned (s', trades) ->
  Forall (fun n => 0 < remainingQuantity_ (held n) <= initialQuantity_ (held n))
         (all_nodes s') /\
  Forall (fun t => 0 < quantity (bidTrade_ t) /\ 0 < quantity (askTrade_ t))
         trades.
Proof.
  intros Hs Hq Hc.
  destruct (reachable_by_pos s Hs) as [Ho Hp].
  destruct (call_pos _ _ _ _ Hq Ho Hp Hc) as (_ & Hp' & Ht).
  split; [|exact Ht].
  eapply Forall_impl; [exact Hp'|]. intros n [H _]. exact H.
Qed.

Lemma positive_quantities_witness :
  exists s' trades,
    call two_sided_book (CallAdd 3 GoodTillCancel 4 105 Buy)
    = Returned (s', trades) /\
    Forall (fun n => 0 < remainingQuantity_ (held n) <= initialQuantity_ (held n))
           (all_nodes s') /\
    Forall (fun t => 0 < quantity (bidTrade_ t) /\ 0 < quantity (askTrade_ t))
           trades.
Proof.
  eexists _, _. split; [vm_compute; reflexivity|].
  apply (positive_quantities two_sided_book (CallAdd 3 GoodTillCancel 4 105 Buy)
           _ _ two_sided_reachable).
  - intros q [= <-]. lia.
  - vm_compute. reflexivity.
Defined.

(** ** The quantities of the snapshot *)

Lemma sum_remaining_nonneg (l : list Node) :
  Forall (fun n => 0 <= remainingQuantity_ (held n)) l -> 0 <= sum_remaining l.
Proof.
  unfold sum_remaining. induction 1 as [|n l Hn _ IH]; simpl; lia.
Qed.

Lemma accumulate_sum (l : list Node) acc :
  Forall (fun n => 0 <= remainingQuantity_ (held n)) l ->
  0 <= acc -> acc + sum_remaining l < 2 ^ 31 ->
  fold_left (fun runningSum n => wrap32 (runningSum + remainingQuantity_ (held n)))
            l acc
  = acc + sum_remaining l.
Proof.
  intros H. revert acc. induction H as [|n l Hn Hl IH]; intros acc Ha Hlt.
  - unfold sum_remaining. simpl. lia.
  - pose proof (sum_remaining_nonneg l Hl) as Hs.
    unfold sum_remaining in Hlt. simpl in Hlt. fold (sum_remaining l) in Hlt.
    simpl. rewrite wrap32_int32 by (unfold int32; lia).
    rewrite IH by lia. unfold sum_remaining at 2. simpl.
    fold (sum_remaining l). lia.
Qed.

Lemma CreateLevelInfos_map (m : Levels) :
  Forall (fun n => 0 <= remainingQuantity_ (held n)) (nodes m) ->
  sum_remaining (nodes m) < 2 ^ 31 ->
  map (fun '(price, orders) => CreateLevelInfos price orders) m
  = map (fun kl => mkLevelInfo (fst kl) (sum_remaining (snd kl))) m /\
  fold_right Z.add 0
    (map (fun kl => sum_remaining (snd kl)) m) = sum_remaining (nodes m).
Proof.
  induction m as [|[k l] m IH]; [done|].
  rewrite nodes_cons, Forall_app, sum_remaining_app. intros [Hl Hm] Hlt.
  pose proof (sum_remaining_nonneg l Hl).
  pose proof (sum_remaining_nonneg (nodes m) Hm).
  destruct IH as [IH1 IH2]; [done|lia|].
  simpl. rewrite IH1, IH2. split; [|done]. f_equal.
  unfold CreateLevelInfos. f_equal.
  rewrite accumulate_sum; [lia|done|lia|lia].
Qed.

(** X12.  The snapshot accounts for the resting quantity.  When every call
    submits a quantity [q] with [0 <= q < 2^31] and the orders of a
    reachable book have less than [2^31] left in total, [GetLevelInfos]
    lists each price level of each side, in the order of the map, with the
    exact sum of the remaining quantities of its orders (the running sum of
    [std::accumulate] does not overflow), and the quantities it lists add
    up to the quantity that rests in the book. *)
Theorem GetLevelInfos_quantities s :
  reachable_by quantity_ok s ->
  total_resting s < 2 ^ 31 ->
  let infos := GetLevelInfos s in
  GetBidsLevelInfos infos
  = map (fun kl => mkLevelInfo (fst kl) (sum_remaining (snd kl))) (bids_ s) /\
  GetAsksLevelInfos infos
  = map (fun kl => mkLevelInfo (fst kl) (sum_remaining (snd kl))) (asks_ s) /\
  fold_right Z.add 0
    (map li_quantity (GetBidsLevelInfos infos ++ GetAsksLevelInfos infos))
  = total_resting s.
Proof.
  intros Hs Hlt. destruct (reachable_ok s Hs) as [Hok _].
  assert (Hnn : Forall (fun n => 0 <= remainingQuantity_ (held n))
                  (nodes (bids_ s) ++ nodes (asks_ s))).
  { eapply Forall_impl; [exact Hok|]. unfold order_ok. simpl. intros; lia. }
  apply Forall_app in Hnn as [Hb Ha].
  rewrite total_resting_sum in *. unfold all_nodes in *.
  rewrite sum_remaining_app in *.
  pose proof (sum_remaining_nonneg _ Hb). pose proof (sum_remaining_nonneg _ Ha).
  destruct (CreateLevelInfos_map (bids_ s) Hb) as [Eb Sb]; [lia|].
  destruct (CreateLevelInfos_map (asks_ s) Ha) as [Ea Sa]; [lia|].
  unfold GetLevelInfos. simpl. rewrite Eb, Ea. split; [done|]. split; [done|].
  rewrite map_app, !map_map. simpl. rewrite <- Sb, <- Sa.
  generalize (map (fun kl : Z * list Node => sum_remaining (snd kl)) (bids_ s)).
  intros l. induction l as [|x l IH]; simpl; [done|]. rewrite IH. lia.
Qed.

Lemma GetLevelInfos_quantities_witness :
  let infos := GetLevelInfos two_sided_book in
  GetBidsLevelInfos infos
  = map (fun kl => mkLevelInfo (fst kl) (sum_remaining (snd kl)))
        (bids_ two_sided_book) /\
  GetAsksLevelInfos infos
  = map (fun kl => mkLevelInfo (fst kl) (sum_remaining (snd kl)))
        (asks_ two_sided_book) /\
  fold_right Z.add 0
    (map li_quantity (GetBidsLevelInfos infos ++ GetAsksLevelInfos infos))
  = total_resting two_sided_book.
Proof.
  apply (GetLevelInfos_quantities two_sided_book two_sided_reachable_ok).
  vm_compute. reflexivity.
Defined.

(** ** What [CanMatch] says of the resting orders *)

(** X13.  In a reachable book [CanMatch] answers whether an order of the
    other side rests at a price that the given price reaches: for a buy, a
    resting sell priced at or below it; for a sell, a resting buy priced at
    or above it. *)
Theorem CanMatch_resting_order s side price :
  reachable s ->
  Main.CanMatch s side price = true <->
  exists n, n ∈ all_nodes s /\ side_ (held n) <> side /\
            match side with
            | Buy => price_ (held n) <= price
            | Sell => price <= price_ (held n)
            end.
Proof.
  intros Hs.
  destruct (reachable_by_ordered _ _ Hs) as [Hob Hoa].
  destruct (reachable_by_keyed _ _ Hs) as [Hkb Hka].
  destruct (reachable_by_wf _ _ Hs) as [Hwb Hwa].
  unfold Main.CanMatch, all_nodes. destruct side.
  - split.
    + destruct (asks_ s) as [|[a l] m] eqn:E; [done|]. intros Hp%Z.geb_le.
      apply Forall_cons in Hwa as [Hl _]. simpl in Hl.
      destruct l as [|n l]; [done|]. exists n.
      assert (Hn : n ∈ nodes ((a, n :: l) :: m)) by (rewrite nodes_cons; left).
      apply Forall_cons in Hka as [Hk _]. simpl in Hk.
      apply Forall_cons in Hk as [[Ep Esd] _].
      split; [apply elem_of_app; by right|]. split; [by rewrite Esd|lia].
    + intros (n & Hn & Hsd & Hp). apply elem_of_app in Hn as [Hn|Hn].
      { destruct (keyed_nodes_key _ _ _ Hkb Hn) as [_ E]. done. }
      destruct (keyed_nodes_key _ _ _ Hka Hn) as [Hin _].
      destruct (asks_ s) as [|[a l] m]; [by apply elem_of_nil in Hin|].
      pose proof (ordered_less_head _ _ _ _ Hoa Hin). apply Z.geb_le. lia.
  - split.
    + destruct (bids_ s) as [|[b l] m] eqn:E; [done|]. intros Hp%Z.leb_le.
      apply Forall_cons in Hwb as [Hl _]. simpl in Hl.
      destruct l as [|n l]; [done|]. exists n.
      assert (Hn : n ∈ nodes ((b, n :: l) :: m)) by (rewrite nodes_cons; left).
      apply Forall_cons in Hkb as [Hk _]. simpl in Hk.
      apply Forall_cons in Hk as [[Ep Esd] _].
      split; [apply elem_of_app; by left|]. split; [by rewrite Esd|lia].
    + intros (n & Hn & Hsd & Hp). apply elem_of_app in Hn as [Hn|Hn].
      2: { destruct (keyed_nodes_key _ _ _ Hka Hn) as [_ E]. done. }
      destruct (keyed_nodes_key _ _ _ Hkb Hn) as [Hin _].
      destruct (bids_ s) as [|[b l] m]; [by apply elem_of_nil in Hin|].
      pose proof (ordered_greater_head _ _ _ _ Hob Hin). apply Z.leb_le. lia.
Qed.

Lemma CanMatch_resting_order_witness :
  Main.CanMatch two_sided_book Buy 105 = true <->
  exists n, n ∈ all_nodes two_sided_book /\ side_ (held n) <> Buy /\
            price_ (held n) <= 105.
Proof.
  exact (CanMatch_resting_order two_sided_book Buy 105 two_sided_reachable_all).
Defined.

(** ** The index holds GoodTillCancel orders only *)

Lemma index_after_None (o' : Order) (idx : gmap Z OrderEntry) id :
  idx !! id = None -> index_after o' idx !! id = None.
Proof.
  intros H. unfold index_after. destruct (isFilled o'); [|done].
  apply lookup_delete_None. auto.
Qed.

Lemma index_after_Some (o' : Order) (idx : gmap Z OrderEntry) id e :
  index_after o' idx !! id = Some e -> idx !! id = Some e.
Proof.
  unfold index_after. destruct (isFilled o'); [|done].
  by intros [_ H]%lookup_delete_Some.
Qed.

Lemma index_after_filled (o' : Order) (idx : gmap Z OrderEntry) :
  isFilled o' = true -> index_after o' idx !! orderId_ o' = None.
Proof. intros H. unfold index_after. rewrite H. apply lookup_delete_eq. Qed.

Lemma front_after_head_kept k (o' : Order) n (l : list Node)
    (m : list (Z * list Node)) :
  isFilled o' = false ->
  front_after k o' ((k, n :: l) :: m) = (k, mkNode (self n) o' :: l) :: m.
Proof.
  intros H. unfold front_after. cbv zeta. rewrite H. simpl.
  rewrite Z.eqb_refl. simpl. by rewrite Z.eqb_refl.
Qed.

(** A step of the inner loop on an order that is the first of the first
    level of its side: the order leaves the index when the step fills it,
    and is still the first otherwise. *)
Lemma front_gone_or_first sd id bidPrice askPrice bid (bids : list Node) ask
    (asks : list Node) s s1 trade :
  level (bids_ s) bidPrice = bid :: bids ->
  level (asks_ s) askPrice = ask :: asks ->
  Main.match_front bidPrice askPrice bid ask s = Returned (s1, trade) ->
  gone_or_first sd (match sd with Buy => bidPrice | Sell => askPrice end) id s ->
  gone_or_first sd (match sd with Buy => bidPrice | Sell => askPrice end) id s1.
Proof.
  intros Hb Ha. rewrite match_front_eq. intros [= <- _].
  intros [Hn|(n & l & m & E & Eid)].
  { left. simpl. by apply index_after_None, index_after_None. }
  destruct sd; simpl in E.
  - rewrite E, level_head in Hb. injection Hb as -> ->.
    destruct (isFilled (filled_by
                (Z.min (remainingQuantity_ (held bid))
                       (remainingQuantity_ (held ask))) (held bid))) eqn:Ef.
    + left. simpl. apply index_after_None. rewrite <- Eid.
      by apply (index_after_filled (filled_by _ (held bid))).
    + right. eexists _, bids, m. simpl. rewrite E.
      split; [by apply front_after_head_kept|done].
  - rewrite E, level_head in Ha. injection Ha as -> ->.
    destruct (isFilled (filled_by
                (Z.min (remainingQuantity_ (held bid))
                       (remainingQuantity_ (held ask))) (held ask))) eqn:Ef.
    + left. simpl. rewrite <- Eid.
      by apply (index_after_filled (filled_by _ (held ask))).
    + right. eexists _, asks, m. simpl. rewrite E.
      split; [by apply front_after_head_kept|done].
Qed.

Lemma inner_run_gone_or_first sd id bidPrice askPrice s trades s' trades' :
  inner_run bidPrice askPrice s trades s' trades' ->
  gone_or_first sd (match sd with Buy => bidPrice | Sell => askPrice end) id s ->
  gone_or_first sd (match sd with Buy => bidPrice | Sell => askPrice end) id s'.
Proof.
  induction 1 as [|s trades bid bids ask asks s1 trade s' trades' Hb Ha Hm _ IH];
    [done|].
  intros HJ. apply IH. by eapply front_gone_or_first.
Qed.

(** After a pass of the outer loop such an order is not in the index: the
    block that follows the inner loop erases the identifier of the order
    that the inner loop has left first. *)
Lemma match_pass_gone sd k id s trades s' trades' :
  gone_or_first sd k id s ->
  Main.match_pass s trades = Returned (Some (s', trades')) ->
  orders_ s' !! id = None.
Proof.
  intros HJ. unfold Main.match_pass.
  destruct (asks_ s) as [|[askPrice asks] ma] eqn:Ea; [done|].
  destruct (bids_ s) as [|[bidPrice bids] mb] eqn:Eb; [done|].
  destruct (bidPrice <? askPrice); [done|].
  destruct (Main.match_level _ _ _ _ _) as [[s1 t1]| |] eqn:Em; simpl;
    [|done|done].
  intros [= <- _]. apply match_level_run in Em.
  assert (HJ1 : gone_or_first sd
                  (match sd with Buy => bidPrice | Sell => askPrice end) id s1).
  { eapply inner_run_gone_or_first; [exact Em|].
    destruct HJ as [Hn|(n & l & m & E & Eid)]; [by left|]. right.
    destruct sd; simpl in E.
    - rewrite Eb in E. injection E as -> -> ->. exists n, l, m. by simpl.
    - rewrite Ea in E. injection E as -> -> ->. exists n, l, m. by simpl. }
  assert (Hkeep : forall x p, orders_ x !! id = None ->
            orders_ (Main.dispose_bid p x) !! id = None /\
            orders_ (Main.dispose_ask p x) !! id = None).
  { intros x p Hx. split.
    - destruct (dispose_bid_cases p x) as [->|[i ->]]; [done|].
      simpl. apply lookup_delete_None. auto.
    - destruct (dispose_ask_cases p x) as [->|[i ->]]; [done|].
      simpl. apply lookup_delete_None. auto. }
  destruct HJ1 as [Hn|(n & l & m & E & Eid)].
  { apply Hkeep. by apply Hkeep. }
  destruct sd; simpl in E.
  - apply Hkeep. rewrite (dispose_bid_head _ _ _ _ _ E). simpl.
    rewrite Eid. apply lookup_delete_eq.
  - destruct (dispose_keeps_queues bidPrice s1) as (_ & Hq & _).
    rewrite <- Hq in E. rewrite (dispose_ask_head _ _ _ _ _ E). simpl.
    rewrite Eid. apply lookup_delete_eq.
Qed.

Lemma MatchOrders_loop_gone fuel id s trades s' trades' :
  Main.MatchOrders_loop fuel s trades = Returned (s', trades') ->
  orders_ s !! id = None -> orders_ s' !! id = None.
Proof.
  apply (MatchOrders_loop_inv (fun x => orders_ x !! id = None)).
  - intros bidPrice askPrice bid bids ask asks x x1 trade Hx _ _.
    rewrite match_front_eq. intros [= <- _]. simpl.
    by apply index_after_None, index_after_None.
  - intros x i Hx. simpl. apply lookup_delete_None. auto.
Qed.

Lemma MatchOrders_gone sd k id s s' trades :
  gone_or_first sd k id s -> ~ uncrossed s ->
  Main.MatchOrders s = Returned (s', trades) ->
  orders_ s' !! id = None.
Proof.
  intros HJ Hc. unfold Main.MatchOrders. rewrite MatchOrders_loop_S.
  destruct (Main.match_pass s []) as [[[s1 t1]|]| |] eqn:Ep; simpl;
    [| |done|done].
  - intros H. eapply MatchOrders_loop_gone; [exact H|].
    by eapply match_pass_gone.
  - apply match_pass_break in Ep. done.
Qed.

Lemma MatchOrders_index_sub s s' trades id e :
  Main.MatchOrders s = Returned (s', trades) ->
  orders_ s' !! id = Some e -> orders_ s !! id = Some e.
Proof.
  intros H. revert id e.
  refine (MatchOrders_inv
            (fun x => forall id e, orders_ x !! id = Some e ->
                                   orders_ s !! id = Some e) _ _ s s' trades
            H _); [| |done].
  - intros bidPrice askPrice bid bids ask asks x x1 trade Hx _ _.
    rewrite match_front_eq. intros [= <- _] id e. simpl.
    intros He%index_after_Some%index_after_Some. by apply Hx.
  - intros x i Hx id e. simpl. intros [_ He]%lookup_delete_Some. by apply Hx.
Qed.

(** A crossing order is placed as the first order of a new first level of
    its side, and the book then crosses. *)
Lemma place_first s o :
  uncrossed s ->
  Main.CanMatch s (side_ o) (price_ o) = true ->
  gone_or_first (side_ o) (price_ o) (orderId_ o) (place s o) /\
  ~ uncrossed (place s o).
Proof.
  unfold uncrossed, Main.CanMatch, place, gone_or_first.
  destruct (side_ o); simpl.
  - destruct (asks_ s) as [|[a la] ma]; [done|].
    intros Hu Hp%Z.geb_le.
    destruct (bids_ s) as [|[b lb] mb]; simpl.
    + rewrite Z.eqb_refl. split; [|lia]. right. by eexists _, _, _.
    + destruct (Z.eqb_spec b (price_ o)) as [E|_]; [lia|].
      unfold greater. destruct (Z.gtb_spec (price_ o) b) as [_|Hle]; [|lia].
      simpl. rewrite Z.eqb_refl. split; [|lia]. right. by eexists _, _, _.
  - destruct (bids_ s) as [|[b lb] mb]; [done|].
    intros Hu Hp%Z.leb_le.
    destruct (asks_ s) as [|[a la] ma]; simpl.
    + rewrite Z.eqb_refl. split; [|lia]. right. by eexists _, _, _.
    + destruct (Z.eqb_spec a (price_ o)) as [E|_]; [lia|].
      unfold less. destruct (Z.ltb_spec (price_ o) a) as [_|Hle]; [|lia].
      simpl. rewrite Z.eqb_refl. split; [|lia]. right. by eexists _, _, _.
Qed.

Lemma AddOrder_indexed s o s' trades :
  uncrossed s -> indexed_GoodTillCancel s ->
  Main.AddOrder s o = Returned (s', trades) ->
  indexed_GoodTillCancel s'.
Proof.
  intros Hu Hi. rewrite AddOrder_unfold. unfold rejects, contains.
  destruct (orders_ s !! orderId_ o) as [e0|] eqn:Hnone.
  { rewrite bool_decide_eq_true_2 by eauto. by intros [= <- _]. }
  rewrite bool_decide_eq_false_2 by (by intros [? [=]]). simpl.
  destruct (Main.CanMatch s (side_ o) (price_ o)) eqn:Ec; simpl.
  - intros HM id e He.
    pose proof (MatchOrders_index_sub _ _ _ _ _ HM He) as Hp.
    rewrite place_orders in Hp. unfold insert_entry in Hp.
    rewrite Hnone in Hp.
    apply lookup_insert_Some in Hp as [[<- <-]|[_ Hp]]; [|by eapply Hi].
    destruct (place_first s o Hu Ec) as [HJ Hc].
    rewrite (MatchOrders_gone _ _ _ _ _ _ HJ Hc HM) in He. done.
  - destruct (orderType_ o) eqn:Et; simpl; [by intros [= <- _]|].
    intros HM id e He.
    pose proof (MatchOrders_index_sub _ _ _ _ _ HM He) as Hp.
    rewrite place_orders in Hp. unfold insert_entry in Hp.
    rewrite Hnone in Hp.
    apply lookup_insert_Some in Hp as [[<- <-]|[_ Hp]]; [done|by eapply Hi].
Qed.

Lemma CancelOrder_indexed s id :
  indexed_GoodTillCancel s -> indexed_GoodTillCancel (Main.CancelOrder s id).
Proof.
  intros Hi i e. destruct (orders_ s !! id) as [e0|] eqn:He0.
  - rewrite (CancelOrder_eq _ _ _ He0).
    destruct (side_ (order e0)); simpl;
      intros [_ H]%lookup_delete_Some; by eapply Hi.
  - rewrite (CancelOrder_absent _ _ He0). apply Hi.
Qed.

Lemma call_indexed s c s' trades :
  book_ordered s -> uncrossed s -> indexed_GoodTillCancel s ->
  call s c = Returned (s', trades) ->
  indexed_GoodTillCancel s'.
Proof.
  intros Ho Hu Hi. destruct c as [id ty q p sd|id|m]; simpl.
  - by apply AddOrder_indexed.
  - intros [= <- _]. by apply CancelOrder_indexed.
  - unfold Main.ModifyOrder.
    destruct (orders_ s !! m_orderId_ m) as [existing|]; [|by intros [= <- _]].
    destruct (Main.AddOrder _ _) as [[s1 t1]| |] eqn:Ea; simpl; [|done|done].
    intros HM i e He.
    assert (H1 : indexed_GoodTillCancel s1).
    { eapply AddOrder_indexed; [| |exact Ea].
      - by apply CancelOrder_uncrossed.
      - by apply CancelOrder_indexed. }
    eapply H1. by eapply MatchOrders_index_sub.
Qed.

Lemma reachable_by_indexed P s : reachable_by P s -> indexed_GoodTillCancel s.
Proof.
  induction 1 as [|s c s' trades Hs IH _ Hc].
  - intros id e H. simpl in H. by rewrite lookup_empty in H.
  - eapply call_indexed; [| | |exact Hc]; try done.
    + by eapply reachable_by_ordered.
    + by eapply reachable_by_uncrossed.
Qed.

(** ** A modification that does not cross *)

(** X14.  [ModifyOrder] re-queues.  The index of a reachable book holds
    GoodTillCancel orders only: a FillAndKill order that [AddOrder] accepts
    crosses, and the matching loop fills it or the block after the inner
    loop erases its identifier.  So let the index of a reachable book hold
    an order under the identifier of the modification, and let the new
    price not cross the opposite side once that order is cancelled.  Then
    the order is GoodTillCancel, and [ModifyOrder] returns no trade, takes
    the order's node out and puts a new GoodTillCancel order of the new
    side, price and quantity behind the orders of the level of the new
    price, with the new quantity as initial and remaining quantity. *)
Theorem ModifyOrder_requeues s m e :
  reachable s ->
  orders_ s !! m_orderId_ m = Some e ->
  ~ crosses (Main.CancelOrder s (m_orderId_ m)) (m_side_ m) (m_price_ m) ->
  orderType_ (order e) = GoodTillCancel /\
  Main.ModifyOrder s m =
  Returned
    (place (Main.CancelOrder s (m_orderId_ m))
           (ToOrderPointer m GoodTillCancel), []).
Proof.
  intros Hs He Hno.
  pose proof (reachable_by_indexed _ _ Hs _ _ He) as Ety.
  split; [exact Ety|].
  pose proof (reachable_by_ordered _ _ Hs) as Ho.
  pose proof (reachable_by_uncrossed _ _ Hs) as Hu.
  destruct (reachable_by_sound _ _ Hs) as [_ Hi].
  destruct (Hi _ _ He) as [Eid _].
  pose proof (CancelOrder_ordered s (m_orderId_ m) Ho) as Ho1.
  pose proof (CancelOrder_uncrossed s (m_orderId_ m) Ho Hu) as Hu1.
  assert (Hnone : orders_ (Main.CancelOrder s (m_orderId_ m)) !! m_orderId_ m
                  = None).
  { rewrite (CancelOrder_eq _ _ _ He), Eid.
    destruct (side_ (order e)); simpl; apply lookup_delete_eq. }
  unfold Main.ModifyOrder. rewrite He. cbv zeta. rewrite Ety.
  rewrite (AddOrder_rests _ (ToOrderPointer m GoodTillCancel)); try done.
  simpl. apply MatchOrders_uncrossed. by apply place_uncrossed.
Qed.

Lemma ModifyOrder_requeues_witness :
  orderType_ (newOrder 2 GoodTillCancel 3 100 Buy) = GoodTillCancel /\
  Main.ModifyOrder two_sided_book (mkOrderModify 2 Buy 7 101) =
  Returned
    (place (Main.CancelOrder two_sided_book 2)
           (ToOrderPointer (mkOrderModify 2 Buy 7 101) GoodTillCancel), []).
Proof.
  apply (ModifyOrder_requeues two_sided_book (mkOrderModify 2 Buy 7 101)
           (mkOrderEntry (newOrder 2 GoodTillCancel 3 100 Buy) 1%nat)
           two_sided_reachable_all).
  - vm_compute. reflexivity.
  - intros (a & Ha & Hle). vm_compute in Ha. injection Ha as <-. simpl in Hle. lia.
Defined.

(** ** The aggregated book of the third source file *)

Lemma add_all_snoc calls c b :
  add_all (calls ++ [c]) b
  = Part000.AddOrder (add_all calls b) (fst (fst c)) (snd (fst c)) (snd c).
Proof. unfold add_all. by rewrite fold_left_app. Qed.

Lemma added_snoc sd p calls c :
  added sd p (calls ++ [c])
  = added sd p calls
    ++ (if Side_eqb (fst (fst c)) sd && (snd (fst c) =? p) then [snd c] else []).
Proof.
  unfold added. rewrite List.filter_app, map_app. simpl. by destruct (_ && _).
Qed.

Lemma sum_snoc (l : list Z) v :
  fold_right Z.add 0 (l ++ [v]) = fold_right Z.add 0 l + v.
Proof. induction l as [|x l IH]; simpl; lia. Qed.

Lemma AddOrder_lookup b sd0 p0 v sd p :
  side_volumes (Part000.AddOrder b sd0 p0 v) sd !! p =
  if Side_eqb sd0 sd && (p0 =? p) then
    Some (match side_volumes b sd !! p with
          | None => v
          | Some present => Part000.wrap64 (present + v)
          end)
  else side_volumes b sd !! p.
Proof.
  unfold Part000.AddOrder, Part000.mAddOrder.
  destruct sd0, sd; simpl; try done.
  - destruct (Z.eqb_spec p0 p) as [->|Hne].
    + destruct (Part000.bids b !! p); simpl; by rewrite lookup_insert_eq.
    + destruct (Part000.bids b !! p0); simpl; by rewrite lookup_insert_ne.
  - destruct (Z.eqb_spec p0 p) as [->|Hne].
    + destruct (Part000.asks b !! p); simpl; by rewrite lookup_insert_eq.
    + destruct (Part000.asks b !! p0); simpl; by rewrite lookup_insert_ne.
Qed.

(** X15.  The aggregated book sums the volumes of a level.  After any list
    of [AddOrder] calls on an empty [LimitOrderBook], with volumes in the
    range of [std::uint64_t], a side has a level at a price exactly when
    some call added to that side at that price, and the volume of the level
    is then the sum of the volumes of these calls modulo [2^64]; calls on
    the other side or at other prices do not touch it, and no level is ever
    removed. *)
Theorem LimitOrderBook_level_volume calls sd p :
  Forall (fun c => uint64 (snd c)) calls ->
  side_volumes (add_all calls Part000.empty_book) sd !! p =
  match added sd p calls with
  | [] => None
  | volumes => Some (fold_right Z.add 0 volumes mod 2 ^ 64)
  end.
Proof.
  induction calls as [|c calls IH] using rev_ind.
  - intros _. destruct sd; simpl; apply lookup_empty.
  - rewrite Forall_app, Forall_cons. intros [Hc [Hv _]].
    rewrite add_all_snoc, added_snoc, AddOrder_lookup, (IH Hc).
    destruct (_ && _).
    + destruct (added sd p calls) as [|v0 vs]; simpl.
      * f_equal. rewrite Z.add_0_r. unfold uint64 in Hv. by rewrite Z.mod_small.
      * f_equal. unfold Part000.wrap64.
        rewrite Zplus_mod_idemp_l, sum_snoc. f_equal. lia.
    + by rewrite app_nil_r.
Qed.

Lemma LimitOrderBook_level_volume_witness :
  side_volumes
    (add_all [(Buy, 100, 5); (Sell, 105, 2); (Buy, 100, 7)] Part000.empty_book)
    Buy !! 100
  = Some 12.
Proof.
  apply (LimitOrderBook_level_volume
           [(Buy, 100, 5); (Sell, 105, 2); (Buy, 100, 7)] Buy 100).
  repeat constructor; simpl; lia.
Defined.

(** ** Price and time priority *)

Lemma ordered_head_absent before k (l : list Node) (m : list (Z * list Node)) :
  (forall a, before a a = false) ->
  ordered before ((k, l) :: m) -> contains_level m k = false.
Proof.
  intros Hi. unfold ordered. simpl. rewrite StronglySorted_cons. intros [H _].
  induction m as [|[k0 l0] m IH]; simpl in *; [done|].
  apply Forall_cons in H as [H0 H]. rewrite (IH H), orb_false_r.
  destruct (Z.eqb_spec k0 k) as [->|]; [|done]. by rewrite Hi in H0.
Qed.

(** The step of the inner loop on the first level of a map. *)
Lemma front_after_head before k (o' : Order) n (l : list Node)
    (m : list (Z * list Node)) :
  (forall a, before a a = false) ->
  ordered before ((k, n :: l) :: m) ->
  front_after k o' ((k, n :: l) :: m) =
  if isFilled o'
  then (if is_nil l then m else (k, l) :: m)
  else (k, mkNode (self n) o' :: l) :: m.
Proof.
  intros Hi Ho. pose proof (ordered_head_absent _ _ _ _ Hi Ho) as Habs.
  unfold front_after. cbv zeta.
  destruct (isFilled o'); simpl; repeat (rewrite Z.eqb_refl; simpl); [|done].
  destruct l as [|n' l]; simpl; [|done]. by apply erase_absent.
Qed.

Lemma nodes_front_after_head before k (o' : Order) n (l : list Node)
    (m : list (Z * list Node)) :
  (forall a, before a a = false) ->
  ordered before ((k, n :: l) :: m) ->
  nodes (front_after k o' ((k, n :: l) :: m)) =
  (if isFilled o' then l else mkNode (self n) o' :: l) ++ nodes m.
Proof.
  intros Hi Ho. rewrite (front_after_head before) by done.
  destruct (isFilled o'); [|by rewrite nodes_cons].
  destruct l; simpl; [done|by rewrite nodes_cons].
Qed.

Lemma front_after_head_level before k (o' : Order) n (l : list Node)
    (m : list (Z * list Node)) x (xs : list Node) :
  (forall a, before a a = false) ->
  ordered before ((k, n :: l) :: m) ->
  level (front_after k o' ((k, n :: l) :: m)) k = x :: xs ->
  exists lb, front_after k o' ((k, n :: l) :: m) = (k, lb) :: m.
Proof.
  intros Hi Ho. pose proof (ordered_head_absent _ _ _ _ Hi Ho) as Habs.
  rewrite (front_after_head before) by done.
  destruct (isFilled o'); [|by eauto].
  destruct l as [|n' l]; simpl; [|by eauto].
  by rewrite (level_absent _ _ Habs).
Qed.

Lemma inner_run_cases bidPrice askPrice s trades s' trades' :
  inner_run bidPrice askPrice s trades s' trades' ->
  (s' = s /\ trades' = trades) \/
  exists bid bids ask asks,
    level (bids_ s) bidPrice = bid :: bids /\
    level (asks_ s) askPrice = ask :: asks.
Proof. destruct 1; [by left|right; eauto 10]. Qed.

Section LoopInvariantBest.

Variable P : OrderBook -> Trades -> Prop.

Hypothesis P_ordered : forall s trades, P s trades -> book_ordered s.

Hypothesis P_front :
  forall bidPrice askPrice bid bids mb ask asks ma s trades s1 trade,
    P s trades ->
    askPrice <= bidPrice ->
    bids_ s = (bidPrice, bid :: bids) :: mb ->
    asks_ s = (askPrice, ask :: asks) :: ma ->
    Main.match_front bidPrice askPrice bid ask s = Returned (s1, trade) ->
    P s1 (trades ++ [trade]).

Hypothesis P_erase : forall s id trades,
  P s trades -> P (with_orders s (delete id (orders_ s))) trades.

Lemma inner_run_inv_best bidPrice askPrice s trades s' trades' :
  askPrice <= bidPrice ->
  inner_run bidPrice askPrice s trades s' trades' ->
  (exists lb mb, bids_ s = (bidPrice, lb) :: mb) ->
  (exists la ma, asks_ s = (askPrice, la) :: ma) ->
  P s trades -> P s' trades'.
Proof.
  intros Hle.
  induction 1
    as [|s trades bid bids ask asks s1 trade s' trades' Hb Ha Hm Hrun IH];
    [done|].
  intros (lb & mb & Ebs) (la & ma & Eas) HP.
  rewrite Ebs in Hb. simpl in Hb. rewrite Z.eqb_refl in Hb. subst lb.
  rewrite Eas in Ha. simpl in Ha. rewrite Z.eqb_refl in Ha. subst la.
  pose proof (P_front _ _ _ _ _ _ _ _ _ _ _ _ HP Hle Ebs Eas Hm) as HP1.
  destruct (P_ordered _ _ HP) as [Hob Hoa].
  destruct (inner_run_cases _ _ _ _ _ _ Hrun)
    as [[-> ->]|(b2 & bs2 & a2 & as2 & Hb2 & Ha2)]; [done|].
  rewrite match_front_eq in Hm.
  assert (E1 : bids_ s1 = front_after bidPrice
                 (filled_by (Z.min (remainingQuantity_ (held bid))
                                   (remainingQuantity_ (held ask))) (held bid))
                 (bids_ s)) by (by injection Hm as <- _).
  assert (E2 : asks_ s1 = front_after askPrice
                 (filled_by (Z.min (remainingQuantity_ (held bid))
                                   (remainingQuantity_ (held ask))) (held ask))
                 (asks_ s)) by (by injection Hm as <- _).
  rewrite Ebs in Hob, E1. rewrite Eas in Hoa, E2.
  rewrite E1 in Hb2. rewrite E2 in Ha2.
  destruct (front_after_head_level greater _ _ _ _ _ _ _ greater_irrefl Hob Hb2)
    as [lb Elb].
  destruct (front_after_head_level less _ _ _ _ _ _ _ less_irrefl Hoa Ha2)
    as [la Ela].
  apply IH; [| |exact HP1].
  - exists lb, mb. by rewrite E1.
  - exists la, ma. by rewrite E2.
Qed.

Lemma match_pass_inv_best s trades s' trades' :
  Main.match_pass s trades = Returned (Some (s', trades')) ->
  P s trades -> P s' trades'.
Proof.
  unfold Main.match_pass.
  destruct (asks_ s) as [|[askPrice asks] ma] eqn:Ea; [done|].
  destruct (bids_ s) as [|[bidPrice bids] mb] eqn:Eb; [done|].
  destruct (Z.ltb_spec bidPrice askPrice) as [|Hle]; [done|].
  destruct (Main.match_level _ _ _ _ _) as [[s1 trades1]| |] eqn:Em;
    simpl; [|done|done].
  intros [= <- <-] HP.
  apply match_level_run in Em.
  assert (HP1 : P s1 trades1).
  { eapply inner_run_inv_best; [exact Hle|exact Em| | |exact HP]; eauto. }
  assert (HP2 : P (Main.dispose_bid bidPrice s1) trades1).
  { destruct (dispose_bid_cases bidPrice s1) as [->|[i1 ->]]; auto. }
  destruct (dispose_ask_cases askPrice (Main.dispose_bid bidPrice s1))
    as [->|[i2 ->]]; auto.
Qed.

Lemma MatchOrders_loop_inv_best fuel s trades s' trades' :
  Main.MatchOrders_loop fuel s trades = Returned (s', trades') ->
  P s trades -> P s' trades'.
Proof.
  revert s trades. induction fuel as [|fuel IH]; intros s trades; simpl; [done|].
  destruct (Main.match_pass s trades) as [[[s1 trades1]|]| |] eqn:Ep;
    simpl; [| |done|done].
  - intros H HP. eapply IH; [exact H|]. eapply match_pass_inv_best; eauto.
  - by intros [= <- <-].
Qed.

Lemma MatchOrders_inv_best s s' trades' :
  Main.MatchOrders s = Returned (s', trades') -> P s [] -> P s' trades'.
Proof. apply MatchOrders_loop_inv_best. Qed.

End LoopInvariantBest.

Lemma head_level k (l : list Node) (m : list (Z * list Node)) :
  level ((k, l) :: m) k = l.
Proof. simpl. by rewrite Z.eqb_refl. Qed.

Lemma matching_priority_front a o q queue bidPrice askPrice bid
    (bids : list Node) mb ask (asks : list Node) ma s trades s1 trade :
  matching_priority a o q queue s trades ->
  askPrice <= bidPrice ->
  bids_ s = (bidPrice, bid :: bids) :: mb ->
  asks_ s = (askPrice, ask :: asks) :: ma ->
  Main.match_front bidPrice askPrice bid ask s = Returned (s1, trade) ->
  matching_priority a o q queue s1 (trades ++ [trade]).
Proof.
  intros [Hmq Hpr] Hle Ebs Eas Hf.
  assert (Hb : level (bids_ s) bidPrice = bid :: bids).
  { rewrite Ebs. apply head_level. }
  assert (Ha : level (asks_ s) askPrice = ask :: asks).
  { rewrite Eas. apply head_level. }
  split; [by eapply matching_quantity_front|].
  destruct Hmq as (Hm & Hok & _ & _ & _).
  destruct (matching_incoming _ _ _ _ _ _ _ _ _ _ Hm Hle Hb Ha)
    as (_ & _ & Hinc).
  destruct Hm as (Ho & _ & Hnd & _).
  destruct (sides_front_eq _ _ _ _ _ _ _ _ _ Ho Hb Ha Hf)
    as (pb & qb & pa & qa & Eb & Ea & Eb1 & Ea1 & ->).
  rewrite match_front_eq in Hf.
  assert (Hb1 : bids_ s1 = front_after bidPrice
                 (filled_by (Z.min (remainingQuantity_ (held bid))
                                   (remainingQuantity_ (held ask))) (held bid))
                 (bids_ s)) by (by injection Hf as <-).
  assert (Ha1 : asks_ s1 = front_after askPrice
                 (filled_by (Z.min (remainingQuantity_ (held bid))
                                   (remainingQuantity_ (held ask))) (held ask))
                 (asks_ s)) by (by injection Hf as <-).
  clear Hf. destruct Ho as [Hob Hoa].
  rewrite Ebs in Hob, Hb1. rewrite Eas in Hoa, Ha1.
  assert (Nb1 : nodes (bids_ s1) =
                 (if isFilled (filled_by (Z.min (remainingQuantity_ (held bid))
                                                (remainingQuantity_ (held ask)))
                                         (held bid))
                  then bids
                  else mkNode (self bid)
                         (filled_by (Z.min (remainingQuantity_ (held bid))
                                           (remainingQuantity_ (held ask)))
                                    (held bid)) :: bids) ++ nodes mb).
  { rewrite Hb1. by apply (nodes_front_after_head greater _ _ _ _ _ greater_irrefl). }
  assert (Na1 : nodes (asks_ s1) =
                 (if isFilled (filled_by (Z.min (remainingQuantity_ (held bid))
                                                (remainingQuantity_ (held ask)))
                                         (held ask))
                  then asks
                  else mkNode (self ask)
                         (filled_by (Z.min (remainingQuantity_ (held bid))
                                           (remainingQuantity_ (held ask)))
                                    (held ask)) :: asks) ++ nodes ma).
  { rewrite Ha1. by apply (nodes_front_after_head less _ _ _ _ _ less_irrefl). }
  assert (Hbn : bid ∈ nodes (bids_ s)).
  { rewrite Eb, elem_of_app, elem_of_cons. auto. }
  assert (Han : ask ∈ nodes (asks_ s)).
  { rewrite Ea, elem_of_app, elem_of_cons. auto. }
  assert (Hba : bid ∈ all_nodes s) by (unfold all_nodes; apply elem_of_app; auto).
  assert (Haa : ask ∈ all_nodes s) by (unfold all_nodes; apply elem_of_app; auto).
  unfold nodes_ok in Hok. rewrite Forall_forall in Hok.
  pose proof (Hok bid Hba) as Hbid. pose proof (Hok ask Haa) as Hask.
  destruct (filled_by_ok _ _ Hbid Hask) as (_ & Rb & Hq).
  destruct (filled_by_ok _ _ Hask Hbid) as (_ & Ra & _).
  rewrite (Z.min_comm (remainingQuantity_ (held ask))) in Ra.
  pose proof Hnd as Hnd'. unfold all_nodes in Hnd'. rewrite fmap_app in Hnd'.
  apply NoDup_app in Hnd' as (NdB & _ & NdA). rewrite Eb in NdB. rewrite Ea in NdA.
  assert (Horig_b : forall n, n ∈ nodes (bids_ s1) ->
            exists n0, n0 ∈ nodes (bids_ s) /\ self n0 = self n).
  { intros n Hn. rewrite Eb1 in Hn.
    apply front_nodes_origin in Hn as (n0 & Hn0 & Es0 & _).
    rewrite <- Eb in Hn0. eauto. }
  assert (Horig_a : forall n, n ∈ nodes (asks_ s1) ->
            exists n0, n0 ∈ nodes (asks_ s) /\ self n0 = self n).
  { intros n Hn. rewrite Ea1 in Hn.
    apply front_nodes_origin in Hn as (n0 & Hn0 & Es0 & _).
    rewrite <- Ea in Hn0. eauto. }
  assert (Hcase_b : forall n, n ∈ nodes (bids_ s1) ->
            self n <> self bid \/
            isFilled (filled_by (Z.min (remainingQuantity_ (held bid))
                                       (remainingQuantity_ (held ask)))
                                (held bid)) = false).
  { intros n Hn. rewrite Eb1 in Hn.
    destruct (front_nodes_cases _ _ _ _ _ NdB Hn) as [[_ Hne]|[_ Hc]]; auto. }
  assert (Hcase_a : forall n, n ∈ nodes (asks_ s1) ->
            self n <> self ask \/
            isFilled (filled_by (Z.min (remainingQuantity_ (held bid))
                                       (remainingQuantity_ (held ask)))
                                (held ask)) = false).
  { intros n Hn. rewrite Ea1 in Hn.
    destruct (front_nodes_cases _ _ _ _ _ NdA Hn) as [[_ Hne]|[_ Hc]]; auto. }
  clear Eb1 Ea1.
  destruct Hpr as [(matched & EL & HF)|[Habs _]];
    [|exfalso; destruct Hinc as [(Es & _)|(Es & _)];
      [by apply (Habs bid)|by apply (Habs ask)]].
  unfold priority.
  destruct Hinc as [(Es & Esd & _)|(Es & Esd & _)]; rewrite Esd in *;
    simpl in EL; simpl.
  - rewrite Eas, nodes_cons in EL.
    destruct (isFilled (filled_by _ (held ask))) eqn:Ef.
    + left. exists (matched ++ [ask]). rewrite Na1. split.
      * rewrite EL, <- app_assoc. done.
      * apply Forall2_app; [done|]. constructor; [|constructor].
        apply Z.eqb_eq in Ef. rewrite Ra in Ef.
        unfold trade_exhausts, trade_against. simpl. repeat split; lia.
    + right. apply Z.eqb_neq in Ef. rewrite Ra in Ef.
      assert (Efb : isFilled (filled_by
                      (Z.min (remainingQuantity_ (held bid))
                             (remainingQuantity_ (held ask))) (held bid)) = true).
      { apply Z.eqb_eq. rewrite Rb. lia. }
      split.
      * intros n. unfold all_nodes. rewrite elem_of_app. intros [Hn|Hn].
        -- destruct (Hcase_b n Hn); congruence.
        -- destruct (Horig_a n Hn) as (n0 & Hn0 & Es0).
           pose proof (NoDup_sides _ _ bid n0 Hnd Hbn Hn0). congruence.
      * exists matched, (asks ++ nodes ma), trades,
          (trade_of (Z.min (remainingQuantity_ (held bid))
                           (remainingQuantity_ (held ask)))
                    (held bid) (held ask)), ask.
        split; [done|]. split; [by rewrite EL|]. split; [done|].
        unfold trade_against. simpl. repeat split; lia.
  - rewrite Ebs, nodes_cons in EL.
    destruct (isFilled (filled_by _ (held bid))) eqn:Ef.
    + left. exists (matched ++ [bid]). rewrite Nb1. split.
      * rewrite EL, <- app_assoc. done.
      * apply Forall2_app; [done|]. constructor; [|constructor].
        apply Z.eqb_eq in Ef. rewrite Rb in Ef.
        unfold trade_exhausts, trade_against. simpl. repeat split; lia.
    + right. apply Z.eqb_neq in Ef. rewrite Rb in Ef.
      assert (Efa : isFilled (filled_by
                      (Z.min (remainingQuantity_ (held bid))
                             (remainingQuantity_ (held ask))) (held ask)) = true).
      { apply Z.eqb_eq. rewrite Ra. lia. }
      split.
      * intros n. unfold all_nodes. rewrite elem_of_app. intros [Hn|Hn].
        -- destruct (Horig_b n Hn) as (n0 & Hn0 & Es0).
           pose proof (NoDup_sides _ _ n0 ask Hnd Hn0 Han). congruence.
        -- destruct (Hcase_a n Hn); congruence.
      * exists matched, (bids ++ nodes mb), trades,
          (trade_of (Z.min (remainingQuantity_ (held bid))
                           (remainingQuantity_ (held ask)))
                    (held bid) (held ask)), bid.
        split; [done|]. split; [by rewrite EL|]. split; [done|].
        unfold trade_against. simpl. repeat split; lia.
Qed.

(** X16.  Price and time priority.  When every call submits a quantity [q]
    with [0 <= q < 2^31], the trades that [AddOrder] returns on a reachable
    book take the orders of the other side in the order of the book: the
    best price first, and within a price level the order that came first.
    The trades name, one by one and without a gap, the orders of a prefix
    of the other side as the book lists it, each at the price of the
    resting order and for no more than that order has left; and every trade
    but the last executes all that its resting order has left. *)
Theorem AddOrder_price_time_priority s id ty q p sd s' trades :
  reachable_by quantity_ok s ->
  0 <= q < 2 ^ 31 ->
  Main.AddOrder s (newOrder id ty q p sd) = Returned (s', trades) ->
  exists matched rest,
    nodes (side_levels s (opposite sd)) = matched ++ rest /\
    Forall2 (trade_against sd) trades matched /\
    Forall2 (trade_exhausts sd)
      (take (length trades - 1)%nat trades)
      (take (length trades - 1)%nat matched).
Proof.
  intros Hs Hq. rewrite AddOrder_unfold. destruct (rejects s _).
  { intros [= <- <-]. exists [], (nodes (side_levels s (opposite sd))).
    simpl. repeat split; constructor. }
  intros Hm.
  assert (H : matching_priority (fresh_ s) (newOrder id ty q p sd) q
                (nodes (side_levels s (opposite sd))) s' trades).
  { apply (MatchOrders_inv_best
             (matching_priority (fresh_ s) (newOrder id ty q p sd) q
                (nodes (side_levels s (opposite sd)))))
      with (s := place s (newOrder id ty q p sd)).
    - intros x t (((Ho & _) & _) & _). exact Ho.
    - intros. by eapply matching_priority_front.
    - intros x i t H. exact H.
    - exact Hm.
    - split; [by apply place_matching_quantity|]. left. exists [].
      split; [|constructor]. unfold place. by destruct sd. }
  destruct H as [_ [(matched & EL & HF)
                   |(_ & matched & rest & trades0 & t & n & -> & EL & HF & Ht)]].
  - exists matched, (nodes (side_levels s' (opposite sd))).
    split; [done|]. split.
    + eapply Forall2_impl; [exact HF|]. by intros ? ? [? _].
    + by apply Forall2_take.
  - exists (matched ++ [n]), rest. split; [by rewrite EL, <- app_assoc|]. split.
    + apply Forall2_app; [|constructor; [exact Ht|constructor]].
      eapply Forall2_impl; [exact HF|]. by intros ? ? [? _].
    + rewrite length_app. simpl.
      replace (length trades0 + 1 - 1)%nat with (length trades0) by lia.
      rewrite take_app_length, (Forall2_length _ _ _ HF), take_app_length. done.
Qed.

Lemma deep_book_reachable : reachable_by quantity_ok deep_book.
Proof.
  refine (run_reachable quantity_ok deep_calls empty_book _ [[]; []; []; []]
            (reachable_empty _) _ _).
  - repeat (constructor; [unfold quantity_ok; simpl; intros q H;
                          injection H as <-; lia|]).
    constructor.
  - vm_compute. reflexivity.
Defined.

Lemma AddOrder_price_time_priority_witness :
  exists matched rest,
    nodes (side_levels deep_book (opposite Buy)) = matched ++ rest /\
    Forall2 (trade_against Buy)
      [trade_of 5 (newOrder 5 GoodTillCancel 12 106 Buy)
                  (newOrder 1 GoodTillCancel 5 105 Sell);
       trade_of 4 (newOrder 5 GoodTillCancel 12 106 Buy)
                  (newOrder 2 GoodTillCancel 4 105 Sell);
       trade_of 3 (newOrder 5 GoodTillCancel 12 106 Buy)
                  (newOrder 3 GoodTillCancel 6 106 Sell)]
      matched /\
    Forall2 (trade_exhausts Buy)
      [trade_of 5 (newOrder 5 GoodTillCancel 12 106 Buy)
                  (newOrder 1 GoodTillCancel 5 105 Sell);
       trade_of 4 (newOrder 5 GoodTillCancel 12 106 Buy)
                  (newOrder 2 GoodTillCancel 4 105 Sell)]
      (take 2 matched).
Proof.
  eapply (AddOrder_price_time_priority deep_book 5 GoodTillCancel 12 106 Buy
            _ [trade_of 5 (newOrder 5 GoodTillCancel 12 106 Buy)
                          (newOrder 1 GoodTillCancel 5 105 Sell);
               trade_of 4 (newOrder 5 GoodTillCancel 12 106 Buy)
                          (newOrder 2 GoodTillCancel 4 105 Sell);
               trade_of 3 (newOrder 5 GoodTillCancel 12 106 Buy)
                          (newOrder 3 GoodTillCancel 6 106 Sell)]
            deep_book_reachable).
  - lia.
  - vm_compute. reflexivity.
Defined.
